(** * Fynd-fuel: the home screen's station set, route bounds and trip mode

    A shallow embedding of the logic of [src/app/(tabs)/home.tsx],
    [src/app/(tabs)/addStation.tsx] (the screen that adds a station and,
    from line 391 on, the map screen with its route) and
    [src/constants/MapStyle.ts].

    - JavaScript numbers are IEEE-754 binary64 values: they are modelled by
      Rocq's primitive floats, whose comparison and division are the
      operations JavaScript performs; [toFixed], [Math.round] and the
      conversion to a string are written on the exact value [m * 2^e] of a
      number.
    - Station ids are integers (the backend's primary keys) and are modelled
      by [Z].
    - A JavaScript [Map] iterates in insertion order; it is modelled by an
      association list without repeated keys in which [set] on a present key
      replaces the value in place and [set] on an absent key appends.
    - A string is the Rocq string of its UTF-8 bytes; [trim],
      [toLowerCase] and [length] work on its code points, with the white
      space of ECMAScript and the lower case of Unicode 14.0.
    - A handler of the screen is a function from the [useState] cells to
      its completion, the new cells and the calls it made on its
      collaborators; an awaited call is given by the way it settles.
    - A screen as a whole is its cells under a sequence of events, each
      event one run of its code from one [await] to the next.
    - The timer behind the two debounced wrappers is not in the repository;
      it is the debouncer of the specification, over times in
      milliseconds. *)

From Stdlib Require Import ZArith List Bool String Ascii Lia Floats.
From Stdlib Require Import DecimalString Nnat.
From Stdlib Require DecimalPos.
Import ListNotations.

Local Open Scope Z_scope.

(** ** Data model *)

(** [type Region] of home.tsx. *)
Record Region := {
  latitude : float;
  longitude : float;
  latitudeDelta : float;
  longitudeDelta : float
}.

(** [interface Station] of home.tsx; the optional fields are options. *)
Record Station := {
  id : Z;
  name : string;
  st_latitude : float;
  st_longitude : float;
  address : option string;
  price : option float;
  fuel_type : option string
}.

(** ** JavaScript [Map] with integer keys *)

Module JSMap.

Section WithValue.
Context {V : Type}.

Definition t := list (Z * V).

Definition keys (m : t) : list Z := map fst m.

(** [Map.prototype.values()], in insertion order. *)
Definition values (m : t) : list V := map snd m.

Fixpoint has (k : Z) (m : t) : bool :=
  match m with
  | [] => false
  | (k', _) :: m' => if k =? k' then true else has k m'
  end.

Fixpoint get (k : Z) (m : t) : option V :=
  match m with
  | [] => None
  | (k', v) :: m' => if k =? k' then Some v else get k m'
  end.

(** [Map.prototype.set]: a present key keeps its position and takes the
    new value, an absent key is appended. *)
Fixpoint set (k : Z) (v : V) (m : t) : t :=
  match m with
  | [] => [(k, v)]
  | (k', v') :: m' =>
      if k =? k' then (k', v) :: m' else (k', v') :: set k v m'
  end.

(** [new Map(entries)]: the entries are [set] one after the other. *)
Definition from_entries (es : list (Z * V)) : t :=
  fold_left (fun m e => set (fst e) (snd e) m) es [].

(** The keys of [ks] that are not in [seen], each at its first
    occurrence: the order in which successive [set]s append new keys. *)
Fixpoint fresh_keys (seen ks : list Z) : list Z :=
  match ks with
  | [] => []
  | k :: ks' =>
      if existsb (Z.eqb k) seen then fresh_keys seen ks'
      else k :: fresh_keys (seen ++ [k]) ks'
  end.

End WithValue.

Arguments t : clear implicits.

End JSMap.

(** ** The station merge of [fetchStationsForRegion] *)

(** The [forEach] of home.tsx line 97: every incoming station is [set]
    under its id, in batch order, in the one map. *)
Definition set_all (data : list Station) (stationMap : JSMap.t Station)
  : JSMap.t Station :=
  fold_left (fun m newStation => JSMap.set (id newStation) newStation m)
            data stationMap.

(** The updater passed to [setStations] (home.tsx lines 95-99). *)
Definition mergeStations (prevStations data : list Station) : list Station :=
  let stationMap :=
    JSMap.from_entries (map (fun s => (id s, s)) prevStations) in
  JSMap.values (set_all data stationMap).

(** The last record of [l] whose id is [k]. *)
Fixpoint latest (l : list Station) (k : Z) : option Station :=
  match l with
  | [] => None
  | s :: l' =>
      match latest l' k with
      | Some s' => Some s'
      | None => if k =? id s then Some s else None
      end
  end.

(** What a previously known station becomes after the batch [data]. *)
Definition overwrite (data : list Station) (s : Station) : Station :=
  match latest data (id s) with
  | Some s' => s'
  | None => s
  end.

(** A station list in which no id occurs twice: the invariant of the
    [stations] state. *)
Definition unique_ids (l : list Station) : Prop := NoDup (map id l).

(** The entries of a station map are keyed by the station's own id. *)
Definition keyed (m : JSMap.t Station) : Prop :=
  Forall (fun e => fst e = id (snd e)) m.

(** [stations.find(s => s.id === stationId)] of [handleStationPress]:
    the first station with the given id. *)
Definition find_by_id (stationId : Z) (stations : list Station)
  : option Station :=
  find (fun s => id s =? stationId) stations.

(** Sample stations for the worked examples. *)
Definition mkStation (i : Z) (n : string) (lat lon : float) : Station :=
  {| id := i; name := n; st_latitude := lat; st_longitude := lon;
     address := None; price := None; fuel_type := None |}.

Definition station_a : Station := mkStation 1 "Shell Ikoyi" 6.5 3.5.
Definition station_b : Station := mkStation 2 "Total Lekki" 6.25 3.75.
Definition station_c : Station := mkStation 3 "Mobil Yaba" 6.75 3.25.
(** A newer record for the station with id 1. *)
Definition station_a' : Station := mkStation 1 "Shell V.I." 6.5 3.375.

Definition station_d : Station := mkStation 4 "Oando" 6.625 3.125.

(** ** Strings

    A JavaScript string is modelled by the Rocq string of its UTF-8 bytes,
    which every string of well-formed Unicode text has; its code points are
    read off by [codePoints] and its [length] counts one UTF-16 unit for a
    code point below U+10000 and two above. [trim], [toLowerCase] and
    [includes] are those of ECMAScript, with the character data of Unicode
    14.0; on text, a search in the bytes finds what a search in the UTF-16
    units finds. *)

(** The code points of a string: [pending] holds the bits read of a
    sequence of which [need] bytes are still to come. A byte that cannot
    start a sequence is read as U+FFFD. *)
Fixpoint decode (pending : N) (need : nat) (s : string) : list N :=
  match s with
  | EmptyString => []
  | String c s' =>
      let b := N_of_ascii c in
      match need with
      | O =>
          (if b <? 0x80 then b :: decode 0 0 s'
           else if b <? 0xC0 then 0xFFFD :: decode 0 0 s'
           else if b <? 0xE0 then decode (b - 0xC0) 1 s'
           else if b <? 0xF0 then decode (b - 0xE0) 2 s'
           else decode (b - 0xF0) 3 s')%N
      | S O => (pending * 64 + b mod 64)%N :: decode 0 0 s'
      | S n => decode (pending * 64 + b mod 64)%N n s'
      end
  end.

Definition codePoints (s : string) : list N := decode 0%N 0 s.

(** The UTF-8 bytes of a code point. *)
Definition utf8 (cp : N) : string :=
  let byte (n : N) (rest : string) := String (ascii_of_N n) rest in
  (if cp <? 0x80 then byte cp EmptyString
   else if cp <? 0x800 then
     byte (0xC0 + cp / 64) (byte (0x80 + cp mod 64) EmptyString)
   else if cp <? 0x10000 then
     byte (0xE0 + cp / 4096)
       (byte (0x80 + (cp / 64) mod 64) (byte (0x80 + cp mod 64) EmptyString))
   else
     byte (0xF0 + cp / 262144)
       (byte (0x80 + (cp / 4096) mod 64)
          (byte (0x80 + (cp / 64) mod 64)
             (byte (0x80 + cp mod 64) EmptyString))))%N.

Fixpoint fromCodePoints (l : list N) : string :=
  match l with
  | [] => EmptyString
  | cp :: l' => (utf8 cp ++ fromCodePoints l')%string
  end.

(** [s.length]: the number of UTF-16 code units. *)
Definition utf16Length (s : string) : nat :=
  list_sum (map (fun cp => if (cp <? 0x10000)%N then 1%nat else 2%nat)
                (codePoints s)).

(** WhiteSpace and LineTerminator of ECMAScript: TAB, LF, VT, FF, CR, the
    space separators (category Zs) and U+2028, U+2029, U+FEFF. *)
Definition isWhiteSpace (cp : N) : bool :=
  ((9 <=? cp) && (cp <=? 13) || (cp =? 0x20) || (cp =? 0xA0)
   || (cp =? 0x1680) || (0x2000 <=? cp) && (cp <=? 0x200A)
   || (cp =? 0x2028) || (cp =? 0x2029) || (cp =? 0x202F) || (cp =? 0x205F)
   || (cp =? 0x3000) || (cp =? 0xFEFF))%N.

Fixpoint trimStart (l : list N) : list N :=
  match l with
  | [] => []
  | cp :: l' => if isWhiteSpace cp then trimStart l' else l
  end.

Fixpoint trimEnd (l : list N) : list N :=
  match l with
  | [] => []
  | cp :: l' =>
      match trimEnd l' with
      | [] => if isWhiteSpace cp then [] else [cp]
      | t => cp :: t
      end
  end.

(** [String.prototype.trim]. *)
Definition trim (s : string) : string :=
  fromCodePoints (trimEnd (trimStart (codePoints s))).

(** The simple lower-case mappings of Unicode 14.0: in a run [(first, last,
    step, lower)] the code points [first], [first + step], ..., [last] map to
    [lower], [lower + step], ... *)
Definition lowerCaseRuns : list (N * N * N * N) :=
  [ (0x41, 0x5A, 1, 0x61); (0xC0, 0xD6, 1, 0xE0); (0xD8, 0xDE, 1, 0xF8);
    (0x100, 0x12E, 2, 0x101); (0x132, 0x136, 2, 0x133); (0x139, 0x147, 2,
    0x13A); (0x14A, 0x176, 2, 0x14B); (0x178, 0x178, 1, 0xFF); (0x179, 0x17D,
    2, 0x17A); (0x181, 0x181, 1, 0x253); (0x182, 0x184, 2, 0x183); (0x186,
    0x186, 1, 0x254); (0x187, 0x187, 1, 0x188); (0x189, 0x18A, 1, 0x256);
    (0x18B, 0x18B, 1, 0x18C); (0x18E, 0x18E, 1, 0x1DD); (0x18F, 0x18F, 1,
    0x259); (0x190, 0x190, 1, 0x25B); (0x191, 0x191, 1, 0x192); (0x193, 0x193,
    1, 0x260); (0x194, 0x194, 1, 0x263); (0x196, 0x196, 1, 0x269); (0x197,
    0x197, 1, 0x268); (0x198, 0x198, 1, 0x199); (0x19C, 0x19C, 1, 0x26F);
    (0x19D, 0x19D, 1, 0x272); (0x19F, 0x19F, 1, 0x275); (0x1A0, 0x1A4, 2,
    0x1A1); (0x1A6, 0x1A6, 1, 0x280); (0x1A7, 0x1A7, 1, 0x1A8); (0x1A9, 0x1A9,
    1, 0x283); (0x1AC, 0x1AC, 1, 0x1AD); (0x1AE, 0x1AE, 1, 0x288); (0x1AF,
    0x1AF, 1, 0x1B0); (0x1B1, 0x1B2, 1, 0x28A); (0x1B3, 0x1B5, 2, 0x1B4);
    (0x1B7, 0x1B7, 1, 0x292); (0x1B8, 0x1B8, 1, 0x1B9); (0x1BC, 0x1BC, 1,
    0x1BD); (0x1C4, 0x1C4, 1, 0x1C6); (0x1C5, 0x1C5, 1, 0x1C6); (0x1C7, 0x1C7,
    1, 0x1C9); (0x1C8, 0x1C8, 1, 0x1C9); (0x1CA, 0x1CA, 1, 0x1CC); (0x1CB,
    0x1DB, 2, 0x1CC); (0x1DE, 0x1EE, 2, 0x1DF); (0x1F1, 0x1F1, 1, 0x1F3);
    (0x1F2, 0x1F4, 2, 0x1F3); (0x1F6, 0x1F6, 1, 0x195); (0x1F7, 0x1F7, 1,
    0x1BF); (0x1F8, 0x21E, 2, 0x1F9); (0x220, 0x220, 1, 0x19E); (0x222, 0x232,
    2, 0x223); (0x23A, 0x23A, 1, 0x2C65); (0x23B, 0x23B, 1, 0x23C); (0x23D,
    0x23D, 1, 0x19A); (0x23E, 0x23E, 1, 0x2C66); (0x241, 0x241, 1, 0x242);
    (0x243, 0x243, 1, 0x180); (0x244, 0x244, 1, 0x289); (0x245, 0x245, 1,
    0x28C); (0x246, 0x24E, 2, 0x247); (0x370, 0x372, 2, 0x371); (0x376, 0x376,
    1, 0x377); (0x37F, 0x37F, 1, 0x3F3); (0x386, 0x386, 1, 0x3AC); (0x388,
    0x38A, 1, 0x3AD); (0x38C, 0x38C, 1, 0x3CC); (0x38E, 0x38F, 1, 0x3CD);
    (0x391, 0x3A1, 1, 0x3B1); (0x3A3, 0x3AB, 1, 0x3C3); (0x3CF, 0x3CF, 1,
    0x3D7); (0x3D8, 0x3EE, 2, 0x3D9); (0x3F4, 0x3F4, 1, 0x3B8); (0x3F7, 0x3F7,
    1, 0x3F8); (0x3F9, 0x3F9, 1, 0x3F2); (0x3FA, 0x3FA, 1, 0x3FB); (0x3FD,
    0x3FF, 1, 0x37B); (0x400, 0x40F, 1, 0x450); (0x410, 0x42F, 1, 0x430);
    (0x460, 0x480, 2, 0x461); (0x48A, 0x4BE, 2, 0x48B); (0x4C0, 0x4C0, 1,
    0x4CF); (0x4C1, 0x4CD, 2, 0x4C2); (0x4D0, 0x52E, 2, 0x4D1); (0x531, 0x556,
    1, 0x561); (0x10A0, 0x10C5, 1, 0x2D00); (0x10C7, 0x10C7, 1, 0x2D27);
    (0x10CD, 0x10CD, 1, 0x2D2D); (0x13A0, 0x13EF, 1, 0xAB70); (0x13F0, 0x13F5,
    1, 0x13F8); (0x1C90, 0x1CBA, 1, 0x10D0); (0x1CBD, 0x1CBF, 1, 0x10FD);
    (0x1E00, 0x1E94, 2, 0x1E01); (0x1E9E, 0x1E9E, 1, 0xDF); (0x1EA0, 0x1EFE,
    2, 0x1EA1); (0x1F08, 0x1F0F, 1, 0x1F00); (0x1F18, 0x1F1D, 1, 0x1F10);
    (0x1F28, 0x1F2F, 1, 0x1F20); (0x1F38, 0x1F3F, 1, 0x1F30); (0x1F48, 0x1F4D,
    1, 0x1F40); (0x1F59, 0x1F59, 1, 0x1F51); (0x1F5B, 0x1F5B, 1, 0x1F53);
    (0x1F5D, 0x1F5D, 1, 0x1F55); (0x1F5F, 0x1F5F, 1, 0x1F57); (0x1F68, 0x1F6F,
    1, 0x1F60); (0x1F88, 0x1F8F, 1, 0x1F80); (0x1F98, 0x1F9F, 1, 0x1F90);
    (0x1FA8, 0x1FAF, 1, 0x1FA0); (0x1FB8, 0x1FB9, 1, 0x1FB0); (0x1FBA, 0x1FBB,
    1, 0x1F70); (0x1FBC, 0x1FBC, 1, 0x1FB3); (0x1FC8, 0x1FCB, 1, 0x1F72);
    (0x1FCC, 0x1FCC, 1, 0x1FC3); (0x1FD8, 0x1FD9, 1, 0x1FD0); (0x1FDA, 0x1FDB,
    1, 0x1F76); (0x1FE8, 0x1FE9, 1, 0x1FE0); (0x1FEA, 0x1FEB, 1, 0x1F7A);
    (0x1FEC, 0x1FEC, 1, 0x1FE5); (0x1FF8, 0x1FF9, 1, 0x1F78); (0x1FFA, 0x1FFB,
    1, 0x1F7C); (0x1FFC, 0x1FFC, 1, 0x1FF3); (0x2126, 0x2126, 1, 0x3C9);
    (0x212A, 0x212A, 1, 0x6B); (0x212B, 0x212B, 1, 0xE5); (0x2132, 0x2132, 1,
    0x214E); (0x2160, 0x216F, 1, 0x2170); (0x2183, 0x2183, 1, 0x2184);
    (0x24B6, 0x24CF, 1, 0x24D0); (0x2C00, 0x2C2F, 1, 0x2C30); (0x2C60, 0x2C60,
    1, 0x2C61); (0x2C62, 0x2C62, 1, 0x26B); (0x2C63, 0x2C63, 1, 0x1D7D);
    (0x2C64, 0x2C64, 1, 0x27D); (0x2C67, 0x2C6B, 2, 0x2C68); (0x2C6D, 0x2C6D,
    1, 0x251); (0x2C6E, 0x2C6E, 1, 0x271); (0x2C6F, 0x2C6F, 1, 0x250);
    (0x2C70, 0x2C70, 1, 0x252); (0x2C72, 0x2C72, 1, 0x2C73); (0x2C75, 0x2C75,
    1, 0x2C76); (0x2C7E, 0x2C7F, 1, 0x23F); (0x2C80, 0x2CE2, 2, 0x2C81);
    (0x2CEB, 0x2CED, 2, 0x2CEC); (0x2CF2, 0x2CF2, 1, 0x2CF3); (0xA640, 0xA66C,
    2, 0xA641); (0xA680, 0xA69A, 2, 0xA681); (0xA722, 0xA72E, 2, 0xA723);
    (0xA732, 0xA76E, 2, 0xA733); (0xA779, 0xA77B, 2, 0xA77A); (0xA77D, 0xA77D,
    1, 0x1D79); (0xA77E, 0xA786, 2, 0xA77F); (0xA78B, 0xA78B, 1, 0xA78C);
    (0xA78D, 0xA78D, 1, 0x265); (0xA790, 0xA792, 2, 0xA791); (0xA796, 0xA7A8,
    2, 0xA797); (0xA7AA, 0xA7AA, 1, 0x266); (0xA7AB, 0xA7AB, 1, 0x25C);
    (0xA7AC, 0xA7AC, 1, 0x261); (0xA7AD, 0xA7AD, 1, 0x26C); (0xA7AE, 0xA7AE,
    1, 0x26A); (0xA7B0, 0xA7B0, 1, 0x29E); (0xA7B1, 0xA7B1, 1, 0x287);
    (0xA7B2, 0xA7B2, 1, 0x29D); (0xA7B3, 0xA7B3, 1, 0xAB53); (0xA7B4, 0xA7C2,
    2, 0xA7B5); (0xA7C4, 0xA7C4, 1, 0xA794); (0xA7C5, 0xA7C5, 1, 0x282);
    (0xA7C6, 0xA7C6, 1, 0x1D8E); (0xA7C7, 0xA7C9, 2, 0xA7C8); (0xA7D0, 0xA7D0,
    1, 0xA7D1); (0xA7D6, 0xA7D8, 2, 0xA7D7); (0xA7F5, 0xA7F5, 1, 0xA7F6);
    (0xFF21, 0xFF3A, 1, 0xFF41); (0x10400, 0x10427, 1, 0x10428); (0x104B0,
    0x104D3, 1, 0x104D8); (0x10570, 0x1057A, 1, 0x10597); (0x1057C, 0x1058A,
    1, 0x105A3); (0x1058C, 0x10592, 1, 0x105B3); (0x10594, 0x10595, 1,
    0x105BB); (0x10C80, 0x10CB2, 1, 0x10CC0); (0x118A0, 0x118BF, 1, 0x118C0);
    (0x16E40, 0x16E5F, 1, 0x16E60); (0x1E900, 0x1E921, 1, 0x1E922) ]%N.

(** The code points with the property Case_Ignorable (Unicode 14.0), as
    ranges [(first, last)]. *)
Definition caseIgnorableRanges : list (N * N) :=
  [ (0x27, 0x27); (0x2E, 0x2E); (0x3A, 0x3A); (0x5E, 0x5E); (0x60, 0x60);
    (0xA8, 0xA8); (0xAD, 0xAD); (0xAF, 0xAF); (0xB4, 0xB4); (0xB7, 0xB8);
    (0x2B0, 0x36F); (0x374, 0x375); (0x37A, 0x37A); (0x384, 0x385); (0x387,
    0x387); (0x483, 0x489); (0x559, 0x559); (0x55F, 0x55F); (0x591, 0x5BD);
    (0x5BF, 0x5BF); (0x5C1, 0x5C2); (0x5C4, 0x5C5); (0x5C7, 0x5C7); (0x5F4,
    0x5F4); (0x600, 0x605); (0x610, 0x61A); (0x61C, 0x61C); (0x640, 0x640);
    (0x64B, 0x65F); (0x670, 0x670); (0x6D6, 0x6DD); (0x6DF, 0x6E8); (0x6EA,
    0x6ED); (0x70F, 0x70F); (0x711, 0x711); (0x730, 0x74A); (0x7A6, 0x7B0);
    (0x7EB, 0x7F5); (0x7FA, 0x7FA); (0x7FD, 0x7FD); (0x816, 0x82D); (0x859,
    0x85B); (0x888, 0x888); (0x890, 0x891); (0x898, 0x89F); (0x8C9, 0x902);
    (0x93A, 0x93A); (0x93C, 0x93C); (0x941, 0x948); (0x94D, 0x94D); (0x951,
    0x957); (0x962, 0x963); (0x971, 0x971); (0x981, 0x981); (0x9BC, 0x9BC);
    (0x9C1, 0x9C4); (0x9CD, 0x9CD); (0x9E2, 0x9E3); (0x9FE, 0x9FE); (0xA01,
    0xA02); (0xA3C, 0xA3C); (0xA41, 0xA42); (0xA47, 0xA48); (0xA4B, 0xA4D);
    (0xA51, 0xA51); (0xA70, 0xA71); (0xA75, 0xA75); (0xA81, 0xA82); (0xABC,
    0xABC); (0xAC1, 0xAC5); (0xAC7, 0xAC8); (0xACD, 0xACD); (0xAE2, 0xAE3);
    (0xAFA, 0xAFF); (0xB01, 0xB01); (0xB3C, 0xB3C); (0xB3F, 0xB3F); (0xB41,
    0xB44); (0xB4D, 0xB4D); (0xB55, 0xB56); (0xB62, 0xB63); (0xB82, 0xB82);
    (0xBC0, 0xBC0); (0xBCD, 0xBCD); (0xC00, 0xC00); (0xC04, 0xC04); (0xC3C,
    0xC3C); (0xC3E, 0xC40); (0xC46, 0xC48); (0xC4A, 0xC4D); (0xC55, 0xC56);
    (0xC62, 0xC63); (0xC81, 0xC81); (0xCBC, 0xCBC); (0xCBF, 0xCBF); (0xCC6,
    0xCC6); (0xCCC, 0xCCD); (0xCE2, 0xCE3); (0xD00, 0xD01); (0xD3B, 0xD3C);
    (0xD41, 0xD44); (0xD4D, 0xD4D); (0xD62, 0xD63); (0xD81, 0xD81); (0xDCA,
    0xDCA); (0xDD2, 0xDD4); (0xDD6, 0xDD6); (0xE31, 0xE31); (0xE34, 0xE3A);
    (0xE46, 0xE4E); (0xEB1, 0xEB1); (0xEB4, 0xEBC); (0xEC6, 0xEC6); (0xEC8,
    0xECD); (0xF18, 0xF19); (0xF35, 0xF35); (0xF37, 0xF37); (0xF39, 0xF39);
    (0xF71, 0xF7E); (0xF80, 0xF84); (0xF86, 0xF87); (0xF8D, 0xF97); (0xF99,
    0xFBC); (0xFC6, 0xFC6); (0x102D, 0x1030); (0x1032, 0x1037); (0x1039,
    0x103A); (0x103D, 0x103E); (0x1058, 0x1059); (0x105E, 0x1060); (0x1071,
    0x1074); (0x1082, 0x1082); (0x1085, 0x1086); (0x108D, 0x108D); (0x109D,
    0x109D); (0x10FC, 0x10FC); (0x135D, 0x135F); (0x1712, 0x1714); (0x1732,
    0x1733); (0x1752, 0x1753); (0x1772, 0x1773); (0x17B4, 0x17B5); (0x17B7,
    0x17BD); (0x17C6, 0x17C6); (0x17C9, 0x17D3); (0x17D7, 0x17D7); (0x17DD,
    0x17DD); (0x180B, 0x180F); (0x1843, 0x1843); (0x1885, 0x1886); (0x18A9,
    0x18A9); (0x1920, 0x1922); (0x1927, 0x1928); (0x1932, 0x1932); (0x1939,
    0x193B); (0x1A17, 0x1A18); (0x1A1B, 0x1A1B); (0x1A56, 0x1A56); (0x1A58,
    0x1A5E); (0x1A60, 0x1A60); (0x1A62, 0x1A62); (0x1A65, 0x1A6C); (0x1A73,
    0x1A7C); (0x1A7F, 0x1A7F); (0x1AA7, 0x1AA7); (0x1AB0, 0x1ACE); (0x1B00,
    0x1B03); (0x1B34, 0x1B34); (0x1B36, 0x1B3A); (0x1B3C, 0x1B3C); (0x1B42,
    0x1B42); (0x1B6B, 0x1B73); (0x1B80, 0x1B81); (0x1BA2, 0x1BA5); (0x1BA8,
    0x1BA9); (0x1BAB, 0x1BAD); (0x1BE6, 0x1BE6); (0x1BE8, 0x1BE9); (0x1BED,
    0x1BED); (0x1BEF, 0x1BF1); (0x1C2C, 0x1C33); (0x1C36, 0x1C37); (0x1C78,
    0x1C7D); (0x1CD0, 0x1CD2); (0x1CD4, 0x1CE0); (0x1CE2, 0x1CE8); (0x1CED,
    0x1CED); (0x1CF4, 0x1CF4); (0x1CF8, 0x1CF9); (0x1D2C, 0x1D6A); (0x1D78,
    0x1D78); (0x1D9B, 0x1DFF); (0x1FBD, 0x1FBD); (0x1FBF, 0x1FC1); (0x1FCD,
    0x1FCF); (0x1FDD, 0x1FDF); (0x1FED, 0x1FEF); (0x1FFD, 0x1FFE); (0x200B,
    0x200F); (0x2018, 0x2019); (0x2024, 0x2024); (0x2027, 0x2027); (0x202A,
    0x202E); (0x2060, 0x2064); (0x2066, 0x206F); (0x2071, 0x2071); (0x207F,
    0x207F); (0x2090, 0x209C); (0x20D0, 0x20F0); (0x2C7C, 0x2C7D); (0x2CEF,
    0x2CF1); (0x2D6F, 0x2D6F); (0x2D7F, 0x2D7F); (0x2DE0, 0x2DFF); (0x2E2F,
    0x2E2F); (0x3005, 0x3005); (0x302A, 0x302D); (0x3031, 0x3035); (0x303B,
    0x303B); (0x3099, 0x309E); (0x30FC, 0x30FE); (0xA015, 0xA015); (0xA4F8,
    0xA4FD); (0xA60C, 0xA60C); (0xA66F, 0xA672); (0xA674, 0xA67D); (0xA67F,
    0xA67F); (0xA69C, 0xA69F); (0xA6F0, 0xA6F1); (0xA700, 0xA721); (0xA770,
    0xA770); (0xA788, 0xA78A); (0xA7F2, 0xA7F4); (0xA7F8, 0xA7F9); (0xA802,
    0xA802); (0xA806, 0xA806); (0xA80B, 0xA80B); (0xA825, 0xA826); (0xA82C,
    0xA82C); (0xA8C4, 0xA8C5); (0xA8E0, 0xA8F1); (0xA8FF, 0xA8FF); (0xA926,
    0xA92D); (0xA947, 0xA951); (0xA980, 0xA982); (0xA9B3, 0xA9B3); (0xA9B6,
    0xA9B9); (0xA9BC, 0xA9BD); (0xA9CF, 0xA9CF); (0xA9E5, 0xA9E6); (0xAA29,
    0xAA2E); (0xAA31, 0xAA32); (0xAA35, 0xAA36); (0xAA43, 0xAA43); (0xAA4C,
    0xAA4C); (0xAA70, 0xAA70); (0xAA7C, 0xAA7C); (0xAAB0, 0xAAB0); (0xAAB2,
    0xAAB4); (0xAAB7, 0xAAB8); (0xAABE, 0xAABF); (0xAAC1, 0xAAC1); (0xAADD,
    0xAADD); (0xAAEC, 0xAAED); (0xAAF3, 0xAAF4); (0xAAF6, 0xAAF6); (0xAB5B,
    0xAB5F); (0xAB69, 0xAB6B); (0xABE5, 0xABE5); (0xABE8, 0xABE8); (0xABED,
    0xABED); (0xFB1E, 0xFB1E); (0xFBB2, 0xFBC2); (0xFE00, 0xFE0F); (0xFE13,
    0xFE13); (0xFE20, 0xFE2F); (0xFE52, 0xFE52); (0xFE55, 0xFE55); (0xFEFF,
    0xFEFF); (0xFF07, 0xFF07); (0xFF0E, 0xFF0E); (0xFF1A, 0xFF1A); (0xFF3E,
    0xFF3E); (0xFF40, 0xFF40); (0xFF70, 0xFF70); (0xFF9E, 0xFF9F); (0xFFE3,
    0xFFE3); (0xFFF9, 0xFFFB); (0x101FD, 0x101FD); (0x102E0, 0x102E0);
    (0x10376, 0x1037A); (0x10780, 0x10785); (0x10787, 0x107B0); (0x107B2,
    0x107BA); (0x10A01, 0x10A03); (0x10A05, 0x10A06); (0x10A0C, 0x10A0F);
    (0x10A38, 0x10A3A); (0x10A3F, 0x10A3F); (0x10AE5, 0x10AE6); (0x10D24,
    0x10D27); (0x10EAB, 0x10EAC); (0x10F46, 0x10F50); (0x10F82, 0x10F85);
    (0x11001, 0x11001); (0x11038, 0x11046); (0x11070, 0x11070); (0x11073,
    0x11074); (0x1107F, 0x11081); (0x110B3, 0x110B6); (0x110B9, 0x110BA);
    (0x110BD, 0x110BD); (0x110C2, 0x110C2); (0x110CD, 0x110CD); (0x11100,
    0x11102); (0x11127, 0x1112B); (0x1112D, 0x11134); (0x11173, 0x11173);
    (0x11180, 0x11181); (0x111B6, 0x111BE); (0x111C9, 0x111CC); (0x111CF,
    0x111CF); (0x1122F, 0x11231); (0x11234, 0x11234); (0x11236, 0x11237);
    (0x1123E, 0x1123E); (0x112DF, 0x112DF); (0x112E3, 0x112EA); (0x11300,
    0x11301); (0x1133B, 0x1133C); (0x11340, 0x11340); (0x11366, 0x1136C);
    (0x11370, 0x11374); (0x11438, 0x1143F); (0x11442, 0x11444); (0x11446,
    0x11446); (0x1145E, 0x1145E); (0x114B3, 0x114B8); (0x114BA, 0x114BA);
    (0x114BF, 0x114C0); (0x114C2, 0x114C3); (0x115B2, 0x115B5); (0x115BC,
    0x115BD); (0x115BF, 0x115C0); (0x115DC, 0x115DD); (0x11633, 0x1163A);
    (0x1163D, 0x1163D); (0x1163F, 0x11640); (0x116AB, 0x116AB); (0x116AD,
    0x116AD); (0x116B0, 0x116B5); (0x116B7, 0x116B7); (0x1171D, 0x1171F);
    (0x11722, 0x11725); (0x11727, 0x1172B); (0x1182F, 0x11837); (0x11839,
    0x1183A); (0x1193B, 0x1193C); (0x1193E, 0x1193E); (0x11943, 0x11943);
    (0x119D4, 0x119D7); (0x119DA, 0x119DB); (0x119E0, 0x119E0); (0x11A01,
    0x11A0A); (0x11A33, 0x11A38); (0x11A3B, 0x11A3E); (0x11A47, 0x11A47);
    (0x11A51, 0x11A56); (0x11A59, 0x11A5B); (0x11A8A, 0x11A96); (0x11A98,
    0x11A99); (0x11C30, 0x11C36); (0x11C38, 0x11C3D); (0x11C3F, 0x11C3F);
    (0x11C92, 0x11CA7); (0x11CAA, 0x11CB0); (0x11CB2, 0x11CB3); (0x11CB5,
    0x11CB6); (0x11D31, 0x11D36); (0x11D3A, 0x11D3A); (0x11D3C, 0x11D3D);
    (0x11D3F, 0x11D45); (0x11D47, 0x11D47); (0x11D90, 0x11D91); (0x11D95,
    0x11D95); (0x11D97, 0x11D97); (0x11EF3, 0x11EF4); (0x13430, 0x13438);
    (0x16AF0, 0x16AF4); (0x16B30, 0x16B36); (0x16B40, 0x16B43); (0x16F4F,
    0x16F4F); (0x16F8F, 0x16F9F); (0x16FE0, 0x16FE1); (0x16FE3, 0x16FE4);
    (0x1AFF0, 0x1AFF3); (0x1AFF5, 0x1AFFB); (0x1AFFD, 0x1AFFE); (0x1BC9D,
    0x1BC9E); (0x1BCA0, 0x1BCA3); (0x1CF00, 0x1CF2D); (0x1CF30, 0x1CF46);
    (0x1D167, 0x1D169); (0x1D173, 0x1D182); (0x1D185, 0x1D18B); (0x1D1AA,
    0x1D1AD); (0x1D242, 0x1D244); (0x1DA00, 0x1DA36); (0x1DA3B, 0x1DA6C);
    (0x1DA75, 0x1DA75); (0x1DA84, 0x1DA84); (0x1DA9B, 0x1DA9F); (0x1DAA1,
    0x1DAAF); (0x1E000, 0x1E006); (0x1E008, 0x1E018); (0x1E01B, 0x1E021);
    (0x1E023, 0x1E024); (0x1E026, 0x1E02A); (0x1E130, 0x1E13D); (0x1E2AE,
    0x1E2AE); (0x1E2EC, 0x1E2EF); (0x1E8D0, 0x1E8D6); (0x1E944, 0x1E94B);
    (0x1F3FB, 0x1F3FF); (0xE0001, 0xE0001); (0xE0020, 0xE007F); (0xE0100,
    0xE01EF) ]%N.

(** The code points with the property Cased (Unicode 14.0). *)
Definition casedRanges : list (N * N) :=
  [ (0x41, 0x5A); (0x61, 0x7A); (0xAA, 0xAA); (0xB5, 0xB5); (0xBA, 0xBA);
    (0xC0, 0xD6); (0xD8, 0xF6); (0xF8, 0x1BA); (0x1BC, 0x1BF); (0x1C4, 0x293);
    (0x295, 0x2B8); (0x2C0, 0x2C1); (0x2E0, 0x2E4); (0x345, 0x345); (0x370,
    0x373); (0x376, 0x377); (0x37A, 0x37D); (0x37F, 0x37F); (0x386, 0x386);
    (0x388, 0x38A); (0x38C, 0x38C); (0x38E, 0x3A1); (0x3A3, 0x3F5); (0x3F7,
    0x481); (0x48A, 0x52F); (0x531, 0x556); (0x560, 0x588); (0x10A0, 0x10C5);
    (0x10C7, 0x10C7); (0x10CD, 0x10CD); (0x10D0, 0x10FA); (0x10FD, 0x10FF);
    (0x13A0, 0x13F5); (0x13F8, 0x13FD); (0x1C80, 0x1C88); (0x1C90, 0x1CBA);
    (0x1CBD, 0x1CBF); (0x1D00, 0x1DBF); (0x1E00, 0x1F15); (0x1F18, 0x1F1D);
    (0x1F20, 0x1F45); (0x1F48, 0x1F4D); (0x1F50, 0x1F57); (0x1F59, 0x1F59);
    (0x1F5B, 0x1F5B); (0x1F5D, 0x1F5D); (0x1F5F, 0x1F7D); (0x1F80, 0x1FB4);
    (0x1FB6, 0x1FBC); (0x1FBE, 0x1FBE); (0x1FC2, 0x1FC4); (0x1FC6, 0x1FCC);
    (0x1FD0, 0x1FD3); (0x1FD6, 0x1FDB); (0x1FE0, 0x1FEC); (0x1FF2, 0x1FF4);
    (0x1FF6, 0x1FFC); (0x2071, 0x2071); (0x207F, 0x207F); (0x2090, 0x209C);
    (0x2102, 0x2102); (0x2107, 0x2107); (0x210A, 0x2113); (0x2115, 0x2115);
    (0x2119, 0x211D); (0x2124, 0x2124); (0x2126, 0x2126); (0x2128, 0x2128);
    (0x212A, 0x212D); (0x212F, 0x2134); (0x2139, 0x2139); (0x213C, 0x213F);
    (0x2145, 0x2149); (0x214E, 0x214E); (0x2160, 0x217F); (0x2183, 0x2184);
    (0x24B6, 0x24E9); (0x2C00, 0x2CE4); (0x2CEB, 0x2CEE); (0x2CF2, 0x2CF3);
    (0x2D00, 0x2D25); (0x2D27, 0x2D27); (0x2D2D, 0x2D2D); (0xA640, 0xA66D);
    (0xA680, 0xA69D); (0xA722, 0xA787); (0xA78B, 0xA78E); (0xA790, 0xA7CA);
    (0xA7D0, 0xA7D1); (0xA7D3, 0xA7D3); (0xA7D5, 0xA7D9); (0xA7F5, 0xA7F6);
    (0xA7F8, 0xA7FA); (0xAB30, 0xAB5A); (0xAB5C, 0xAB68); (0xAB70, 0xABBF);
    (0xFB00, 0xFB06); (0xFB13, 0xFB17); (0xFF21, 0xFF3A); (0xFF41, 0xFF5A);
    (0x10400, 0x1044F); (0x104B0, 0x104D3); (0x104D8, 0x104FB); (0x10570,
    0x1057A); (0x1057C, 0x1058A); (0x1058C, 0x10592); (0x10594, 0x10595);
    (0x10597, 0x105A1); (0x105A3, 0x105B1); (0x105B3, 0x105B9); (0x105BB,
    0x105BC); (0x10780, 0x10780); (0x10783, 0x10785); (0x10787, 0x107B0);
    (0x107B2, 0x107BA); (0x10C80, 0x10CB2); (0x10CC0, 0x10CF2); (0x118A0,
    0x118DF); (0x16E40, 0x16E7F); (0x1D400, 0x1D454); (0x1D456, 0x1D49C);
    (0x1D49E, 0x1D49F); (0x1D4A2, 0x1D4A2); (0x1D4A5, 0x1D4A6); (0x1D4A9,
    0x1D4AC); (0x1D4AE, 0x1D4B9); (0x1D4BB, 0x1D4BB); (0x1D4BD, 0x1D4C3);
    (0x1D4C5, 0x1D505); (0x1D507, 0x1D50A); (0x1D50D, 0x1D514); (0x1D516,
    0x1D51C); (0x1D51E, 0x1D539); (0x1D53B, 0x1D53E); (0x1D540, 0x1D544);
    (0x1D546, 0x1D546); (0x1D54A, 0x1D550); (0x1D552, 0x1D6A5); (0x1D6A8,
    0x1D6C0); (0x1D6C2, 0x1D6DA); (0x1D6DC, 0x1D6FA); (0x1D6FC, 0x1D714);
    (0x1D716, 0x1D734); (0x1D736, 0x1D74E); (0x1D750, 0x1D76E); (0x1D770,
    0x1D788); (0x1D78A, 0x1D7A8); (0x1D7AA, 0x1D7C2); (0x1D7C4, 0x1D7CB);
    (0x1DF00, 0x1DF09); (0x1DF0B, 0x1DF1E); (0x1E900, 0x1E943); (0x1F130,
    0x1F149); (0x1F150, 0x1F169); (0x1F170, 0x1F189) ]%N.

Definition inRanges (cp : N) (ranges : list (N * N)) : bool :=
  existsb (fun r => (fst r <=? cp) && (cp <=? snd r))%N ranges.

Definition caseIgnorable (cp : N) : bool := inRanges cp caseIgnorableRanges.

Definition cased (cp : N) : bool := inRanges cp casedRanges.

(** The lower case of one code point, out of context: U+0130 gives two
    code points, any other its simple mapping, or itself when it has
    none. *)
Definition lowerCase (cp : N) : list N :=
  if (cp =? 0x130)%N then [0x69; 0x307]%N
  else
    match find (fun r => let '(first, last, step, _) := r in
                         (first <=? cp) && (cp <=? last)
                         && ((cp - first) mod step =? 0))%N
               lowerCaseRuns with
    | Some (first, _, _, lower) => [(lower + (cp - first))%N]
    | None => [cp]
    end.

(** Is a cased letter next, after any case-ignorable code points? *)
Fixpoint casedNext (l : list N) : bool :=
  match l with
  | [] => false
  | cp :: l' => if caseIgnorable cp then casedNext l' else cased cp
  end.

(** The lower case of a text. [afterCased] tells whether a cased letter,
    followed by case-ignorable code points only, comes before: a capital
    sigma there, with no cased letter next, is a final sigma. *)
Fixpoint lowerCaseAll (afterCased : bool) (l : list N) : list N :=
  match l with
  | [] => []
  | cp :: l' =>
      (if (cp =? 0x3A3)%N
       then (if afterCased && negb (casedNext l') then [0x3C2] else [0x3C3])%N
       else lowerCase cp)
      ++ lowerCaseAll (if caseIgnorable cp then afterCased else cased cp) l'
  end.

(** [String.prototype.toLowerCase]. *)
Definition toLowerCase (s : string) : string :=
  fromCodePoints (lowerCaseAll false (codePoints s)).

(** [s.includes(searchString)]: [searchString] occurs in [s] at some
    position. *)
Fixpoint includes (s searchString : string) : bool :=
  if String.prefix searchString s then true
  else match s with
       | EmptyString => false
       | String _ s' => includes s' searchString
       end.

(** A string is falsy exactly when it is empty. *)
Definition truthy (s : string) : bool :=
  match s with EmptyString => false | String _ _ => true end.

(** [filteredStations] (home.tsx lines 61-65), as a function of the
    [stations] and [filterTerm] state it is memoised on. *)
Definition filteredStations (stations : list Station) (filterTerm : string)
  : list Station :=
  if negb (truthy (trim filterTerm)) then stations
  else
    let lowercasedFilter := toLowerCase filterTerm in
    filter (fun s => includes (toLowerCase (name s)) lowercasedFilter)
           stations.

(** A string of white space only (the empty string included). *)
Definition blank (s : string) : bool :=
  forallb isWhiteSpace (codePoints s).

(** [term] occurs in [n] when case is ignored. *)
Definition contains_ignoring_case (n term : string) : Prop :=
  exists before after : string,
    toLowerCase n = (before ++ toLowerCase term ++ after)%string.

(** Texts beyond ASCII for the worked examples: a no-break space, and
    "Energie" with an acute accent on its first letter, capital and
    small. *)
Definition nbsp : string := fromCodePoints [0xA0]%N.

Definition Energie : string :=
  fromCodePoints [0xC9; 0x6E; 0x65; 0x72; 0x67; 0x69; 0x65]%N.

Definition energie : string :=
  fromCodePoints [0xE9; 0x6E; 0x65; 0x72; 0x67; 0x69; 0x65]%N.

Definition station_e : Station :=
  {| id := 5; name := Energie; st_latitude := 6.5; st_longitude := 3.5;
     address := None; price := None; fuel_type := None |}.

(** ** Exceptions *)

(** The exceptions the handlers see: a [TypeError] of the runtime (reading
    a property of [undefined]) or an [Error] object, each with its
    [message]. *)
Inductive JSError :=
| TypeError (message : string)
| Error (message : string).

Definition message (e : JSError) : string :=
  match e with TypeError m | Error m => m end.

(** How a block ends: normally with a value, or by a [throw]. *)
Inductive completion (A : Type) :=
| Normal (a : A)
| Throw (e : JSError).

Arguments Normal {A} a.
Arguments Throw {A} e.

(** ** Route bounds *)

(** A GeoJSON position [[lon, lat]]: [c[0]] is the first component and
    [c[1]] the second. *)
Definition Position := (float * float)%type.

(** The four extrema of home.tsx lines 224-230. *)
Record Bounds := {
  minLon : float;
  maxLon : float;
  minLat : float;
  maxLat : float
}.

(** The body of the [forEach] of [handleFindTrip]: four independent
    comparisons; [c[0] > maxLon] is [maxLon < c[0]]. *)
Definition scan (b : Bounds) (c : Position) : Bounds :=
  {| minLon := if (fst c <? minLon b)%float then fst c else minLon b;
     maxLon := if (maxLon b <? fst c)%float then fst c else maxLon b;
     minLat := if (snd c <? minLat b)%float then snd c else minLat b;
     maxLat := if (maxLat b <? snd c)%float then snd c else maxLat b |}.

(** Reading [coords[0][0]] of an empty array throws. *)
Definition undefined_0 : JSError :=
  TypeError "Cannot read property '0' of undefined".

(** The bounds computation of [handleFindTrip] (home.tsx lines 223-230):
    the extrema start at the first coordinate and the [forEach] visits every
    coordinate, the first included. *)
Definition routeBounds (coords : list Position) : completion Bounds :=
  match coords with
  | [] => Throw undefined_0
  | c0 :: _ =>
      Normal (fold_left scan coords
                {| minLon := fst c0; maxLon := fst c0;
                   minLat := snd c0; maxLat := snd c0 |})
  end.

(** [Math.max] and [Math.min] on two numbers: [NaN] when an argument is
    [NaN], and [+0] counts as larger than [-0]. *)
Definition Math_max (a b : float) : float :=
  if is_nan a || is_nan b then nan
  else
    match classify a, classify b with
    | NZero, PZero => b
    | _, _ => if (a <? b)%float then b else a
    end.

Definition Math_min (a b : float) : float :=
  if is_nan a || is_nan b then nan
  else
    match classify a, classify b with
    | PZero, NZero => b
    | _, _ => if (b <? a)%float then b else a
    end.

(** The accumulator [{ ne, sw }] of [fetchRoute] (addStation.tsx). *)
Record Corners := {
  ne : Position;
  sw : Position
}.

(** The reducer of addStation.tsx lines 557-562. *)
Definition widen (acc : Corners) (coord : Position) : Corners :=
  {| ne := (Math_max (fst (ne acc)) (fst coord),
            Math_max (snd (ne acc)) (snd coord));
     sw := (Math_min (fst (sw acc)) (fst coord),
            Math_min (snd (sw acc)) (snd coord)) |}.

(** The bounds computation of [fetchRoute]: a [reduce] whose initial
    value reads [coordinates[0]], which throws on an empty array. *)
Definition routeCorners (coordinates : list Position) : completion Corners :=
  match coordinates with
  | [] => Throw undefined_0
  | c0 :: _ =>
      Normal (fold_left widen coordinates
                {| ne := (fst c0, snd c0); sw := (fst c0, snd c0) |})
  end.

(** A coordinate is finite when both its components are. *)
Definition finite_position (c : Position) : Prop :=
  is_finite (fst c) = true /\ is_finite (snd c) = true.

(** The route of the worked example, [[0,0],[2,3],[-1,5]]. *)
Definition example_route : list Position :=
  [(0, 0); (2, 3); (-1, 5)]%float.

(** ** The order of binary64 values

    The comparison of two numbers that are not [NaN] is the lexicographic
    comparison of these triples: the sign class, then the exponent, then the
    mantissa (both negated for negative numbers). *)
Definition order_key (x : spec_float) : Z * Z * Z :=
  match x with
  | S754_zero _ => (0, 0, 0)
  | S754_nan => (0, 0, 0)
  | S754_infinity false => (2, 0, 0)
  | S754_infinity true => (-2, 0, 0)
  | S754_finite false m e => (1, e, Zpos m)
  | S754_finite true m e => (-1, - e, Zneg m)
  end.

Definition lex_compare (a b : Z * Z * Z) : comparison :=
  let '(a1, a2, a3) := a in
  let '(b1, b2, b3) := b in
  match a1 ?= b1 with
  | Eq => match a2 ?= b2 with
          | Eq => a3 ?= b3
          | c => c
          end
  | c => c
  end.

(** A number proper: any value but [NaN]. *)
Definition number (x : float) : Prop := is_nan x = false.

(** [m] is the least (greatest) of the numbers [xs]: it is one of them and
    it is below (above) each of them. *)
Definition is_least (m : float) (xs : list float) : Prop :=
  In m xs /\ Forall (fun x => (m <=? x)%float = true) xs.

Definition is_greatest (m : float) (xs : list float) : Prop :=
  In m xs /\ Forall (fun x => (x <=? m)%float = true) xs.

(** The two updates of [scan], per axis. *)
Definition keep_min (m x : float) : float := if (x <? m)%float then x else m.
Definition keep_max (m x : float) : float := if (m <? x)%float then x else m.

(** ** The home screen: state, effects and handlers *)

(** A GeoJSON line ([routeGeometry]). *)
Record Geometry := {
  coordinates : list Position
}.

(** The value given to [setRoute]. *)
Record RouteOverlay := {
  geometry : Geometry;
  bounds : option Bounds
}.

(** The [useState] cells of [HomeScreen] that the handlers below read or
    write. *)
Record HomeState := {
  isLoading : bool;
  stations : list Station;
  currentRegion : option Region;
  isTripModeActive : bool;
  isTripLoading : bool;
  route : option RouteOverlay
}.

Definition setIsLoading (v : bool) (st : HomeState) : HomeState :=
  {| isLoading := v; stations := stations st;
     currentRegion := currentRegion st;
     isTripModeActive := isTripModeActive st;
     isTripLoading := isTripLoading st; route := route st |}.

(** [setStations] takes an updater, as in [setStations(prev => ...)];
    [setStations(v)] is the constant updater. *)
Definition setStations (f : list Station -> list Station) (st : HomeState)
  : HomeState :=
  {| isLoading := isLoading st; stations := f (stations st);
     currentRegion := currentRegion st;
     isTripModeActive := isTripModeActive st;
     isTripLoading := isTripLoading st; route := route st |}.

Definition setCurrentRegion (v : option Region) (st : HomeState) : HomeState :=
  {| isLoading := isLoading st; stations := stations st;
     currentRegion := v;
     isTripModeActive := isTripModeActive st;
     isTripLoading := isTripLoading st; route := route st |}.

Definition setTripModeActive (v : bool) (st : HomeState) : HomeState :=
  {| isLoading := isLoading st; stations := stations st;
     currentRegion := currentRegion st;
     isTripModeActive := v;
     isTripLoading := isTripLoading st; route := route st |}.

Definition setIsTripLoading (v : bool) (st : HomeState) : HomeState :=
  {| isLoading := isLoading st; stations := stations st;
     currentRegion := currentRegion st;
     isTripModeActive := isTripModeActive st;
     isTripLoading := v; route := route st |}.

Definition setRoute (v : option RouteOverlay) (st : HomeState) : HomeState :=
  {| isLoading := isLoading st; stations := stations st;
     currentRegion := currentRegion st;
     isTripModeActive := isTripModeActive st;
     isTripLoading := isTripLoading st; route := v |}.

(** What a handler asks of its collaborators, in the order it asks. A call
    of [debouncedFetch] or [debouncedUpdateLocationName] hands the region to
    the debounced wrapper made by [useDebouncedCallback]; the backend is
    reached by [invoke_get_google_stations] only. Camera calls are listed as
    they are made on a mounted camera. *)
Inductive Effect :=
| Keyboard_dismiss
| Alert_alert (title text : string)
| console_error (label text : string)
| setCamera (centerCoordinate : Position) (zoomLevel animationDuration : Z)
| fitBounds (southWest northEast : Position) (padding : list Z)
            (animationDuration : Z)
| debouncedFetch (region : Region)
| debouncedUpdateLocationName (region : Region)
| invoke_get_google_stations (lat lon : float)
| invoke_get_place_details (placeId : string)
| Location_getCurrentPositionAsync
| fetch_osrm_route (startLon startLat destLng destLat : float).

(** The waits given to [useDebouncedCallback] (home.tsx lines 114-115), in
    milliseconds. *)
Definition debouncedFetch_wait : Z := 400.
Definition debouncedUpdateLocationName_wait : Z := 500.

(** A handler: from the state to how it ends, the state it leaves and the
    effects it caused. *)
Definition Handler (A : Type) : Type :=
  HomeState -> completion A * HomeState * list Effect.

Definition ret {A} (a : A) : Handler A := fun st => (Normal a, st, []).

Definition bind {A B} (m : Handler A) (k : A -> Handler B) : Handler B :=
  fun st =>
    let '(r, st1, e1) := m st in
    match r with
    | Normal a => let '(r2, st2, e2) := k a st1 in (r2, st2, e1 ++ e2)
    | Throw e => (Throw e, st1, e1)
    end.

Definition throw {A} (e : JSError) : Handler A := fun st => (Throw e, st, []).

Definition emit (eff : Effect) : Handler unit :=
  fun st => (Normal tt, st, [eff]).

Definition modify (f : HomeState -> HomeState) : Handler unit :=
  fun st => (Normal tt, f st, []).

(** The state as the handler's closure sees it. *)
Definition read : Handler HomeState := fun st => (Normal st, st, []).

(** [try { body } catch (err) { handler err }]. *)
Definition try_catch {A} (body : Handler A) (handler : JSError -> Handler A)
  : Handler A :=
  fun st =>
    let '(r, st1, e1) := body st in
    match r with
    | Normal a => (Normal a, st1, e1)
    | Throw e => let '(r2, st2, e2) := handler e st1 in (r2, st2, e1 ++ e2)
    end.

(** [try { body } finally { cleanup }]. *)
Definition finally {A} (body : Handler A) (cleanup : Handler unit)
  : Handler A :=
  fun st =>
    let '(r, st1, e1) := body st in
    let '(r2, st2, e2) := cleanup st1 in
    (match r2 with Normal _ => r | Throw e => Throw e end, st2, e1 ++ e2).

Definition of_completion {A} (c : completion A) : Handler A :=
  match c with Normal a => ret a | Throw e => throw e end.

Declare Scope handler_scope.
Delimit Scope handler_scope with handler.
Notation "x <- m ;; k" := (bind m (fun x => k))
  (at level 61, m at next level, right associativity) : handler_scope.
Notation "m ;; k" := (bind m (fun _ => k))
  (at level 61, right associativity) : handler_scope.

(** How an awaited promise settles. *)
Inductive settled (A : Type) :=
| Fulfilled (a : A)
| Rejected (reason : JSError).

Arguments Fulfilled {A} a.
Arguments Rejected {A} reason.

Definition await {A} (p : settled A) : Handler A :=
  match p with Fulfilled a => ret a | Rejected e => throw e end.

(** The [{ data, error }] of [supabase.functions.invoke]. *)
Inductive InvokeResult (A : Type) :=
| Data (data : A)
| Failed (error : JSError).

Arguments Data {A} data.
Arguments Failed {A} error.

(** [if (error) throw error;] and then the use of [data]. *)
Definition data_or_throw {A} (r : InvokeResult A) : Handler A :=
  match r with Data d => ret d | Failed e => throw e end.

Section Handlers.
Local Open Scope handler_scope.
Local Open Scope string_scope.

(** *** [fetchStationsForRegion] (home.tsx lines 89-102)

    The function runs up to its [await] when it is called and resumes
    when the backend call settles; other handlers may run in between, and
    the updater given to [setStations] sees the stations of the moment it
    resumes. *)

(** Up to the [await]: the loading flag and the backend call. *)
Definition fetchStationsForRegion_request (region : Region) : Handler unit :=
  modify (setIsLoading true) ;;
  emit (invoke_get_google_stations (latitude region) (longitude region)).

(** From the [await] on: the rest of the [try], the [catch] and the
    [finally]. *)
Definition fetchStationsForRegion_settle
    (response : settled (InvokeResult (list Station))) : Handler unit :=
  finally
    (try_catch
       (r <- await response ;;
        data <- data_or_throw r ;;
        modify (setStations (fun prevStations =>
                               mergeStations prevStations data)))
       (fun err => emit (console_error "Error fetching stations:"
                                       (message err))))
    (modify (setIsLoading false)).

(** A whole run, with nothing in between; [region] is [None] for a falsy
    argument. *)
Definition fetchStationsForRegion
    (response : settled (InvokeResult (list Station)))
    (region : option Region) : Handler unit :=
  match region with
  | None => ret tt
  | Some region =>
      fetchStationsForRegion_request region ;;
      fetchStationsForRegion_settle response
  end.

(** The two ways the backend call fails: the promise rejects (network),
    or it fulfils with an [error] (backend). *)
Definition failure (rejects : bool) (err : JSError)
  : settled (InvokeResult (list Station)) :=
  if rejects then Rejected err else Fulfilled (Failed err).

(** *** [onRegionDidChange] (home.tsx lines 169-184) *)

Definition onRegionDidChange (coordinates : Position) : Handler unit :=
  let '(longitude, latitude) := coordinates in
  let region :=
    {| latitude := latitude; longitude := longitude;
       latitudeDelta := 0x1.999999999999ap-5;    (* 0.05 *)
       longitudeDelta := 0x1.999999999999ap-5 |} in
  st <- read ;;
  modify (setCurrentRegion (Some region)) ;;
  emit (debouncedFetch region) ;;
  if negb (isTripModeActive st) then emit (debouncedUpdateLocationName region)
  else ret tt.

(** *** [handleFindTrip] (home.tsx lines 186-241) *)

(** [location.coords]. *)
Record LocationCoords := {
  coords_latitude : float;
  coords_longitude : float
}.

(** [placeData.result.geometry.location]. *)
Record PlaceLocation := {
  lat : float;
  lng : float
}.

Record OsrmLeg := {
  summary : option string
}.

Record OsrmRoute := {
  route_geometry : Geometry;
  legs : list OsrmLeg;
  distance : float;
  duration : float
}.

(** The JSON of the routing service. *)
Record OsrmResponse := {
  code : string;
  routes : list OsrmRoute
}.

(** [a[0]] followed by a property read: a [TypeError] on an empty
    array. *)
Definition first_or_throw {A} (property : string) (a : list A) : Handler A :=
  match a with
  | x :: _ => ret x
  | [] => throw (TypeError ("Cannot read property '" ++ property
                            ++ "' of undefined"))
  end.

(** One run of the handler, given how its three awaited calls settle. *)
Definition handleFindTrip
    (location : settled LocationCoords)
    (place : settled (InvokeResult PlaceLocation))
    (osrm : settled OsrmResponse)
    (destinationPlaceId : string) : Handler unit :=
  emit Keyboard_dismiss ;;
  modify (setIsTripLoading true) ;;
  finally
    (try_catch
       (emit Location_getCurrentPositionAsync ;;
        coords <- await location ;;
        let startLat := coords_latitude coords in
        let startLon := coords_longitude coords in
        emit (invoke_get_place_details destinationPlaceId) ;;
        r <- await place ;;
        placeData <- data_or_throw r ;;
        let destLat := lat placeData in
        let destLng := lng placeData in
        emit (fetch_osrm_route startLon startLat destLng destLat) ;;
        json <- await osrm ;;
        (if String.eqb (code json) "Ok" then ret tt
         else throw (Error "Failed to find route")) ;;
        route0 <- first_or_throw "geometry" (routes json) ;;
        let routeGeometry := route_geometry route0 in
        _ <- first_or_throw "summary" (legs route0) ;;
        modify (setStations (fun _ => [])) ;;
        modify (setRoute (Some {| geometry := routeGeometry;
                                  bounds := None |})) ;;
        modify (setTripModeActive true) ;;
        b <- of_completion (routeBounds (coordinates routeGeometry)) ;;
        emit (fitBounds (minLon b, minLat b) (maxLon b, maxLat b)
                        [50; 50; 150; 50]%Z 1000))
       (fun err => emit (Alert_alert "Error Finding Route" (message err))))
    (modify (setIsTripLoading false)).

(** *** [cancelTripMode] (home.tsx lines 243-253) *)

Definition cancelTripMode : Handler unit :=
  st <- read ;;
  modify (setTripModeActive false) ;;
  modify (setRoute None) ;;
  match currentRegion st with
  | Some currentRegion =>
      emit (setCamera (longitude currentRegion, latitude currentRegion)
                      14 500) ;;
      emit (debouncedFetch currentRegion)
  | None => ret tt
  end.

End Handlers.

(** The cells after a station fetch that the backend answers with [data]
    has resumed in [st]. *)
Definition afterFetch (data : list Station) (st : HomeState) : HomeState :=
  snd (fst (fetchStationsForRegion_settle (Fulfilled (Data data)) st)).

(** A screen that knows the two stations of the worked examples. *)
Definition two_stations : HomeState :=
  {| isLoading := true; stations := [station_a; station_b];
     currentRegion := Some {| latitude := 6.5; longitude := 3.375;
                              latitudeDelta := 0.125;
                              longitudeDelta := 0.125 |};
     isTripModeActive := false; isTripLoading := false; route := None |}.

(** Whether a handler reached the station backend itself. *)
Definition is_station_fetch (eff : Effect) : bool :=
  match eff with
  | invoke_get_google_stations _ _ => true
  | _ => false
  end.

(** A state in trip mode, for the worked examples: no stations, Lagos as
    the last known region. *)
Definition lagos : Region :=
  {| latitude := 6.5; longitude := 3.375;
     latitudeDelta := 0.125; longitudeDelta := 0.125 |}.

Definition on_trip : HomeState :=
  {| isLoading := false; stations := [];
     currentRegion := Some lagos; isTripModeActive := true;
     isTripLoading := false;
     route := Some {| geometry := {| coordinates := example_route |};
                      bounds := None |} |}.

(** A successful answer of the routing service with one route of one leg
    along [g]. *)
Definition osrm_ok (g : Geometry) : OsrmResponse :=
  {| code := "Ok";
     routes := [ {| route_geometry := g; legs := [ {| summary := None |} ];
                    distance := 12345; duration := 125 |} ] |}.

(** ** Numbers as text

    [Number.prototype.toFixed], [Math.round] and the conversion of a number
    to a string are defined by ECMAScript on the exact value of the number;
    a finite binary64 value is [m * 2^e], read off [Prim2SF]. *)

(** The exact value as a fraction with a positive denominator. *)
Definition fraction (s : bool) (m : positive) (e : Z) : Z * Z :=
  let n := if s then Zneg m else Zpos m in
  if 0 <=? e then (n * 2 ^ e, 1) else (n, 2 ^ (- e)).

Definition value_of (x : float) : option (Z * Z) :=
  match Prim2SF x with
  | S754_zero _ => Some (0, 1)
  | S754_finite s m e => Some (fraction s m e)
  | _ => None
  end.

(** [n - 1/2 <= num/den < n + 1/2]: [n] is the integer nearest to
    [num/den], the larger one on a tie. *)
Definition nearest_integer (n num den : Z) : Prop :=
  0 < den /\ 2 * n * den <= 2 * num + den < 2 * (n + 1) * den.

Definition round_half_up (num den : Z) : Z := (2 * num + den) / (2 * den).

(** The decimal digits of a natural number. *)
Definition decimal (n : Z) : string :=
  NilZero.string_of_uint (N.to_uint (Z.to_N n)).

Definition digit (r : Z) : ascii := ascii_of_N (48 + Z.to_N r).

Fixpoint zeros (n : nat) : string :=
  match n with
  | O => EmptyString
  | S n' => String "0" (zeros n')
  end.

(** [n] tenths written with one decimal: the digits of [n], padded to two,
    with the point before the last. *)
Definition fixed1 (n : Z) : string :=
  (decimal (n / 10) ++ String "." (String (digit (n mod 10)) ""))%string.

(** The Number for an integer, rounded to nearest, ties to even. *)
Definition Number_of_Z (n : Z) : float :=
  SF2Prim (binary_normalize prec emax n 0 false).

(** *** [Number::toString]

    The digits are the shortest decimal [s] of [k] digits with
    [s * 10^(n-k)] rounding to the number, the closest one when several
    fit. The values that round to [m * 2^e] lie between the midpoints to its
    neighbours, counted here in quarters of the unit [2^e]; the midpoints
    themselves round to it when [m] is even. *)
Definition interval_low (m : positive) (e : Z) : Z :=
  4 * Zpos m - (if (Zpos m =? 2 ^ 52) && (-1074 <? e) then 1 else 2).

Definition interval_high (m : positive) : Z := 4 * Zpos m + 2.

Definition ceil_div (a b : Z) : Z := - ((- a) / b).

Definition nearest_even (a b : Z) : Z :=
  let q := a / b in
  let r := a mod b in
  if 2 * r <? b then q
  else if b <? 2 * r then q + 1
  else if Z.even q then q else q + 1.

(** The [s] of [k] digits for the decimal exponent [n], if there is one. *)
Definition digits_for (m : positive) (e : Z) (k n : Z) : option Z :=
  let j := n - k in
  let A := 10 ^ (Z.max j 0) * 2 ^ (Z.max (2 - e) 0) in
  let B := 2 ^ (Z.max (e - 2) 0) * 10 ^ (Z.max (- j) 0) in
  let inclusive := Z.even (Zpos m) in
  let lo := interval_low m e * B in
  let hi := interval_high m * B in
  let s_min := Z.max (10 ^ (k - 1))
                 (if inclusive then ceil_div lo A else lo / A + 1) in
  let s_max := Z.min (10 ^ k - 1)
                 (if inclusive then hi / A else ceil_div hi A - 1) in
  if s_max <? s_min then None
  else Some (Z.max s_min (Z.min s_max (nearest_even (4 * Zpos m * B) A))).

(** [m * 2^e < 10^n]. *)
Definition below_pow10 (m : positive) (e n : Z) : bool :=
  Zpos m * 2 ^ (Z.max e 0) * 10 ^ (Z.max (- n) 0)
  <? 10 ^ (Z.max n 0) * 2 ^ (Z.max (- e) 0).

(** The least [n] from [n] on with [m * 2^e < 10^n]. *)
Fixpoint first_n (fuel : nat) (m : positive) (e n : Z) : Z :=
  match fuel with
  | O => n
  | S f => if below_pow10 m e n then n else first_n f m e (n + 1)
  end.

(** Below the decimal exponent: the binary exponent times 1233/4096, a
    little less than log10 2, minus one. *)
Definition first_guess (m : positive) (e : Z) : Z :=
  ((Zpos (digits2_pos m) + e - 1) * 1233) / 4096 - 1.

(** The search for the least [k], up to the seventeen digits that tell any
    two binary64 values apart. *)
Fixpoint search (fuel : nat) (m : positive) (e n0 k : Z) : Z * Z * Z :=
  match fuel with
  | O => (n0, k, 0)
  | S f =>
      match digits_for m e k n0 with
      | Some s => (n0, k, s)
      | None =>
          match digits_for m e k (n0 + 1) with
          | Some s => (n0 + 1, k, s)
          | None => search f m e n0 (k + 1)
          end
      end
  end.

Definition shortest (m : positive) (e : Z) : Z * Z * Z :=
  search 17 m e (first_n 8 m e (first_guess m e)) 1.

(** The layout of the digits: plain, with a point, or with an exponent
    from 1e21 on and below 1e-6. *)
Definition render (nks : Z * Z * Z) : string :=
  let '(n, k, s) := nks in
  let ds := decimal s in
  if (k <=? n) && (n <=? 21) then (ds ++ zeros (Z.to_nat (n - k)))%string
  else if (0 <? n) && (n <=? 21) then
    (substring 0 (Z.to_nat n) ds ++ "."
     ++ substring (Z.to_nat n) (Z.to_nat (k - n)) ds)%string
  else if (-6 <? n) && (n <=? 0) then
    ("0." ++ zeros (Z.to_nat (- n)) ++ ds)%string
  else
    let ex := n - 1 in
    let sgn := if ex <? 0 then "-"%string else "+"%string in
    if k =? 1 then (ds ++ "e" ++ sgn ++ decimal (Z.abs ex))%string
    else (substring 0 1 ds ++ "." ++ substring 1 (Z.to_nat (k - 1)) ds
          ++ "e" ++ sgn ++ decimal (Z.abs ex))%string.

Definition NumberToString (x : float) : string :=
  match Prim2SF x with
  | S754_nan => "NaN"
  | S754_zero _ => "0"
  | S754_infinity s => if s then "-Infinity" else "Infinity"
  | S754_finite s m e =>
      ((if s then "-" else "") ++ render (shortest m e))%string
  end.

(** [x.toFixed(1)]. *)
Definition toFixed1 (x : float) : string :=
  match Prim2SF x with
  | S754_nan => "NaN"
  | S754_infinity s => if s then "-Infinity" else "Infinity"
  | S754_zero _ => "0.0"
  | S754_finite s m e =>
      let sign := if s then "-"%string else ""%string in
      if (1e21 <=? abs x)%float then (sign ++ NumberToString (abs x))%string
      else
        let '(num, den) := fraction false m e in
        (sign ++ fixed1 (round_half_up (10 * num) den))%string
  end.

(** [Math.round(x)]: the integer nearest to [x], the larger one on a tie,
    with the sign of [x] on a zero result. *)
Definition Math_round (x : float) : float :=
  match Prim2SF x with
  | S754_finite s m e =>
      let '(num, den) := fraction s m e in
      let n := round_half_up num den in
      if n =? 0 then (if s then neg_zero else zero) else Number_of_Z n
  | _ => x
  end.

(** The two formatters of [fetchRoute] (addStation.tsx lines 552-553):
    [(route.distance / 1000).toFixed(1) + ' km'] and
    [Math.round(route.duration / 60) + ' min']. *)
Definition formatDistance (distance : float) : string :=
  (toFixed1 (distance / 1000) ++ " km")%string.

Definition formatDuration (duration : float) : string :=
  (NumberToString (Math_round (duration / 60)) ++ " min")%string.

(** 1e24, the binary64 value nearest to it. *)
Definition yotta : float := 0x1.a784379d99db4p+79.

(** *** Natural numbers below 2^53

    The mantissa and the exponent of the Number of a natural number: the
    number shifted to 53 bits. *)
Definition aligned (p : positive) : positive * Z :=
  shl_align p 0 (fexp prec emax (Zpos (digits2_pos p) + 0)).

(** [first_guess] for a natural number of [dp] bits, and the two bounds
    that make [first_n] find its decimal exponent within its eight steps. *)
Definition guess_of_digits (dp : Z) : Z := ((dp - 1) * 1233) / 4096 - 1.

Definition guess_ok (dp : Z) : bool :=
  (10 ^ (guess_of_digits dp - 1) <=? 2 ^ (dp - 1))
  && (2 ^ dp <=? 10 ^ (guess_of_digits dp + 7)).

(** ** Route bounds on any numbers *)

(** The values that are numbers proper: those that are not [NaN]. *)
Definition numbers (xs : list float) : list float :=
  filter (fun x => negb (is_nan x)) xs.

(** A route with a position whose longitude is [NaN], for the worked
    examples. *)
Definition broken_route : list Position :=
  [(0, 0); (nan, 1); (2, 3)]%float.

(** ** Handlers over any state

    The two other screens, and the rest of [HomeScreen], have cells and
    collaborators of their own. [Act.t] is [Handler] with the state and the
    calls left open; [Handler] is [Act.t] at [HomeState] and [Effect]. *)

Module Act.

Section WithState.
Context {S E : Type}.

Definition t (A : Type) : Type := S -> completion A * S * list E.

Definition ret {A} (a : A) : t A := fun st => (Normal a, st, []).

Definition bind {A B} (m : t A) (k : A -> t B) : t B :=
  fun st =>
    let '(r, st1, e1) := m st in
    match r with
    | Normal a => let '(r2, st2, e2) := k a st1 in (r2, st2, e1 ++ e2)
    | Throw e => (Throw e, st1, e1)
    end.

Definition throw {A} (e : JSError) : t A := fun st => (Throw e, st, []).

Definition emit (call : E) : t unit := fun st => (Normal tt, st, [call]).

Definition modify (f : S -> S) : t unit := fun st => (Normal tt, f st, []).

Definition read : t S := fun st => (Normal st, st, []).

(** [try { body } catch (err) { handler err }]. *)
Definition try_catch {A} (body : t A) (handler : JSError -> t A) : t A :=
  fun st =>
    let '(r, st1, e1) := body st in
    match r with
    | Normal a => (Normal a, st1, e1)
    | Throw e => let '(r2, st2, e2) := handler e st1 in (r2, st2, e1 ++ e2)
    end.

(** [try { body } finally { cleanup }]. *)
Definition finally {A} (body : t A) (cleanup : t unit) : t A :=
  fun st =>
    let '(r, st1, e1) := body st in
    let '(r2, st2, e2) := cleanup st1 in
    (match r2 with Normal _ => r | Throw e => Throw e end, st2, e1 ++ e2).

Definition of_completion {A} (c : completion A) : t A :=
  match c with Normal a => ret a | Throw e => throw e end.

Definition await {A} (p : settled A) : t A :=
  match p with Fulfilled a => ret a | Rejected e => throw e end.

(** [if (error) throw error;] and then the use of [data]. *)
Definition data_or_throw {A} (r : InvokeResult A) : t A :=
  match r with Data d => ret d | Failed e => throw e end.

(** The state a run leaves and the calls it made. *)
Definition state_after {A} (r : completion A * S * list E) : S := snd (fst r).
Definition calls_of {A} (r : completion A * S * list E) : list E := snd r.
Definition outcome {A} (r : completion A * S * list E) : completion A :=
  fst (fst r).

End WithState.

Arguments t : clear implicits.

End Act.

Declare Scope act_scope.
Delimit Scope act_scope with act.
Notation "x <- m ;; k" := (Act.bind m (fun x => k))
  (at level 61, m at next level, right associativity) : act_scope.
Notation "m ;; k" := (Act.bind m (fun _ => k))
  (at level 61, right associativity) : act_scope.

(** ** The collaborators of the three screens *)

(** What a button of an alert does when it is pressed. *)
Inductive Navigation :=
| router_push (href : string)
| router_back.

Record AlertButton := {
  text : string;
  style : option string;
  onPress : option Navigation
}.

(** The row given to [supabase.from('stations').insert] (addStation.tsx
    lines 283-290). *)
Record StationRow := {
  row_name : string;
  row_latitude : float;
  row_longitude : float;
  row_address : string;
  submitted_by : string;
  status : string
}.

(** The calls of the handlers below, in the order they are made. The calls
    that [Effect] already has are taken from it by [Core]. *)
Inductive Call :=
| Core (e : Effect)
| Alert_title (title : string)
| Alert_buttons (title message : string) (buttons : list AlertButton)
| Console_error (label : string) (error : JSError)
| Console_log (label : string) (error : JSError)
| Location_requestForegroundPermissionsAsync
| Location_getLastKnownPositionAsync
| Location_reverseGeocodeAsync (latitude longitude : float)
| Fetch (url : string)
| Camera_fitBounds (first second : Position) (padding animationDuration : Z)
| Camera_zoom (zoomLevel animationDuration : Z)
| stations_insert (row : StationRow)
| rpc_get_nearby_stations (lat long : float) (radius_meters : Z).

(** [Location.PermissionStatus]. *)
Inductive PermissionStatus := granted | denied | undetermined.

(** An address of [Location.reverseGeocodeAsync]; a field is [null] when
    the geocoder does not know it. *)
Module GeocodedAddress.
Record t := {
  street : option string;
  name : option string;
  city : option string;
  region : option string;
  country : option string;
  isoCountryCode : option string
}.
End GeocodedAddress.

(** ** constants/MapStyle.ts *)

Inductive Theme := light | dark.

Record MapStyles := {
  styles_light : string;
  styles_dark : string
}.

Definition MAPLIBRE_STYLES : MapStyles :=
  {| styles_light :=
       "https://tiles.openfreemap.org/styles/liberty/style.json";
     styles_dark :=
       "https://tiles.openfreemap.org/styles/liberty/style.json" |}.

(** [MAPLIBRE_STYLES[theme]]. *)
Definition getMapStyle (theme : Theme) : string :=
  match theme with
  | light => styles_light MAPLIBRE_STYLES
  | dark => styles_dark MAPLIBRE_STYLES
  end.

Definition createMapStyle {A : Type} : list A := [].

(** [theme === 'dark' ? MAPLIBRE_STYLES.dark : MAPLIBRE_STYLES.light], the
    [styleURL] of the three map views. *)
Definition styleURL_of (theme : Theme) : string :=
  match theme with
  | dark => styles_dark MAPLIBRE_STYLES
  | light => styles_light MAPLIBRE_STYLES
  end.

(** ** [HomeScreen]: the station features and the selection *)

(** The [properties] of a station's feature (home.tsx lines 78-83). *)
Record FeatureProperties := {
  prop_id : Z;
  prop_name : string;
  prop_price : option float;
  prop_fuel_type : option string
}.

(** A GeoJSON [Feature] with a [Point] geometry (home.tsx lines 71-84). *)
Record Feature := {
  feature_id : Z;
  point_coordinates : Position;
  properties : FeatureProperties
}.

Definition toFeature (station : Station) : Feature :=
  {| feature_id := id station;
     point_coordinates := (st_longitude station, st_latitude station);
     properties := {| prop_id := id station;
                      prop_name := name station;
                      prop_price := price station;
                      prop_fuel_type := fuel_type station |} |}.

(** The [features] of [stationsFeatureCollection] (home.tsx lines 68-86), as
    a function of the [filteredStations] it is memoised on. *)
Definition stationsFeatureCollection (filteredStations : list Station)
  : list Feature :=
  map toFeature filteredStations.

(** A feature of a press on [stationsSource]: one of the station features,
    or a cluster made by the map, whose properties have no [id]. *)
Inductive PressedFeature :=
| Unclustered (feature : Feature)
| Cluster (point_count : Z).

(** [feature.properties.id]. *)
Definition pressed_id (feature : PressedFeature) : option Z :=
  match feature with
  | Unclustered f => Some (prop_id (properties f))
  | Cluster _ => None
  end.

(** [locationInfo]. *)
Record LocationInfo := {
  city : option string;
  country : option string;
  countryCode : option string
}.

(** All the [useState] cells of [HomeScreen] that its handlers touch:
    those of [HomeState] and the three others. [searchKey] and [searchScope]
    are only handed to [SearchBar] with their setters. *)
Record HomeScreenState := {
  cells : HomeState;
  selectedStation : option Station;
  filterTerm : string;
  locationInfo : LocationInfo
}.

Definition onCells (f : HomeState -> HomeState) (st : HomeScreenState)
  : HomeScreenState :=
  {| cells := f (cells st); selectedStation := selectedStation st;
     filterTerm := filterTerm st; locationInfo := locationInfo st |}.

Definition setSelectedStation (v : option Station) (st : HomeScreenState)
  : HomeScreenState :=
  {| cells := cells st; selectedStation := v;
     filterTerm := filterTerm st; locationInfo := locationInfo st |}.

Definition setFilterTerm (v : string) (st : HomeScreenState)
  : HomeScreenState :=
  {| cells := cells st; selectedStation := selectedStation st;
     filterTerm := v; locationInfo := locationInfo st |}.

Definition setLocationInfo (v : LocationInfo) (st : HomeScreenState)
  : HomeScreenState :=
  {| cells := cells st; selectedStation := selectedStation st;
     filterTerm := filterTerm st; locationInfo := v |}.

(** The initial values of the [useState] calls (home.tsx lines 43-53). *)
Definition initialHomeScreen : HomeScreenState :=
  {| cells := {| isLoading := true; stations := []; currentRegion := None;
                 isTripModeActive := false; isTripLoading := false;
                 route := None |};
     selectedStation := None;
     filterTerm := "";
     locationInfo := {| city := None; country := None;
                        countryCode := None |} |}.

(** A screen with its map shown, two stations and a filter typed. *)
Definition browsing : HomeScreenState :=
  {| cells := two_stations;
     selectedStation := None;
     filterTerm := "TOTAL";
     locationInfo := {| city := None; country := None;
                        countryCode := None |} |}.

Definition Screen (A : Type) : Type := Act.t HomeScreenState Call A.

(** A handler on the cells of [HomeState], as a handler of the whole
    screen. *)
Definition lift {A} (h : Handler A) : Screen A :=
  fun st =>
    let '(r, c, effects) := h (cells st) in
    (r, onCells (fun _ => c) st, map Core effects).

(** The region the screen falls back to (home.tsx lines 124 and 133):
    latitude 6.5244, longitude 3.3792 and deltas of 0.1. *)
Definition defaultRegion : Region :=
  {| latitude := 0x1.a18fc504816f0p+2;
     longitude := 0x1.b089a02752546p+1;
     latitudeDelta := 0x1.999999999999ap-4;
     longitudeDelta := 0x1.999999999999ap-4 |}.

(** The region around a position (home.tsx line 127). *)
Definition regionAround (coords : LocationCoords) : Region :=
  {| latitude := coords_latitude coords;
     longitude := coords_longitude coords;
     latitudeDelta := 0x1.999999999999ap-4;
     longitudeDelta := 0x1.999999999999ap-4 |}.

(** The alert of a refused permission. *)
Definition permission_denied : Call :=
  Core (Alert_alert "Permission Denied" "Showing default location.").

Section HomeScreenHandlers.
Local Open Scope act_scope.
Local Open Scope string_scope.
Import Act.

(** *** [setupInitialScreen] (home.tsx lines 118-136)

    One run, given how the three calls on [Location] settle; the last
    known position is [null] when there is none, and the current position is
    asked for only then. The one write of the state is the last step. *)
Definition setupInitialScreen
    (permission : settled PermissionStatus)
    (lastKnown : settled (option LocationCoords))
    (current : settled LocationCoords) : Screen unit :=
  try_catch
    (emit Location_requestForegroundPermissionsAsync ;;
     status <- await permission ;;
     initialRegion <-
       match status with
       | granted =>
           emit Location_getLastKnownPositionAsync ;;
           known <- await lastKnown ;;
           location <-
             match known with
             | Some l => ret l
             | None =>
                 emit (Core Location_getCurrentPositionAsync) ;;
                 await current
             end ;;
           ret (regionAround location)
       | _ =>
           emit permission_denied ;;
           ret defaultRegion
       end ;;
     modify (onCells (setCurrentRegion (Some initialRegion))))
    (fun error =>
       emit (Console_error "Failed to setup initial screen:" error) ;;
       modify (onCells (setCurrentRegion (Some defaultRegion)))).

(** *** [updateLocationName] (home.tsx lines 104-112) *)

Definition updateLocationName_request (region : Region) : Screen unit :=
  emit (Location_reverseGeocodeAsync (latitude region) (longitude region)).

Definition updateLocationName_settle
    (answer : settled (list GeocodedAddress.t)) : Screen unit :=
  try_catch
    (result <- await answer ;;
     match result with
     | first :: _ =>
         modify (setLocationInfo
                   {| city := GeocodedAddress.city first;
                      country := GeocodedAddress.country first;
                      countryCode := GeocodedAddress.isoCountryCode first |})
     | [] => ret tt
     end)
    (fun error =>
       emit (Console_error "Reverse geocoding failed (handled):" error)).

Definition updateLocationName
    (answer : settled (list GeocodedAddress.t)) (region : Region)
  : Screen unit :=
  updateLocationName_request region ;;
  updateLocationName_settle answer.

(** *** [handleStationPress] (home.tsx lines 140-154)

    [features] is [None] when the event has none. *)
Definition handleStationPress (features : option (list PressedFeature))
  : Screen unit :=
  match features with
  | Some (feature :: _) =>
      st <- read ;;
      match pressed_id feature with
      | Some stationId =>
          match find_by_id stationId (stations (cells st)) with
          | Some station =>
              modify (setSelectedStation (Some station)) ;;
              emit (Core (setCamera (st_longitude station,
                                     st_latitude station) 15 500))
          | None => ret tt
          end
      | None => ret tt
      end
  | _ => ret tt
  end.

(** *** [handlePlaceSelected] (home.tsx lines 156-162) *)
Definition handlePlaceSelected (newRegion : Region) : Screen unit :=
  emit (Core (setCamera (longitude newRegion, latitude newRegion) 14 1000)).

(** *** [handleMapPress] (home.tsx lines 164-167) *)
Definition handleMapPress : Screen unit :=
  st <- read ;;
  match selectedStation st with
  | Some _ => modify (setSelectedStation None)
  | None => ret tt
  end ;;
  emit (Core Keyboard_dismiss).

End HomeScreenHandlers.

(** *** [handleFindTrip], from one [await] to the next

    The handler gives way at each of its three [await]s. A part of its
    [try] block that throws is followed at once by the [catch] and the
    [finally], and the handler is over: the part yields [None]. *)
Section FindTripParts.
Local Open Scope handler_scope.
Local Open Scope string_scope.

Definition handleFindTrip_part {A} (body : Handler A) : Handler (option A) :=
  try_catch
    (a <- body ;; ret (Some a))
    (fun err =>
       emit (Alert_alert "Error Finding Route" (message err)) ;;
       modify (setIsTripLoading false) ;;
       ret None).

(** Up to [await Location.getCurrentPositionAsync({})]. *)
Definition handleFindTrip_begin : Handler (option unit) :=
  emit Keyboard_dismiss ;;
  modify (setIsTripLoading true) ;;
  handleFindTrip_part (emit Location_getCurrentPositionAsync).

(** Up to [await supabase.functions.invoke('get-place-details', ...)]. *)
Definition handleFindTrip_located
    (location : settled LocationCoords) (destinationPlaceId : string)
  : Handler (option LocationCoords) :=
  handleFindTrip_part
    (coords <- await location ;;
     emit (invoke_get_place_details destinationPlaceId) ;;
     ret coords).

(** Up to the [await]s of the routing service's answer. *)
Definition handleFindTrip_placed
    (place : settled (InvokeResult PlaceLocation)) (coords : LocationCoords)
  : Handler (option unit) :=
  handleFindTrip_part
    (r <- await place ;;
     placeData <- data_or_throw r ;;
     emit (fetch_osrm_route (coords_longitude coords) (coords_latitude coords)
                            (lng placeData) (lat placeData))).

(** The rest, to the end of the [finally]. *)
Definition handleFindTrip_routed (osrm : settled OsrmResponse)
  : Handler unit :=
  finally
    (try_catch
       (json <- await osrm ;;
        (if String.eqb (code json) "Ok" then ret tt
         else throw (Error "Failed to find route")) ;;
        route0 <- first_or_throw "geometry" (routes json) ;;
        let routeGeometry := route_geometry route0 in
        _ <- first_or_throw "summary" (legs route0) ;;
        modify (setStations (fun _ => [])) ;;
        modify (setRoute (Some {| geometry := routeGeometry;
                                  bounds := None |})) ;;
        modify (setTripModeActive true) ;;
        b <- of_completion (routeBounds (coordinates routeGeometry)) ;;
        emit (fitBounds (minLon b, minLat b) (maxLon b, maxLat b)
                        [50; 50; 150; 50]%Z 1000))
       (fun err => emit (Alert_alert "Error Finding Route" (message err))))
    (modify (setIsTripLoading false)).

(** The parts one after the other, with nothing in between. *)
Definition handleFindTrip_parts
    (location : settled LocationCoords)
    (place : settled (InvokeResult PlaceLocation))
    (osrm : settled OsrmResponse)
    (destinationPlaceId : string) : Handler unit :=
  began <- handleFindTrip_begin ;;
  match began with
  | None => ret tt
  | Some _ =>
      located <- handleFindTrip_located location destinationPlaceId ;;
      match located with
      | None => ret tt
      | Some coords =>
          placed <- handleFindTrip_placed place coords ;;
          match placed with
          | None => ret tt
          | Some _ => handleFindTrip_routed osrm
          end
      end
  end.

End FindTripParts.

(** The two ways a run of [handleFindTrip] shows its result. *)
Definition is_alert (eff : Effect) : bool :=
  match eff with
  | Alert_alert _ _ => true
  | _ => false
  end.

Definition is_fitBounds (eff : Effect) : bool :=
  match eff with
  | fitBounds _ _ _ _ => true
  | _ => false
  end.

(** The route overlay is there exactly in trip mode. *)
Definition trip_consistent (c : HomeState) : Prop :=
  isTripModeActive c = true <-> route c <> None.

(** *** The screen under its events

    Each event is one uninterrupted run of the screen's code: a handler
    without [await], or the part of a handler from one [await] to the next.
    [setupInitialScreen] neither reads the state nor writes it before its
    last step, so it is taken whole, at the time of that step. The arguments
    of an event are whatever the caller or the settled call brings; no
    relation between a request and its answer is assumed. *)
Inductive HomeEvent :=
| Mounted (permission : settled PermissionStatus)
          (lastKnown : settled (option LocationCoords))
          (current : settled LocationCoords)
| RegionDidChange (coordinates : Position)
| FetchDue (region : option Region)
| FetchSettled (response : settled (InvokeResult (list Station)))
| LocationNameDue (region : Region)
| LocationNameSettled (answer : settled (list GeocodedAddress.t))
| StationPressed (features : option (list PressedFeature))
| MapPressed
| PlaceSelected (newRegion : Region)
| FilterApplied (term : string)
| PopupClosed
| FindTripPressed
| FindTripLocated (location : settled LocationCoords)
                  (destinationPlaceId : string)
| FindTripPlaced (place : settled (InvokeResult PlaceLocation))
                 (coords : LocationCoords)
| FindTripRouted (osrm : settled OsrmResponse)
| TripCancelled.

Section HomeEvents.
Local Open Scope act_scope.
Import Act.

Definition discard {A} (m : Screen A) : Screen unit := _ <- m ;; ret tt.

Definition handle (event : HomeEvent) : Screen unit :=
  match event with
  | Mounted permission lastKnown current =>
      setupInitialScreen permission lastKnown current
  | RegionDidChange coordinates => lift (onRegionDidChange coordinates)
  | FetchDue None => ret tt
  | FetchDue (Some region) => lift (fetchStationsForRegion_request region)
  | FetchSettled response => lift (fetchStationsForRegion_settle response)
  | LocationNameDue region => updateLocationName_request region
  | LocationNameSettled answer => updateLocationName_settle answer
  | StationPressed features => handleStationPress features
  | MapPressed => handleMapPress
  | PlaceSelected newRegion => handlePlaceSelected newRegion
  | FilterApplied term => modify (setFilterTerm term)
  | PopupClosed => modify (setSelectedStation None)
  | FindTripPressed => discard (lift handleFindTrip_begin)
  | FindTripLocated location destinationPlaceId =>
      discard (lift (handleFindTrip_located location destinationPlaceId))
  | FindTripPlaced place coords =>
      discard (lift (handleFindTrip_placed place coords))
  | FindTripRouted osrm => lift (handleFindTrip_routed osrm)
  | TripCancelled => lift cancelTripMode
  end.

(** The state after the events, from [st] on. *)
Definition after (events : list HomeEvent) (st : HomeScreenState)
  : HomeScreenState :=
  fold_left (fun s event => state_after (handle event s)) events st.

End HomeEvents.

(** What every state of the screen satisfies: no id twice among the
    stations, and the overlay exactly in trip mode. *)
Definition well_formed (c : HomeState) : Prop :=
  unique_ids (stations c) /\ trip_consistent c.

(** *** What [HomeScreen] renders (home.tsx lines 255-361) *)

Record HomeMap := {
  styleURL : string;
  defaultCentre : Position;
  features : list Feature;
  routeSource : option Geometry;
  searchControls : bool;
  popup : option Station;
  activityIndicator : bool
}.

Inductive HomeRender :=
| InitialLoadingScreen (message : string)
| MapView (view : HomeMap).

Definition homeView (theme : Theme) (st : HomeScreenState) : HomeRender :=
  match currentRegion (cells st) with
  | None => InitialLoadingScreen "Finding your location..."
  | Some currentRegion =>
      let shown :=
        stationsFeatureCollection
          (filteredStations (stations (cells st)) (filterTerm st)) in
      MapView
        {| styleURL := styleURL_of theme;
           defaultCentre := (longitude currentRegion, latitude currentRegion);
           features := shown;
           routeSource :=
             if isTripModeActive (cells st)
             then option_map geometry (route (cells st))
             else None;
           searchControls := negb (isTripModeActive (cells st));
           popup := selectedStation st;
           activityIndicator :=
             isLoading (cells st) || isTripLoading (cells st) |}
  end.

(** ** Strings of the other two screens *)

(** [encodeURIComponent] on a string read as its UTF-8 bytes: the letters,
    the digits and [- _ . ! ~ * ' ( )] stay, every other byte becomes [%XX]
    with upper-case hexadecimal digits. *)
Definition uriUnreserved (c : ascii) : bool :=
  let n := N_of_ascii c in
  ((48 <=? n) && (n <=? 57) || (65 <=? n) && (n <=? 90)
   || (97 <=? n) && (n <=? 122)
   || (n =? 45) || (n =? 95) || (n =? 46) || (n =? 33) || (n =? 126)
   || (n =? 42) || (n =? 39) || (n =? 40) || (n =? 41))%N.

Definition hexDigit (n : N) : ascii :=
  if (n <? 10)%N then ascii_of_N (48 + n) else ascii_of_N (55 + n).

Definition percentEncoded (c : ascii) : string :=
  let n := N_of_ascii c in
  String "%" (String (hexDigit (n / 16)) (String (hexDigit (n mod 16)) "")).

Fixpoint encodeURIComponent (s : string) : string :=
  match s with
  | EmptyString => EmptyString
  | String c s' =>
      ((if uriUnreserved c then String c "" else percentEncoded c)
       ++ encodeURIComponent s')%string
  end.

(** A character that [encodeURIComponent] lets through or writes. *)
Definition uriSafe (c : ascii) : bool :=
  uriUnreserved c || (N_of_ascii c =? 37)%N.

(** [parts.filter(Boolean)] on strings that may be [null]: the strings
    that are there and not empty. *)
Definition filter_Boolean (parts : list (option string)) : list string :=
  flat_map (fun part => match part with
                        | Some s => if truthy s then [s] else []
                        | None => []
                        end) parts.

(** [parts.join(separator)]. *)
Fixpoint join (separator : string) (parts : list string) : string :=
  match parts with
  | [] => EmptyString
  | [part] => part
  | part :: rest => (part ++ separator ++ join separator rest)%string
  end.

(** [a || b] on strings. *)
Definition or_else (a b : string) : string := if truthy a then a else b.

(** The calls that show an alert, and the one that writes a station. *)
Definition is_alert_call (call : Call) : bool :=
  match call with
  | Core (Alert_alert _ _) | Alert_title _ | Alert_buttons _ _ _ => true
  | _ => false
  end.

Definition is_insert (call : Call) : bool :=
  match call with
  | stations_insert _ => true
  | _ => false
  end.

(** The characters that end or split a query parameter. *)
Definition uriDelimiters : list ascii :=
  ["&"; "="; "#"; "?"; "/"; "+"; " "; ":"; ";"; ","; "@"; "$"]%char.

(** ** [AddStationScreen] (addStation.tsx lines 1-390) *)

Module AddStation.

(** [GOOGLE_MAPS_API_KEY] (line 16), from the key in the configuration,
    if there is one. *)
Definition GOOGLE_MAPS_API_KEY (configured : option string) : string :=
  match configured with
  | Some apiKey => or_else apiKey "YOUR_GOOGLE_MAPS_API_KEY_FALLBACK"
  | None => "YOUR_GOOGLE_MAPS_API_KEY_FALLBACK"
  end.

(** A search result as [handleSearch] builds it; the [geometry] of the
    interface is neither set nor read. *)
Record GooglePlace := {
  place_id : string;
  name : string;
  vicinity : string
}.

(** A prediction of the autocomplete service: [place_id] and the two texts
    of [structured_formatting]. *)
Record Prediction := {
  prediction_place_id : string;
  main_text : string;
  secondary_text : string
}.

Record AutocompleteResponse := {
  autocomplete_status : string;
  predictions : list Prediction
}.


(** [user] of [useAuth]. *)
Record User := {
  user_id : string
}.

Record State := {
  region : option Region;
  address : string;
  stationName : string;
  isSubmitting : bool;
  searchQuery : string;
  searchResults : list GooglePlace;
  isSearching : bool;
  showSearch : bool
}.

(** The initial values of the [useState] calls (lines 31-38). *)
Definition initial : State :=
  {| region := None; address := ""; stationName := ""; isSubmitting := false;
     searchQuery := ""; searchResults := []; isSearching := false;
     showSearch := false |}.

Definition setRegion (v : option Region) (st : State) : State :=
  {| region := v; address := address st; stationName := stationName st;
     isSubmitting := isSubmitting st; searchQuery := searchQuery st;
     searchResults := searchResults st; isSearching := isSearching st;
     showSearch := showSearch st |}.

Definition setAddress (v : string) (st : State) : State :=
  {| region := region st; address := v; stationName := stationName st;
     isSubmitting := isSubmitting st; searchQuery := searchQuery st;
     searchResults := searchResults st; isSearching := isSearching st;
     showSearch := showSearch st |}.

Definition setStationName (v : string) (st : State) : State :=
  {| region := region st; address := address st; stationName := v;
     isSubmitting := isSubmitting st; searchQuery := searchQuery st;
     searchResults := searchResults st; isSearching := isSearching st;
     showSearch := showSearch st |}.

Definition setIsSubmitting (v : bool) (st : State) : State :=
  {| region := region st; address := address st;
     stationName := stationName st;
     isSubmitting := v; searchQuery := searchQuery st;
     searchResults := searchResults st; isSearching := isSearching st;
     showSearch := showSearch st |}.

Definition setSearchQuery (v : string) (st : State) : State :=
  {| region := region st; address := address st;
     stationName := stationName st;
     isSubmitting := isSubmitting st; searchQuery := v;
     searchResults := searchResults st; isSearching := isSearching st;
     showSearch := showSearch st |}.

Definition setSearchResults (v : list GooglePlace) (st : State) : State :=
  {| region := region st; address := address st;
     stationName := stationName st;
     isSubmitting := isSubmitting st; searchQuery := searchQuery st;
     searchResults := v; isSearching := isSearching st;
     showSearch := showSearch st |}.

Definition setIsSearching (v : bool) (st : State) : State :=
  {| region := region st; address := address st;
     stationName := stationName st;
     isSubmitting := isSubmitting st; searchQuery := searchQuery st;
     searchResults := searchResults st; isSearching := v;
     showSearch := showSearch st |}.


Definition Screen (A : Type) : Type := Act.t State Call A.

(** The region set around a point, with the given delta on both axes. *)
Definition regionOf (latitude longitude delta : float) : Region :=
  {| latitude := latitude; longitude := longitude;
     latitudeDelta := delta; longitudeDelta := delta |}.

(** [[name, street, city, region, country].filter(Boolean).join(', ')]
    (line 170). *)
Definition addressParts (a : GeocodedAddress.t) : list (option string) :=
  [GeocodedAddress.name a; GeocodedAddress.street a; GeocodedAddress.city a;
   GeocodedAddress.region a; GeocodedAddress.country a].

Definition formattedAddress (a : GeocodedAddress.t) : string :=
  join ", " (filter_Boolean (addressParts a)).

(** The two addresses the screen fetches (lines 209 and 235). *)
Definition autocompleteUrl (key text : string) : string :=
  ("https://maps.googleapis.com/maps/api/place/autocomplete/json?input="
   ++ encodeURIComponent text ++ "&key=" ++ key
   ++ "&types=establishment")%string.


(** [data.predictions.map(...)] (lines 213-217). *)
Definition toPlace (p : Prediction) : GooglePlace :=
  {| place_id := prediction_place_id p;
     name := main_text p;
     vicinity := secondary_text p |}.

Section Handlers.
Local Open Scope act_scope.
Local Open Scope string_scope.
Import Act.

(** [GOOGLE_MAPS_API_KEY], as the module has computed it. *)
Variable key : string.

(** *** [reverseGeocode] (lines 165-176) *)

Definition reverseGeocode_request (latitude longitude : float)
  : Screen unit :=
  emit (Location_reverseGeocodeAsync latitude longitude).

Definition reverseGeocode_settle (answer : settled (list GeocodedAddress.t))
  : Screen unit :=
  try_catch
    (result <- await answer ;;
     match result with
     | first :: _ => modify (setAddress (formattedAddress first))
     | [] => ret tt
     end)
    (fun error => emit (Console_log "Reverse geocode error" error)).

(** *** The effect that runs when the screen mounts (lines 144-163)

    The function has no [catch]: a rejected call ends it by the
    rejection. The call of [reverseGeocode] is not awaited. *)
Definition mounted
    (permission : settled PermissionStatus)
    (current : settled LocationCoords) : Screen unit :=
  emit Location_requestForegroundPermissionsAsync ;;
  status <- await permission ;;
  match status with
  | granted =>
      emit (Core Location_getCurrentPositionAsync) ;;
      location <- await current ;;
      modify (setRegion (Some (regionOf (coords_latitude location)
                                        (coords_longitude location)
                                        0x1.47ae147ae147bp-7))) ;;
      reverseGeocode_request (coords_latitude location)
                             (coords_longitude location)
  | _ => emit (Alert_title "Permission to access location was denied")
  end.

(** *** [onRegionDidChange] (lines 178-191) *)
Definition onRegionDidChange (coordinates : Position) : Screen unit :=
  let '(longitude, latitude) := coordinates in
  modify (setRegion (Some (regionOf latitude longitude
                                    0x1.47ae147ae147bp-7))) ;;
  reverseGeocode_request latitude longitude.

(** *** [handleSearch] (lines 193-224)

    [request] is the function up to its [await], with whether it goes on;
    [settle] resumes it with the parsed answer of the service.
    [text.length] counts UTF-16 code units. *)
Definition handleSearch_request (text : string) : Screen bool :=
  modify (setSearchQuery text) ;;
  if (utf16Length text <? 3)%nat then
    modify (setSearchResults []) ;;
    ret false
  else
    modify (setIsSearching true) ;;
    emit (Fetch (autocompleteUrl key text)) ;;
    ret true.

Definition handleSearch_settle (answer : settled AutocompleteResponse)
  : Screen unit :=
  finally
    (try_catch
       (data <- await answer ;;
        if String.eqb (autocomplete_status data) "OK" then
          modify (setSearchResults (map toPlace (predictions data)))
        else ret tt)
       (fun error => emit (Console_error "Search error:" error)))
    (modify (setIsSearching false)).

Definition handleSearch (answer : settled AutocompleteResponse)
    (text : string) : Screen unit :=
  waiting <- handleSearch_request text ;;
  if (waiting : bool) then handleSearch_settle answer else ret tt.


(** *** [handleSubmit] (lines 259-304)

    [insert] is how [supabase.from('stations').insert(...).select()]
    settles. *)
Definition handleSubmit (user : option User)
    (insert : settled (InvokeResult unit)) : Screen unit :=
  st <- read ;;
  if negb (truthy (trim (stationName st))) then
    emit (Core (Alert_alert "Error" "Please enter a station name"))
  else
    match region st with
    | None => emit (Core (Alert_alert "Error" "Location not selected"))
    | Some region =>
        match user with
        | None =>
            emit (Alert_buttons "Authentication Required"
                    "You must be logged in to add a station."
                    [ {| text := "Cancel"; style := Some "cancel";
                         onPress := None |};
                      {| text := "Login"; style := None;
                         onPress := Some (router_push "/(auth)/login") |} ])
        | Some user =>
            modify (setIsSubmitting true) ;;
            finally
              (try_catch
                 (emit (stations_insert
                          {| row_name := stationName st;
                             row_latitude := latitude region;
                             row_longitude := longitude region;
                             row_address := address st;
                             submitted_by := user_id user;
                             status := "pending" |}) ;;
                  r <- await insert ;;
                  _ <- data_or_throw r ;;
                  emit (Alert_buttons "Success" "Station added successfully!"
                          [ {| text := "OK"; style := None;
                               onPress := Some router_back |} ]))
                 (fun error =>
                    emit (Core (Alert_alert "Error"
                                  (or_else (message error)
                                           "Failed to add station")))))
              (modify (setIsSubmitting false))
        end
    end.

End Handlers.

(** The row [handleSubmit] writes for a user, from the cells as they are. *)
Definition rowOf (user : User) (at_ : Region) (st : State) : StationRow :=
  {| row_name := stationName st;
     row_latitude := latitude at_;
     row_longitude := longitude at_;
     row_address := address st;
     submitted_by := user_id user;
     status := "pending" |}.

(** The alerts of [handleSubmit]. *)
Definition nameMissing : Call :=
  Core (Alert_alert "Error" "Please enter a station name").

Definition locationMissing : Call :=
  Core (Alert_alert "Error" "Location not selected").

Definition loginRequired : Call :=
  Alert_buttons "Authentication Required"
    "You must be logged in to add a station."
    [ {| text := "Cancel"; style := Some "cancel"%string; onPress := None |};
      {| text := "Login"; style := None;
         onPress := Some (router_push "/(auth)/login") |} ].

Definition stationAdded : Call :=
  Alert_buttons "Success" "Station added successfully!"
    [ {| text := "OK"; style := None; onPress := Some router_back |} ].

Definition submitFailed (error : JSError) : Call :=
  Core (Alert_alert "Error" (or_else (message error) "Failed to add station")).

(** A state and two answers of the autocomplete service, for the worked
    examples. *)
Definition typed : State := setStationName "Shell Ikoyi" initial.

Definition answer_for (place : string) : AutocompleteResponse :=
  {| autocomplete_status := "OK";
     predictions := [ {| prediction_place_id := place;
                         main_text := place;
                         secondary_text := "Lagos" |} ] |}.

(** The text under the "Address" label (line 373):
    [address || "Move map to select location"]. *)
Definition addressText (st : State) : string :=
  or_else (address st) "Move map to select location".

(** Is the result list on screen (line 345):
    [showSearch && searchResults.length > 0]. *)
Definition resultsShown (st : State) : bool :=
  showSearch st && (0 <? List.length (searchResults st))%nat.

End AddStation.

(** ** [MapScreen] (addStation.tsx lines 391-728) *)

Module MapScreen.

(** A hit of the geocoder: its [lat] and [lon] are strings. *)
Record Place := {
  place_lat : string;
  place_lon : string
}.

Record State := {
  userLocation : option LocationCoords;
  stations : list Station;
  routeCoordinates : option Geometry;
  routeDistance : string;
  routeDuration : string;
  isRouting : bool;
  destinationQuery : string;
  isNavigating : bool
}.

(** The initial values of the [useState] calls (lines 430-437). *)
Definition initial : State :=
  {| userLocation := None; stations := []; routeCoordinates := None;
     routeDistance := ""; routeDuration := ""; isRouting := false;
     destinationQuery := ""; isNavigating := false |}.

Definition setUserLocation (v : option LocationCoords) (st : State) : State :=
  {| userLocation := v; stations := stations st;
     routeCoordinates := routeCoordinates st;
     routeDistance := routeDistance st; routeDuration := routeDuration st;
     isRouting := isRouting st; destinationQuery := destinationQuery st;
     isNavigating := isNavigating st |}.

Definition setStations (v : list Station) (st : State) : State :=
  {| userLocation := userLocation st; stations := v;
     routeCoordinates := routeCoordinates st;
     routeDistance := routeDistance st; routeDuration := routeDuration st;
     isRouting := isRouting st; destinationQuery := destinationQuery st;
     isNavigating := isNavigating st |}.

Definition setRouteCoordinates (v : option Geometry) (st : State) : State :=
  {| userLocation := userLocation st; stations := stations st;
     routeCoordinates := v;
     routeDistance := routeDistance st; routeDuration := routeDuration st;
     isRouting := isRouting st; destinationQuery := destinationQuery st;
     isNavigating := isNavigating st |}.

Definition setRouteDistance (v : string) (st : State) : State :=
  {| userLocation := userLocation st; stations := stations st;
     routeCoordinates := routeCoordinates st;
     routeDistance := v; routeDuration := routeDuration st;
     isRouting := isRouting st; destinationQuery := destinationQuery st;
     isNavigating := isNavigating st |}.

Definition setRouteDuration (v : string) (st : State) : State :=
  {| userLocation := userLocation st; stations := stations st;
     routeCoordinates := routeCoordinates st;
     routeDistance := routeDistance st; routeDuration := v;
     isRouting := isRouting st; destinationQuery := destinationQuery st;
     isNavigating := isNavigating st |}.

Definition setIsRouting (v : bool) (st : State) : State :=
  {| userLocation := userLocation st; stations := stations st;
     routeCoordinates := routeCoordinates st;
     routeDistance := routeDistance st; routeDuration := routeDuration st;
     isRouting := v; destinationQuery := destinationQuery st;
     isNavigating := isNavigating st |}.

Definition setDestinationQuery (v : string) (st : State) : State :=
  {| userLocation := userLocation st; stations := stations st;
     routeCoordinates := routeCoordinates st;
     routeDistance := routeDistance st; routeDuration := routeDuration st;
     isRouting := isRouting st; destinationQuery := v;
     isNavigating := isNavigating st |}.

Definition setIsNavigating (v : bool) (st : State) : State :=
  {| userLocation := userLocation st; stations := stations st;
     routeCoordinates := routeCoordinates st;
     routeDistance := routeDistance st; routeDuration := routeDuration st;
     isRouting := isRouting st; destinationQuery := destinationQuery st;
     isNavigating := v |}.

Definition Screen (A : Type) : Type := Act.t State Call A.

(** The address of the geocoder's search (line 599). *)
Definition searchUrl (destinationQuery : string) : string :=
  ("https://nominatim.openstreetmap.org/search?format=json&q="
   ++ encodeURIComponent destinationQuery)%string.

Section Handlers.
Local Open Scope act_scope.
Local Open Scope string_scope.
Import Act.

(** [parseFloat] of the runtime. *)
Variable parseFloat : string -> float.

(** *** The effect that runs when the screen mounts (lines 519-530) *)
Definition mounted
    (permission : settled PermissionStatus)
    (current : settled LocationCoords) : Screen unit :=
  emit Location_requestForegroundPermissionsAsync ;;
  status <- await permission ;;
  match status with
  | granted =>
      emit (Core Location_getCurrentPositionAsync) ;;
      location <- await current ;;
      modify (setUserLocation (Some location))
  | _ => emit (Alert_title "Permission to access location was denied")
  end.

(** *** [fetchStationsNearby] (lines 577-591)

    [data] is [null] when the answer has none. *)
Definition fetchStationsNearby_request (lat lng : float) : Screen unit :=
  emit (rpc_get_nearby_stations lat lng 5000).

Definition fetchStationsNearby_settle
    (answer : settled (InvokeResult (option (list Station))))
  : Screen unit :=
  try_catch
    (r <- await answer ;;
     data <- data_or_throw r ;;
     match data with
     | Some data => modify (setStations data)
     | None => ret tt
     end)
    (fun error => emit (Console_error "Error fetching stations:" error)).

(** *** [fetchRoute] (lines 532-575)

    [request] is the function up to its [await], with whether it goes on;
    [settle] resumes it with the parsed answer of the routing service. The
    call of [fetchStationsNearby] is not awaited. *)
Definition fetchRoute_request (destLat destLng : float) : Screen bool :=
  st <- read ;;
  match userLocation st with
  | None => ret false
  | Some userLocation =>
      modify (setIsRouting true) ;;
      emit (Core (fetch_osrm_route (coords_longitude userLocation)
                                   (coords_latitude userLocation)
                                   destLng destLat)) ;;
      ret true
  end.

Definition fetchRoute_settle (answer : settled OsrmResponse)
    (destLat destLng : float) : Screen unit :=
  finally
    (try_catch
       (data <- await answer ;;
        if String.eqb (code data) "Ok" then
          match routes data with
          | route :: _ =>
              let coordinates := coordinates (route_geometry route) in
              modify (setRouteCoordinates
                        (Some {| coordinates := coordinates |})) ;;
              modify (setRouteDistance (formatDistance (distance route))) ;;
              modify (setRouteDuration (formatDuration (duration route))) ;;
              bounds <- of_completion (routeCorners coordinates) ;;
              emit (Camera_fitBounds (ne bounds) (sw bounds) 50 1000) ;;
              fetchStationsNearby_request destLat destLng
          | [] => ret tt
          end
        else ret tt)
       (fun error =>
          emit (Console_error "Routing error:" error) ;;
          emit (Core (Alert_alert "Error" "Failed to calculate route"))))
    (modify (setIsRouting false)).

Definition fetchRoute (answer : settled OsrmResponse)
    (destLat destLng : float) : Screen unit :=
  waiting <- fetchRoute_request destLat destLng ;;
  if (waiting : bool) then fetchRoute_settle answer destLat destLng
  else ret tt.

(** *** [handleSearch] (lines 593-614)

    [data] is [null] when the answer is no array. The call of
    [fetchRoute] is not awaited: it runs up to its own [await]. *)
Definition handleSearch_request : Screen bool :=
  st <- read ;;
  if negb (truthy (trim (destinationQuery st))) then ret false
  else
    emit (Fetch (searchUrl (destinationQuery st))) ;;
    ret true.

Definition handleSearch_settle (answer : settled (option (list Place)))
  : Screen unit :=
  try_catch
    (data <- await answer ;;
     match data with
     | Some (result :: _) =>
         let lat := parseFloat (place_lat result) in
         let lng := parseFloat (place_lon result) in
         _ <- fetchRoute_request lat lng ;;
         ret tt
     | _ => emit (Core (Alert_alert "Not Found" "Could not find location"))
     end)
    (fun error => emit (Console_error "Geocoding error:" error)).

Definition handleSearch (answer : settled (option (list Place)))
  : Screen unit :=
  waiting <- handleSearch_request ;;
  if (waiting : bool) then handleSearch_settle answer else ret tt.

(** *** The two buttons of the route panel (lines 703-723) *)
Definition startNavigation : Screen unit :=
  modify (setIsNavigating true).

Definition endNavigation : Screen unit :=
  modify (setIsNavigating false) ;;
  modify (setRouteCoordinates None) ;;
  modify (setDestinationQuery "") ;;
  emit (Camera_zoom 14 1000).

End Handlers.

(** *** The screen under its events

    Each event is one uninterrupted run of the screen's code; the effect
    that runs on mount writes the state in its last step only and is taken
    whole. The two buttons of the route panel exist only while
    [routeCoordinates] is set (line 689), so a press on one of them does
    nothing otherwise. *)
Inductive Event :=
| Mounted (permission : settled PermissionStatus)
          (current : settled LocationCoords)
| QueryChanged (text : string)
| SearchSubmitted
| SearchSettled (answer : settled (option (list Place)))
| RouteSettled (answer : settled OsrmResponse) (destLat destLng : float)
| StationsSettled (answer : settled (InvokeResult (option (list Station))))
| StartPressed
| EndPressed.

Section Events.
Local Open Scope act_scope.
Import Act.

Variable parseFloat : string -> float.

Definition onPanel (button : Screen unit) : Screen unit :=
  st <- read ;;
  match routeCoordinates st with
  | Some _ => button
  | None => ret tt
  end.

Definition handle (event : Event) : Screen unit :=
  match event with
  | Mounted permission current => mounted permission current
  | QueryChanged text => modify (setDestinationQuery text)
  | SearchSubmitted => _ <- handleSearch_request ;; ret tt
  | SearchSettled answer => handleSearch_settle parseFloat answer
  | RouteSettled answer destLat destLng =>
      fetchRoute_settle answer destLat destLng
  | StationsSettled answer => fetchStationsNearby_settle answer
  | StartPressed => onPanel startNavigation
  | EndPressed => onPanel endNavigation
  end.

Definition after (events : list Event) (st : State) : State :=
  fold_left (fun s event => state_after (handle event s)) events st.

End Events.

(** What the route panel needs of the state. *)
Definition panel_ready (st : State) : Prop :=
  routeCoordinates st <> None ->
  exists kilometres minutes,
    routeDistance st = (kilometres ++ " km")%string
    /\ routeDuration st = (minutes ++ " min")%string.

(** [x || 0] on a number: 0 for 0, -0 and NaN. *)
Definition or_zero (x : float) : float :=
  if is_nan x || is_zero x then 0%float else x.

(** What the screen shows of its state (lines 640-726). *)
Record View := {
  defaultCentre : Position;
  followUserLocation : bool;
  routeLine : option Geometry;
  markers : list Station;
  routePanel : option (string * string);
  navigating : bool
}.

Definition render (st : State) : View :=
  {| defaultCentre :=
       match userLocation st with
       | Some l => (or_zero (coords_longitude l), or_zero (coords_latitude l))
       | None => (0, 0)%float
       end;
     followUserLocation :=
       match routeCoordinates st with Some _ => false | None => true end;
     routeLine := routeCoordinates st;
     markers := stations st;
     routePanel :=
       match routeCoordinates st with
       | Some _ => Some (routeDistance st, routeDuration st)
       | None => None
       end;
     navigating := isNavigating st |}.

End MapScreen.

(** ** The debounced wrappers over time (spec 4.1 and 9)

    [useDebouncedCallback] comes from the package [use-debounce]; its timer
    is not part of the repository. The debouncer below is written from the
    specification's words: it "maintains a single pending timer; each new
    region resets the timer to a fixed delay window"; "when the timer
    elapses without being reset, the latest region is passed" on; "only one
    fetch per elapsed window is issued". Time is a number of milliseconds. *)
Module Debouncer.
Section WithValue.
Context {T : Type}.

(** The window, and the one timer when it is pending: its deadline and the
    latest value. *)
Record t := {
  delay : Z;
  pending : option (Z * T)
}.

Definition create (delay : Z) : t := {| delay := delay; pending := None |}.

(** Time passes to [now]: a timer whose deadline has come fires, once,
    with the value it holds. *)
Definition elapse (now : Z) (d : t) : t * list (Z * T) :=
  match pending d with
  | Some (deadline, value) =>
      if deadline <=? now
      then ({| delay := delay d; pending := None |}, [(deadline, value)])
      else (d, [])
  | None => (d, [])
  end.

(** [push(value)] at [now], after whatever was due before: the timer is
    set anew, a window from now, and holds the value pushed. *)
Definition push (now : Z) (value : T) (d : t) : t * list (Z * T) :=
  let '(d', fired) := elapse now d in
  ({| delay := delay d'; pending := Some (now + delay d', value) |}, fired).

(** [cancel()]. *)
Definition cancel (d : t) : t := {| delay := delay d; pending := None |}.

(** The pushes in their order, each with its time. *)
Fixpoint run (pushes : list (Z * T)) (d : t) : t * list (Z * T) :=
  match pushes with
  | [] => (d, [])
  | (now, value) :: rest =>
      let '(d', fired) := push now value d in
      let '(d'', later) := run rest d' in
      (d'', fired ++ later)
  end.

(** What a debouncer with this window has passed on by the time [until],
    each value with the time at which it was passed on. *)
Definition fires (delay : Z) (pushes : list (Z * T)) (until : Z)
  : list (Z * T) :=
  let '(d, fired) := run pushes (create delay) in
  fired ++ snd (elapse until d).

End WithValue.
Arguments t : clear implicits.
End Debouncer.

(** Consecutive times do not go back and are less than [window] apart. *)
Fixpoint gaps_below (window : Z) (times : list Z) : Prop :=
  match times with
  | t1 :: (t2 :: _) as rest => (t1 <= t2 < t1 + window) /\ gaps_below window rest
  | _ => True
  end.

(** The region [onRegionDidChange] makes of the centre of the map. *)
Definition regionAt (coordinates : Position) : Region :=
  {| latitude := snd coordinates; longitude := fst coordinates;
     latitudeDelta := 0x1.999999999999ap-5;
     longitudeDelta := 0x1.999999999999ap-5 |}.

(** The viewport changes of the home screen over time: [(t, coordinates)]
    is a run of [onRegionDidChange] at the time [t]. The result is what the
    runs asked of their collaborators, each call with the time of its run. *)
Fixpoint regionChanges (changes : list (Z * Position)) (st : HomeState)
  : list (Z * Effect) :=
  match changes with
  | [] => []
  | (t, coordinates) :: rest =>
      let '(_, st', effects) := onRegionDidChange coordinates st in
      map (pair t) effects ++ regionChanges rest st'
  end.

Definition toDebouncedFetch (eff : Effect) : option Region :=
  match eff with
  | debouncedFetch region => Some region
  | _ => None
  end.

Definition toDebouncedUpdateLocationName (eff : Effect) : option Region :=
  match eff with
  | debouncedUpdateLocationName region => Some region
  | _ => None
  end.

(** The pushes on one of the two wrappers among timed calls. *)
Definition pushed (wrapper : Effect -> option Region)
    (calls : list (Z * Effect)) : list (Z * Region) :=
  flat_map (fun call =>
              match wrapper (snd call) with
              | Some region => [(fst call, region)]
              | None => []
              end) calls.

(** What the wrapped functions ask when the wrappers pass a region on:
    [fetchStationsForRegion] and [updateLocationName] up to their [await],
    in the state they find. *)
Definition fetchCalls (st : HomeState) (fired : list (Z * Region))
  : list (Z * Effect) :=
  flat_map (fun fire =>
              map (pair (fst fire))
                  (snd (fetchStationsForRegion_request (snd fire) st)))
           fired.

Definition locationNameCalls (st : HomeScreenState)
    (fired : list (Z * Region)) : list (Z * Call) :=
  flat_map (fun fire =>
              map (pair (fst fire))
                  (Act.calls_of (updateLocationName_request (snd fire) st)))
           fired.

(** Five viewport changes within a second. *)
Definition pan : list (Z * Position) :=
  [(0, (3.375, 6.5)%float); (120, (3.5, 6.5)%float);
   (300, (3.5, 6.625)%float); (650, (3.625, 6.625)%float);
   (1000, (3.75, 6.75)%float)].

(* ================================================================= *)
(** * Properties *)

(** ** The insertion-ordered map *)

Module JSMapFacts.
Import JSMap.

Section WithValue.
Context {V : Type}.
Implicit Types (m : JSMap.t V) (k : Z) (v : V).

Lemma has_In k m : has k m = true <-> In k (keys m).
Proof.
  induction m as [|[k' v'] m IH]; simpl.
  - split; [discriminate | tauto].
  - destruct (Z.eqb_spec k k') as [->|Hne].
    + split; auto.
    + rewrite IH. split; [auto | intros [H|H]; congruence].
Qed.

Lemma has_existsb k m : has k m = existsb (Z.eqb k) (keys m).
Proof.
  induction m as [|[k' v'] m IH]; simpl; [reflexivity|].
  rewrite IH. now destruct (k =? k').
Qed.

Lemma get_None k m : get k m = None <-> ~ In k (keys m).
Proof.
  induction m as [|[k' v'] m IH]; simpl.
  - tauto.
  - destruct (Z.eqb_spec k k') as [->|Hne].
    + split; [discriminate | intros H; exfalso; auto].
    + rewrite IH. split; [intros H [E|E]; congruence | tauto].
Qed.

Lemma keys_set k v m :
  keys (set k v m) = if has k m then keys m else keys m ++ [k].
Proof.
  induction m as [|[k' v'] m IH]; simpl; [reflexivity|].
  destruct (k =? k'); simpl; [reflexivity|].
  rewrite IH. now destruct (has k m).
Qed.

Lemma get_set k' k v m :
  get k' (set k v m) = if k' =? k then Some v else get k' m.
Proof.
  induction m as [|[k0 v0] m IH]; simpl.
  - reflexivity.
  - destruct (Z.eqb_spec k k0) as [->|Hne]; simpl.
    + now destruct (k' =? k0).
    + rewrite IH.
      destruct (Z.eqb_spec k' k0) as [->|Hne']; [|reflexivity].
      destruct (Z.eqb_spec k0 k); [congruence | reflexivity].
Qed.

Lemma NoDup_keys_set k v m : NoDup (keys m) -> NoDup (keys (set k v m)).
Proof.
  intros Hnd. rewrite keys_set.
  destruct (has k m) eqn:Hhas; [assumption|].
  apply NoDup_app; [assumption | repeat constructor; simpl; tauto |].
  intros x Hx [<-|[]]. apply has_In in Hx. congruence.
Qed.

(** A map without repeated keys is determined by the order of its keys
    and by what [get] returns. *)
Lemma map_ext m1 : forall m2,
  NoDup (keys m1) ->
  keys m1 = keys m2 ->
  (forall k, get k m1 = get k m2) ->
  m1 = m2.
Proof.
  induction m1 as [|[k1 v1] m1 IH]; intros [|[k2 v2] m2] Hnd Hk Hg;
    simpl in *; try discriminate; [reflexivity|].
  injection Hk as <- Hk. inversion Hnd as [|? ? Hnot Hnd']; subst.
  assert (v1 = v2) as <-.
  { specialize (Hg k1). rewrite Z.eqb_refl in Hg. congruence. }
  f_equal. apply IH; auto.
  intros k. specialize (Hg k).
  destruct (Z.eqb_spec k k1) as [E|Hne]; [subst k|assumption].
  transitivity (@None V); [|symmetry]; apply get_None; congruence.
Qed.

Lemma fresh_keys_ext (ks : list Z) : forall seen1 seen2,
  (forall k, In k seen1 <-> In k seen2) ->
  fresh_keys seen1 ks = fresh_keys seen2 ks.
Proof.
  induction ks as [|k ks IH]; intros seen1 seen2 Hiff; simpl; [reflexivity|].
  assert (existsb (Z.eqb k) seen1 = existsb (Z.eqb k) seen2) as ->.
  { apply eq_true_iff_eq. rewrite !existsb_exists.
    split; intros (x & Hx & E); apply Z.eqb_eq in E; subst x;
      exists k; (split; [apply Hiff; assumption | apply Z.eqb_refl]). }
  destruct (existsb (Z.eqb k) seen2); [now apply IH|].
  f_equal. apply IH. intros x. rewrite !in_app_iff, Hiff. tauto.
Qed.

Lemma fresh_keys_nil (ks seen : list Z) :
  (forall k, In k ks -> In k seen) -> fresh_keys seen ks = [].
Proof.
  induction ks as [|k ks IH]; intros Hsub; simpl; [reflexivity|].
  assert (existsb (Z.eqb k) seen = true) as ->.
  { apply existsb_exists. exists k. split; [apply Hsub; now left|].
    apply Z.eqb_refl. }
  apply IH. intros x Hx. apply Hsub. now right.
Qed.

Lemma fresh_keys_spec (ks : list Z) : forall seen k,
  In k (fresh_keys seen ks) <-> In k ks /\ ~ In k seen.
Proof.
  induction ks as [|k0 ks IH]; intros seen k; simpl; [tauto|].
  destruct (existsb (Z.eqb k0) seen) eqn:Hex.
  - apply existsb_exists in Hex as (x & Hx & E). apply Z.eqb_eq in E.
    subst x. rewrite IH. split; [tauto|].
    intros [[->|H] Hn]; [contradiction | tauto].
  - assert (~ In k0 seen) as Hn0.
    { intros Hin. apply not_true_iff_false in Hex. apply Hex.
      apply existsb_exists. exists k0. split; [assumption|].
      apply Z.eqb_refl. }
    simpl. rewrite IH, in_app_iff. simpl.
    destruct (Z.eq_dec k0 k) as [->|Hne]; [tauto|]. tauto.
Qed.

Lemma NoDup_fresh_keys (ks : list Z) : forall seen,
  NoDup (fresh_keys seen ks).
Proof.
  induction ks as [|k ks IH]; intros seen; simpl; [constructor|].
  destruct (existsb (Z.eqb k) seen); [apply IH|].
  constructor; [|apply IH].
  rewrite fresh_keys_spec, in_app_iff. simpl. tauto.
Qed.

(** Along the keys of a map without repeated keys, [get] returns the
    values in order. *)
Lemma get_along_keys m :
  NoDup (keys m) ->
  Forall2 (fun k v => get k m = Some v) (keys m) (values m).
Proof.
  induction m as [|[k v] m IH]; intros Hnd; simpl; constructor.
  - simpl. now rewrite Z.eqb_refl.
  - inversion Hnd as [|? ? Hnot Hnd']; subst.
    eapply Forall2_impl; [|apply IH; assumption].
    intros k' v' Hget. simpl.
    destruct (Z.eqb_spec k' k) as [->|]; [|assumption].
    exfalso. apply Hnot. apply get_None in Hnot. congruence.
Qed.

End WithValue.
End JSMapFacts.

(** ** The station merge *)

Section Merge.
Import JSMap JSMapFacts.
Implicit Types (m : JSMap.t Station) (s : Station) (k : Z).

Lemma from_entries_set_all (prev : list Station) :
  from_entries (map (fun s => (id s, s)) prev) = set_all prev [].
Proof.
  unfold from_entries, set_all. generalize (@nil (Z * Station)).
  induction prev as [|s prev IH]; intros m; simpl; [reflexivity | apply IH].
Qed.

Lemma set_all_cons s data m :
  set_all (s :: data) m = set_all data (set (id s) s m).
Proof. reflexivity. Qed.

Lemma keys_set_all data : forall m,
  keys (set_all data m) = keys m ++ fresh_keys (keys m) (map id data).
Proof.
  induction data as [|s data IH]; intros m; simpl map; simpl fresh_keys.
  - now rewrite app_nil_r.
  - rewrite set_all_cons, IH, keys_set, <- has_existsb.
    destruct (has (id s) m); [reflexivity|].
    now rewrite <- app_assoc.
Qed.

Lemma get_set_all data : forall m k,
  get k (set_all data m) =
  match latest data k with Some s => Some s | None => get k m end.
Proof.
  induction data as [|s data IH]; intros m k; [reflexivity|].
  rewrite set_all_cons, IH, get_set. simpl.
  destruct (latest data k); [reflexivity|].
  now destruct (k =? id s).
Qed.

Lemma NoDup_keys_set_all data : forall m,
  NoDup (keys m) -> NoDup (keys (set_all data m)).
Proof.
  induction data as [|s data IH]; intros m Hnd; [assumption|].
  rewrite set_all_cons. apply IH. now apply NoDup_keys_set.
Qed.

Lemma keyed_set s m : keyed m -> keyed (set (id s) s m).
Proof.
  unfold keyed. induction m as [|[k' v'] m IH]; intros Hk; simpl.
  - repeat constructor.
  - inversion Hk as [|? ? Hhd Htl]; subst. simpl in Hhd.
    destruct (Z.eqb_spec (id s) k') as [E|Hne].
    + constructor; [simpl; congruence | assumption].
    + constructor; [assumption | now apply IH].
Qed.

Lemma keyed_set_all data : forall m, keyed m -> keyed (set_all data m).
Proof.
  induction data as [|s data IH]; intros m Hk; [assumption|].
  rewrite set_all_cons. apply IH. now apply keyed_set.
Qed.

Lemma keyed_entries m :
  keyed m -> m = map (fun s => (id s, s)) (values m).
Proof.
  unfold keyed. induction 1 as [|[k v] m Hhd _ IH]; simpl; [reflexivity|].
  simpl in Hhd. subst k. now f_equal.
Qed.

Lemma keyed_keys m : keyed m -> keys m = map id (values m).
Proof.
  unfold keyed. induction 1 as [|[k v] m Hhd _ IH]; simpl; [reflexivity|].
  simpl in Hhd. now f_equal.
Qed.

Lemma set_absent k (v : Station) m :
  has k m = false -> set k v m = m ++ [(k, v)].
Proof.
  induction m as [|[k' v'] m IH]; simpl; [reflexivity|].
  destruct (k =? k'); [discriminate|]. intros H. now rewrite IH.
Qed.

(** On a list with unique ids that avoids the map's keys, the successive
    [set]s only append. *)
Lemma set_all_append (l : list Station) : forall m,
  NoDup (keys m ++ map id l) ->
  set_all l m = m ++ map (fun s => (id s, s)) l.
Proof.
  induction l as [|s l IH]; intros m Hnd; simpl map.
  - now rewrite app_nil_r.
  - rewrite set_all_cons. simpl in Hnd.
    assert (has (id s) m = false) as Hhas.
    { apply not_true_iff_false. rewrite has_In. intros Hin.
      apply NoDup_remove_2 in Hnd. apply Hnd. apply in_or_app. now left. }
    rewrite set_absent by assumption. rewrite IH.
    + now rewrite <- app_assoc.
    + unfold keys. rewrite map_app. simpl. rewrite <- app_assoc. simpl.
      apply NoDup_Add with (a := id s) (l := map fst m ++ map id l).
      * apply Add_app.
      * split; [now apply NoDup_remove_1 in Hnd
               | now apply NoDup_remove_2 in Hnd].
Qed.

Lemma latest_Some (l : list Station) k s :
  latest l k = Some s -> id s = k /\ In s l.
Proof.
  induction l as [|s0 l IH]; simpl; [discriminate|].
  destruct (latest l k) as [s'|] eqn:E.
  - intros [= <-]. destruct (IH eq_refl) as [? ?]. auto.
  - destruct (Z.eqb_spec k (id s0)); [|discriminate].
    intros [= <-]. auto.
Qed.

Lemma latest_None (l : list Station) k :
  latest l k = None <-> ~ In k (map id l).
Proof.
  induction l as [|s0 l IH]; simpl; [tauto|].
  destruct (latest l k) as [s'|] eqn:E.
  - split; [discriminate|]. intros Hn. exfalso.
    destruct IH as [_ IH]. assert (Some s' = None) by tauto. discriminate.
  - destruct IH as [IH _]. specialize (IH eq_refl).
    destruct (Z.eqb_spec k (id s0)) as [->|Hne].
    + split; [discriminate | tauto].
    + split; [intros _ [H|H]; [congruence | contradiction] | reflexivity].
Qed.

(** The map built from the previous stations, and the final map. *)
Lemma stationMap_unique (prev : list Station) :
  unique_ids prev ->
  set_all prev [] = map (fun s => (id s, s)) prev.
Proof. intros Hu. now rewrite set_all_append. Qed.

Lemma merge_unfold prev data :
  mergeStations prev data = values (set_all data (set_all prev [])).
Proof. unfold mergeStations. now rewrite from_entries_set_all. Qed.

Lemma merged_map_NoDup prev data :
  NoDup (keys (set_all data (set_all prev []))).
Proof. apply NoDup_keys_set_all, NoDup_keys_set_all. constructor. Qed.

Lemma merged_map_keyed prev data :
  keyed (set_all data (set_all prev [])).
Proof. apply keyed_set_all, keyed_set_all. constructor. Qed.

(** The merge never yields two stations with one id, whatever it is
    given: [unique_ids] is an invariant of the [stations] state. *)
Lemma merge_unique_ids prev data : unique_ids (mergeStations prev data).
Proof.
  unfold unique_ids. rewrite merge_unfold.
  rewrite <- keyed_keys by apply merged_map_keyed.
  apply merged_map_NoDup.
Qed.

End Merge.

Section MergeClaims.
Import JSMap JSMapFacts.
Implicit Types (m : JSMap.t Station) (s : Station) (k : Z).

Lemma get_entries k (l : list Station) :
  get k (map (fun s => (id s, s)) l) = find_by_id k l.
Proof.
  unfold find_by_id. induction l as [|s l IH]; simpl; [reflexivity|].
  rewrite (Z.eqb_sym (id s) k). now destruct (k =? id s).
Qed.

Lemma find_by_id_unique (l : list Station) s :
  unique_ids l -> In s l -> find_by_id (id s) l = Some s.
Proof.
  unfold unique_ids, find_by_id.
  induction l as [|s0 l IH]; simpl; intros Hnd Hin; [contradiction|].
  inversion Hnd as [|? ? Hnot Hnd']; subst.
  destruct Hin as [->|Hin]; [now rewrite Z.eqb_refl|].
  destruct (Z.eqb_spec (id s0) (id s)) as [E|Hne]; [|now apply IH].
  exfalso. apply Hnot. rewrite E. now apply in_map.
Qed.

(** What [find_by_id] sees in the merged list, for any previous list. *)
Lemma find_by_id_merge prev data k :
  find_by_id k (mergeStations prev data) =
  match latest data k with
  | Some s => Some s
  | None => latest prev k
  end.
Proof.
  rewrite merge_unfold, <- get_entries.
  rewrite <- keyed_entries by apply merged_map_keyed.
  rewrite !get_set_all. simpl.
  destruct (latest data k); [reflexivity|]. now destruct (latest prev k).
Qed.

Lemma latest_unique (l : list Station) k :
  unique_ids l -> latest l k = find_by_id k l.
Proof.
  intros Hu. rewrite <- get_entries, <- stationMap_unique by assumption.
  rewrite get_set_all. simpl. now destruct (latest l k).
Qed.

Lemma overwritten_in_place prev data (l vs : list Station) :
  unique_ids prev ->
  (forall s, In s l -> In s prev) ->
  Forall2 (fun k v => get k (set_all data (set_all prev [])) = Some v)
          (map id l) vs ->
  vs = map (overwrite data) l.
Proof.
  intros Hu. revert vs.
  induction l as [|s l IH]; intros vs Hsub H; inversion H as [|? v ? vs' Hs Hrest];
    subst; simpl; [reflexivity|].
  f_equal.
  - rewrite !get_set_all in Hs. simpl in Hs.
    unfold overwrite. destruct (latest data (id s)); [congruence|].
    rewrite latest_unique, find_by_id_unique in Hs; auto.
    + congruence.
    + apply Hsub. now left.
  - apply IH; [intros; apply Hsub; now right | assumption].
Qed.

(** The merged list, position by position. *)
Lemma merge_shape prev data :
  unique_ids prev ->
  exists appended,
    mergeStations prev data = map (overwrite data) prev ++ appended
    /\ map id appended = fresh_keys (map id prev) (map id data)
    /\ Forall (fun s => latest data (id s) = Some s) appended.
Proof.
  intros Hu. rewrite merge_unfold.
  set (M := set_all data (set_all prev [])).
  pose proof (merged_map_NoDup prev data) as Hnd. fold M in Hnd.
  pose proof (merged_map_keyed prev data) as Hkd. fold M in Hkd.
  pose proof (get_along_keys M Hnd) as Hget.
  assert (keys M = map id prev ++ fresh_keys (map id prev) (map id data))
    as Hkeys.
  { unfold M. rewrite keys_set_all, stationMap_unique by assumption.
    unfold keys. rewrite map_map. simpl. reflexivity. }
  rewrite Hkeys in Hget.
  apply Forall2_app_inv_l in Hget as (v1 & v2 & H1 & H2 & Hv).
  exists v2. rewrite Hv. split; [f_equal|split].
  - (* the previously known stations, in place *)
    eapply overwritten_in_place; eauto.
  - (* the new stations carry the fresh ids *)
    clear H1 Hv Hkeys. induction H2 as [|k v ks vs Hk _ IH];
      simpl; [reflexivity|]. f_equal; [|assumption].
    pose proof (keyed_entries M Hkd) as HM. rewrite HM, get_entries in Hk.
    unfold find_by_id in Hk. apply find_some in Hk as [_ Hk].
    now apply Z.eqb_eq in Hk.
  - (* and the fields of the last record of the batch *)
    assert (Forall (fun k => ~ In k (map id prev))
                   (fresh_keys (map id prev) (map id data))) as Hfresh.
    { apply Forall_forall. intros k Hk. now apply fresh_keys_spec in Hk. }
    clear H1 Hv Hkeys. induction H2 as [|k v ks vs Hk _ IH];
      constructor.
    + inversion Hfresh as [|? ? Hn _]; subst.
      assert (id v = k) as Hid.
      { pose proof (keyed_entries M Hkd) as HM.
        rewrite HM, get_entries in Hk.
        unfold find_by_id in Hk. apply find_some in Hk as [_ Hk].
        now apply Z.eqb_eq in Hk. }
      unfold M in Hk. rewrite !get_set_all in Hk. simpl in Hk.
      rewrite Hid. destruct (latest data k); [assumption|].
      apply latest_None in Hn. rewrite Hn in Hk. discriminate.
    + apply IH. now inversion Hfresh.
Qed.

End MergeClaims.

Section MergeTheorems.
Import JSMap JSMapFacts.

Lemma overwrite_id data s : id (overwrite data s) = id s.
Proof.
  unfold overwrite. destruct (latest data (id s)) as [s'|] eqn:E;
    [|reflexivity].
  now apply latest_Some in E.
Qed.

(** The merge itself, on a station set (a list with unique ids). *)
Lemma mergeStations_by_id (current incoming : list Station) :
  unique_ids current ->
  unique_ids (mergeStations current incoming)
  /\ (forall k,
        find_by_id k (mergeStations current incoming) =
        match latest incoming k with
        | Some s => Some s
        | None => find_by_id k current
        end)
  /\ (forall s, In s current -> ~ In (id s) (map id incoming) ->
                In s (mergeStations current incoming))
  /\ (forall s, In s incoming ->
                In (id s) (map id (mergeStations current incoming))).
Proof.
  intros Hu.
  assert (forall k,
        find_by_id k (mergeStations current incoming) =
        match latest incoming k with
        | Some s => Some s
        | None => find_by_id k current
        end) as Hfind.
  { intros k. rewrite find_by_id_merge.
    now rewrite (latest_unique current) by assumption. }
  split; [apply merge_unique_ids|]. split; [exact Hfind|]. split.
  - intros s Hin Hnot. specialize (Hfind (id s)).
    apply latest_None in Hnot. rewrite Hnot in Hfind.
    rewrite (find_by_id_unique current s Hu Hin) in Hfind.
    unfold find_by_id in Hfind. apply find_some in Hfind as [Hin' _].
    exact Hin'.
  - intros s Hin. specialize (Hfind (id s)).
    destruct (latest incoming (id s)) as [s'|] eqn:E.
    + unfold find_by_id in Hfind. apply find_some in Hfind as [Hin' Hid].
      apply Z.eqb_eq in Hid. rewrite <- Hid. now apply in_map.
    + apply latest_None in E. exfalso. apply E. now apply in_map.
Qed.

(** What a fetch that succeeds leaves, when it resumes and as a whole
    run. *)
Lemma fetch_success (data : list Station) (st : HomeState) :
  fetchStationsForRegion_settle (Fulfilled (Data data)) st =
    (Normal tt, afterFetch data st, [])
  /\ stations (afterFetch data st) = mergeStations (stations st) data
  /\ forall region,
       fetchStationsForRegion (Fulfilled (Data data)) (Some region) st =
         (Normal tt, afterFetch data (setIsLoading true st),
          [invoke_get_google_stations (latitude region) (longitude region)])
       /\ stations (afterFetch data (setIsLoading true st))
          = mergeStations (stations st) data.
Proof. repeat split. Qed.

(** C1. When a station fetch succeeds, [fetchStationsForRegion] resumes
    without throwing and writes into the [stations] cell the merge of the
    stations the cell has at that moment (a set: a list with unique ids)
    with the fetched batch. The list written has unique ids; the station
    found in it under an id is the batch's last record for that id when the
    batch has one, and the station the cell already had otherwise; every
    station of the cell whose id the batch does not mention is still there,
    and every id of the batch is present. A whole run, with nothing in
    between, writes the same list after its one backend call. *)
Theorem merge_by_id (st : HomeState) (incoming : list Station) :
  unique_ids (stations st) ->
  fetchStationsForRegion_settle (Fulfilled (Data incoming)) st =
    (Normal tt, afterFetch incoming st, [])
  /\ stations (afterFetch incoming st)
     = mergeStations (stations st) incoming
  /\ unique_ids (stations (afterFetch incoming st))
  /\ (forall k,
        find_by_id k (stations (afterFetch incoming st)) =
        match latest incoming k with
        | Some s => Some s
        | None => find_by_id k (stations st)
        end)
  /\ (forall s, In s (stations st) -> ~ In (id s) (map id incoming) ->
                In s (stations (afterFetch incoming st)))
  /\ (forall s, In s incoming ->
                In (id s) (map id (stations (afterFetch incoming st))))
  /\ (forall region,
        fetchStationsForRegion (Fulfilled (Data incoming)) (Some region) st =
          (Normal tt, afterFetch incoming (setIsLoading true st),
           [invoke_get_google_stations (latitude region)
                                       (longitude region)])
        /\ stations (afterFetch incoming (setIsLoading true st))
           = stations (afterFetch incoming st)).
Proof.
  intros Hu.
  destruct (fetch_success incoming st) as (Hrun & Hst & Hwhole).
  destruct (mergeStations_by_id (stations st) incoming Hu)
    as (H1 & H2 & H3 & H4).
  split; [exact Hrun|]. split; [exact Hst|]. rewrite Hst.
  split; [exact H1|]. split; [exact H2|]. split; [exact H3|].
  split; [exact H4|].
  intros region. destruct (Hwhole region) as [Hw1 Hw2].
  split; [exact Hw1 | exact Hw2].
Qed.

Lemma merge_by_id_witness :
  unique_ids (stations two_stations)
  /\ stations (afterFetch [station_a'; station_c] two_stations)
     = [station_a'; station_b; station_c]
  /\ find_by_id 1 (stations (afterFetch [station_a'; station_c] two_stations))
     = Some station_a'.
Proof.
  assert (unique_ids (stations two_stations)) as Hu.
  { repeat constructor; simpl; intuition discriminate. }
  split; [exact Hu|].
  destruct (merge_by_id two_stations [station_a'; station_c] Hu)
    as (_ & Hst & _ & Hfind & _).
  split; [rewrite Hst; reflexivity | rewrite Hfind; reflexivity].
Defined.

(** C6. Merging the same batch a second time changes nothing:
    [merge (merge S B) B = merge S B], for every list [S] and batch [B]. *)
Theorem merge_idempotent (S B : list Station) :
  mergeStations (mergeStations S B) B = mergeStations S B.
Proof.
  rewrite (merge_unfold (mergeStations S B) B).
  rewrite (merge_unfold S B).
  set (M := set_all B (set_all S [])).
  pose proof (merged_map_NoDup S B) as Hnd. fold M in Hnd.
  pose proof (merged_map_keyed S B) as Hkd. fold M in Hkd.
  assert (set_all (values M) [] = M) as ->.
  { rewrite stationMap_unique.
    - symmetry. now apply keyed_entries.
    - unfold unique_ids. now rewrite <- keyed_keys. }
  f_equal. apply map_ext.
  - now apply NoDup_keys_set_all.
  - rewrite keys_set_all. rewrite fresh_keys_nil; [apply app_nil_r|].
    intros k Hk. unfold M. rewrite keys_set_all.
    destruct (in_dec Z.eq_dec k (keys (set_all S []))) as [Hin|Hout];
      apply in_or_app; [now left | right].
    now apply fresh_keys_spec.
  - intros k. rewrite get_set_all.
    destruct (latest B k) as [s|] eqn:E; [|reflexivity].
    unfold M. now rewrite get_set_all, E.
Qed.

Lemma fresh_keys_filter (ks : list Z) : forall seen,
  NoDup ks ->
  fresh_keys seen ks = filter (fun k => negb (existsb (Z.eqb k) seen)) ks.
Proof.
  induction ks as [|k ks IH]; intros seen Hnd; simpl; [reflexivity|].
  inversion Hnd as [|? ? Hnot Hnd']; subst.
  destruct (existsb (Z.eqb k) seen) eqn:Hex; simpl; [now apply IH|].
  f_equal. rewrite IH by assumption. apply filter_ext_in.
  intros x Hx. rewrite existsb_app. simpl.
  destruct (Z.eqb_spec x k) as [->|_]; [contradiction|].
  now rewrite !orb_false_r.
Qed.

Lemma same_ids_same_stations (data l1 : list Station) : forall l2,
  map id l1 = map id l2 ->
  Forall (fun s => latest data (id s) = Some s) l1 ->
  Forall (fun s => latest data (id s) = Some s) l2 ->
  l1 = l2.
Proof.
  induction l1 as [|s1 l1 IH]; intros [|s2 l2] Hids H1 H2;
    try discriminate; [reflexivity|].
  injection Hids as Hid Hids.
  inversion H1 as [|? ? Hs1 H1']; inversion H2 as [|? ? Hs2 H2']; subst.
  f_equal; [|now apply IH]. rewrite Hid in Hs1. congruence.
Qed.

(** The order of the merged list, for the merge itself. *)
Lemma mergeStations_keeps_order (prev data : list Station) :
  unique_ids prev ->
  exists appended,
    mergeStations prev data = map (overwrite data) prev ++ appended
    /\ map id (map (overwrite data) prev) = map id prev
    /\ map id appended = fresh_keys (map id prev) (map id data)
    /\ Forall (fun s => latest data (id s) = Some s) appended
    /\ (unique_ids data ->
        appended =
        filter (fun s => negb (existsb (Z.eqb (id s)) (map id prev))) data).
Proof.
  intros Hu. destruct (merge_shape prev data Hu) as (app & H1 & H2 & H3).
  exists app. split; [assumption|]. split.
  { rewrite map_map. apply map_ext_in. intros s _. apply overwrite_id. }
  split; [assumption|]. split; [assumption|].
  intros Hd. apply (same_ids_same_stations data); [|assumption|].
  - rewrite H2, fresh_keys_filter by exact Hd.
    clear. induction data as [|s data IH]; simpl; [reflexivity|].
    destruct (existsb (Z.eqb (id s)) (map id prev)); simpl; now rewrite IH.
  - apply Forall_forall. intros s Hs. apply filter_In in Hs as [Hs _].
    rewrite latest_unique by assumption. now apply find_by_id_unique.
Qed.

(** C10. The list that a successful station fetch writes into the
    [stations] cell keeps the stations the cell had (a set: a list with
    unique ids) in their order, each at its position with the fields of the
    batch's last record for its id when there is one; the stations whose
    id was not known follow them, one per new id in the order in which the
    batch first mentions the ids. When no id occurs twice in the batch, what
    follows is the batch itself without the stations whose id was known. *)
Theorem merge_keeps_order (st : HomeState) (data : list Station) :
  unique_ids (stations st) ->
  fetchStationsForRegion_settle (Fulfilled (Data data)) st =
    (Normal tt, afterFetch data st, [])
  /\ exists appended,
       stations (afterFetch data st)
       = map (overwrite data) (stations st) ++ appended
       /\ map id (map (overwrite data) (stations st)) = map id (stations st)
       /\ map id appended
          = fresh_keys (map id (stations st)) (map id data)
       /\ Forall (fun s => latest data (id s) = Some s) appended
       /\ (unique_ids data ->
           appended =
           filter (fun s => negb (existsb (Z.eqb (id s))
                                          (map id (stations st)))) data).
Proof.
  intros Hu. destruct (fetch_success data st) as (Hrun & Hst & _).
  split; [exact Hrun|]. rewrite Hst.
  exact (mergeStations_keeps_order (stations st) data Hu).
Qed.

Lemma merge_keeps_order_witness :
  unique_ids (stations two_stations)
  /\ exists appended,
       stations (afterFetch [station_c; station_a'] two_stations) =
       [station_a'; station_b] ++ appended
       /\ appended = [station_c].
Proof.
  assert (unique_ids (stations two_stations)) as Hu.
  { repeat constructor; simpl; intuition discriminate. }
  split; [exact Hu|].
  destruct (merge_keeps_order two_stations [station_c; station_a'] Hu)
    as (_ & app & H & _ & _ & _ & Hfilter).
  exists app. split; [exact H|]. apply Hfilter.
  repeat constructor; simpl; intuition discriminate.
Defined.

End MergeTheorems.

(** ** The station filter *)

Section Filter.
Local Open Scope string_scope.

Lemma prefix_append (p s : string) :
  String.prefix p s = true <-> exists rest, s = p ++ rest.
Proof.
  revert s. induction p as [|a p IH]; intros s; simpl.
  - split; [intros _; now exists s | now destruct s].
  - destruct s as [|b s]; simpl.
    + split; [discriminate | intros [rest H]; discriminate].
    + destruct (ascii_dec a b) as [->|Hne].
      * rewrite IH. split; intros [rest H]; exists rest; congruence.
      * split; [discriminate | intros [rest H]; congruence].
Qed.

Lemma includes_unfold (s t : string) :
  includes s t =
  if String.prefix t s then true
  else match s with
       | "" => false
       | String _ s' => includes s' t
       end.
Proof. now destruct s. Qed.

Lemma includes_occurs (s t : string) :
  includes s t = true <-> exists before after, s = before ++ t ++ after.
Proof.
  induction s as [|c s IH]; rewrite includes_unfold.
  - destruct (String.prefix t "") eqn:Hp.
    + split; [intros _|reflexivity].
      apply prefix_append in Hp as [rest H]. now exists "", rest.
    + split; [discriminate|]. intros (b & a & H).
      destruct b; [|discriminate]. simpl in H.
      assert (String.prefix t "" = true) as Hx
          by (apply prefix_append; now exists a).
      congruence.
  - destruct (String.prefix t (String c s)) eqn:Hp.
    + split; [intros _|reflexivity].
      apply prefix_append in Hp as [rest H]. now exists "", rest.
    + rewrite IH. split.
      * intros (b & a & H). exists (String c b), a. simpl. congruence.
      * intros (b & a & H). destruct b as [|c' b]; simpl in H.
        -- assert (String.prefix t (String c s) = true) as Hx
             by (apply prefix_append; now exists a).
           congruence.
        -- injection H as _ H. now exists b, a.
Qed.

Lemma trimStart_blank (l : list N) :
  forallb isWhiteSpace l = true -> trimStart l = [].
Proof.
  induction l as [|c l IH]; simpl; [reflexivity|].
  destruct (isWhiteSpace c); simpl; [assumption | discriminate].
Qed.

Lemma trimEnd_empty (l : list N) :
  trimEnd l = [] -> forallb isWhiteSpace l = true.
Proof.
  induction l as [|c l IH]; simpl; [reflexivity|].
  destruct (trimEnd l); [|discriminate].
  destruct (isWhiteSpace c); [intros _; now apply IH | discriminate].
Qed.

Lemma trimStart_not_blank (l : list N) :
  forallb isWhiteSpace l = false ->
  forallb isWhiteSpace (trimStart l) = false.
Proof.
  induction l as [|c l IH]; simpl; [discriminate|].
  destruct (isWhiteSpace c) eqn:Hc; simpl; [assumption|].
  now rewrite Hc.
Qed.

(** A code point is written with at least one byte. *)
Lemma utf8_truthy (cp : N) (rest : string) : truthy (utf8 cp ++ rest) = true.
Proof.
  unfold utf8.
  destruct (cp <? 0x80)%N; [reflexivity|].
  destruct (cp <? 0x800)%N; [reflexivity|].
  destruct (cp <? 0x10000)%N; reflexivity.
Qed.

Lemma fromCodePoints_truthy (l : list N) :
  truthy (fromCodePoints l) = match l with [] => false | _ :: _ => true end.
Proof. destruct l as [|cp l]; [reflexivity | apply utf8_truthy]. Qed.

(** [!filterTerm.trim()] holds exactly for the terms of white space. *)
Lemma trim_falsy (s : string) : negb (truthy (trim s)) = blank s.
Proof.
  unfold trim, blank. rewrite fromCodePoints_truthy.
  destruct (forallb isWhiteSpace (codePoints s)) eqn:Hb.
  - now rewrite trimStart_blank.
  - apply trimStart_not_blank in Hb.
    destruct (trimEnd (trimStart (codePoints s))) eqn:E; [|reflexivity].
    apply trimEnd_empty in E. congruence.
Qed.

(** C8 (as amended). The filter is a function of the station list and
    the term. A term of white space only (the empty term included; white
    space is that of [trim], the no-break space for one) gives the station
    list itself, unchanged in membership and order. Any other term keeps,
    in their order, exactly the stations whose lower-cased name contains the
    lower-cased term, the lower case being that of [toLowerCase]: "energie"
    written with e acute finds the name that begins with a capital E acute. *)
Theorem filter_by_name (stations : list Station) (filterTerm : string) :
  filteredStations stations "" = stations
  /\ (if blank filterTerm
      then filteredStations stations filterTerm = stations
      else filteredStations stations filterTerm =
             filter (fun s => includes (toLowerCase (name s))
                                       (toLowerCase filterTerm)) stations
           /\ forall s, In s (filteredStations stations filterTerm) <->
                        In s stations
                        /\ contains_ignoring_case (name s) filterTerm)
  /\ blank filterTerm
     = forallb isWhiteSpace (codePoints filterTerm)
  /\ filteredStations [station_d; station_e] nbsp = [station_d; station_e]
  /\ filteredStations [station_d; station_e] energie = [station_e]
  /\ filteredStations [station_d; station_e] "AND" = [station_d].
Proof.
  split; [reflexivity|]. split.
  - unfold filteredStations. rewrite trim_falsy.
    destruct (blank filterTerm); [reflexivity|].
    split; [reflexivity|]. intros s. rewrite filter_In.
    unfold contains_ignoring_case. now rewrite includes_occurs.
  - split; [reflexivity|]. repeat split; vm_compute; reflexivity.
Qed.

(** C8 as stated fails on a term that is not empty but blank: the term of
    one space keeps a station whose name has no space. *)
Lemma filter_by_name_counterexample :
  " " <> ""
  /\ filteredStations [station_d] " " = [station_d]
  /\ includes (toLowerCase (name station_d)) (toLowerCase " ") = false.
Proof. repeat split; [discriminate]. Qed.

End Filter.

(** ** Comparing numbers *)

Section FloatOrder.

Lemma SFcompare_key (x y : spec_float) :
  x <> S754_nan -> y <> S754_nan ->
  SFcompare x y = Some (lex_compare (order_key x) (order_key y)).
Proof.
  intros Hx Hy.
  destruct x as [sx|sx| |sx mx ex], y as [sy|sy| |sy my ey];
    try congruence; try destruct sx; try destruct sy; try reflexivity.
  simpl. rewrite Z.compare_opp, (Z.compare_antisym ey ex).
  destruct (ey ?= ex); reflexivity.
Qed.

Lemma lex_compare_refl a : lex_compare a a = Eq.
Proof.
  destruct a as [[a1 a2] a3]. simpl. now rewrite !Z.compare_refl.
Qed.

Lemma lex_compare_antisym a b :
  lex_compare b a = CompOpp (lex_compare a b).
Proof.
  destruct a as [[a1 a2] a3], b as [[b1 b2] b3]. simpl.
  rewrite (Z.compare_antisym a1 b1), (Z.compare_antisym a2 b2),
    (Z.compare_antisym a3 b3).
  destruct (a1 ?= b1); simpl; try reflexivity.
  destruct (a2 ?= b2); reflexivity.
Qed.

Lemma lex_compare_le_trans a b c :
  lex_compare a b <> Gt -> lex_compare b c <> Gt -> lex_compare a c <> Gt.
Proof.
  destruct a as [[a1 a2] a3], b as [[b1 b2] b3], c as [[c1 c2] c3]. simpl.
  destruct (Z.compare_spec a1 b1), (Z.compare_spec b1 c1),
    (Z.compare_spec a1 c1); try congruence; try lia;
  destruct (Z.compare_spec a2 b2), (Z.compare_spec b2 c2),
    (Z.compare_spec a2 c2); try congruence; try lia;
  destruct (Z.compare_spec a3 b3), (Z.compare_spec b3 c3),
    (Z.compare_spec a3 c3); try congruence; lia.
Qed.

Lemma number_not_nan x : number x <-> Prim2SF x <> S754_nan.
Proof.
  unfold number, is_nan. rewrite eqb_spec. unfold SFeqb.
  destruct (Prim2SF x) as [s|s| |s m e] eqn:E.
  - split; [discriminate | reflexivity].
  - split; [discriminate | now destruct s].
  - split; [discriminate | congruence].
  - split; [discriminate | intros _].
    rewrite SFcompare_key by discriminate. now rewrite lex_compare_refl.
Qed.

Lemma finite_number x : is_finite x = true -> number x.
Proof.
  unfold is_finite, number. destruct (is_nan x); [discriminate | reflexivity].
Qed.

Lemma leb_key x y :
  number x -> number y ->
  (x <=? y)%float = true <->
  lex_compare (order_key (Prim2SF x)) (order_key (Prim2SF y)) <> Gt.
Proof.
  intros Hx%number_not_nan Hy%number_not_nan.
  rewrite leb_spec. unfold SFleb. rewrite SFcompare_key by assumption.
  destruct (lex_compare _ _); split; congruence.
Qed.

Lemma ltb_key x y :
  number x -> number y ->
  (x <? y)%float = true <->
  lex_compare (order_key (Prim2SF x)) (order_key (Prim2SF y)) = Lt.
Proof.
  intros Hx%number_not_nan Hy%number_not_nan.
  rewrite ltb_spec. unfold SFltb. rewrite SFcompare_key by assumption.
  destruct (lex_compare _ _); split; congruence.
Qed.

Lemma leb_refl x : number x -> (x <=? x)%float = true.
Proof.
  intros Hx. apply leb_key; auto. now rewrite lex_compare_refl.
Qed.

Lemma leb_trans x y z :
  number x -> number y -> number z ->
  (x <=? y)%float = true -> (y <=? z)%float = true ->
  (x <=? z)%float = true.
Proof.
  intros Hx Hy Hz Hxy%leb_key Hyz%leb_key; auto.
  apply leb_key; auto. eapply lex_compare_le_trans; eauto.
Qed.

Lemma ltb_leb x y :
  number x -> number y -> (x <? y)%float = true -> (x <=? y)%float = true.
Proof.
  intros Hx Hy Hlt%ltb_key; auto. apply leb_key; auto. congruence.
Qed.

Lemma not_ltb_leb x y :
  number x -> number y -> (x <? y)%float = false -> (y <=? x)%float = true.
Proof.
  intros Hx Hy Hlt. apply leb_key; auto.
  rewrite lex_compare_antisym.
  destruct (lex_compare (order_key (Prim2SF x)) (order_key (Prim2SF y)))
    eqn:E; simpl; try discriminate.
  apply ltb_key in E; auto. congruence.
Qed.

End FloatOrder.

(** ** Route bounds *)

Section Extremum.
(** A linear scan with a step that keeps one of its two arguments, the
    one that is [R]-below the other, ends on an [R]-least element. *)
Variable R : float -> float -> bool.
Variable step : float -> float -> float.
Hypothesis R_trans : forall x y z,
  number x -> number y -> number z ->
  R x y = true -> R y z = true -> R x z = true.
Hypothesis step_picks : forall a x,
  number a -> number x ->
  (step a x = a \/ step a x = x)
  /\ R (step a x) a = true /\ R (step a x) x = true.

Lemma scan_extremum (xs : list float) : forall m0,
  number m0 -> Forall number xs ->
  let m := fold_left step xs m0 in
  number m /\ (m = m0 \/ In m xs)
  /\ (xs = [] \/ R m m0 = true)
  /\ Forall (fun x => R m x = true) xs.
Proof.
  induction xs as [|x xs IH]; intros m0 Hm0 Hxs; simpl.
  - repeat split; auto.
  - inversion Hxs as [|? ? Hx Hxs']; subst.
    destruct (step_picks m0 x Hm0 Hx) as (Hpick & Hle0 & Hlex).
    assert (number (step m0 x)) as Ha by (destruct Hpick as [->| ->]; auto).
    destruct (IH (step m0 x) Ha Hxs') as (Hm & Hin & Hle & Hall).
    assert (R (fold_left step xs (step m0 x)) (step m0 x) = true) as Hma.
    { destruct Hle as [->|Hle]; [|exact Hle]. simpl.
      destruct Hpick as [E|E]; rewrite E in *; assumption. }
    repeat split.
    + exact Hm.
    + destruct Hin as [->|Hin]; [|now right; right].
      destruct Hpick as [->| ->]; [now left | now right; left].
    + right. now apply (R_trans _ (step m0 x) _).
    + constructor; [now apply (R_trans _ (step m0 x) _) | exact Hall].
Qed.

End Extremum.

Section RouteBounds.

Lemma keep_min_picks a x :
  number a -> number x ->
  (keep_min a x = a \/ keep_min a x = x)
  /\ (keep_min a x <=? a)%float = true
  /\ (keep_min a x <=? x)%float = true.
Proof.
  intros Ha Hx. unfold keep_min. destruct (x <? a)%float eqn:E.
  - repeat split; [now right | now apply ltb_leb | now apply leb_refl].
  - repeat split; [now left | now apply leb_refl | now apply not_ltb_leb].
Qed.

Lemma keep_max_picks a x :
  number a -> number x ->
  (keep_max a x = a \/ keep_max a x = x)
  /\ (a <=? keep_max a x)%float = true
  /\ (x <=? keep_max a x)%float = true.
Proof.
  intros Ha Hx. unfold keep_max. destruct (a <? x)%float eqn:E.
  - repeat split; [now right | now apply ltb_leb | now apply leb_refl].
  - repeat split; [now left | now apply leb_refl | now apply not_ltb_leb].
Qed.

Lemma classify_zero a :
  classify a = PZero \/ classify a = NZero ->
  exists s, Prim2SF a = S754_zero s.
Proof.
  rewrite classify_spec. unfold SF64classify, SFclassify.
  destruct (Prim2SF a) as [s|s| |s m e]; eauto;
    intros [H|H]; try discriminate; try (destruct s; discriminate);
    destruct s, (Z.pos (digits2_pos m) =? prec); discriminate.
Qed.

Lemma zeros_leb a b :
  number a -> number b ->
  (classify a = PZero \/ classify a = NZero) ->
  (classify b = PZero \/ classify b = NZero) ->
  (a <=? b)%float = true.
Proof.
  intros Ha Hb [sa Ea]%classify_zero [sb Eb]%classify_zero.
  apply leb_key; auto. rewrite Ea, Eb. discriminate.
Qed.

Lemma Math_min_picks a x :
  number a -> number x ->
  (Math_min a x = a \/ Math_min a x = x)
  /\ (Math_min a x <=? a)%float = true
  /\ (Math_min a x <=? x)%float = true.
Proof.
  intros Ha Hx. unfold Math_min.
  unfold number in Ha, Hx. rewrite Ha, Hx. simpl.
  fold (number a) in Ha. fold (number x) in Hx.
  pose proof (keep_min_picks a x Ha Hx) as Hk. unfold keep_min in Hk.
  destruct (classify a) eqn:Ca; try exact Hk;
    destruct (classify x) eqn:Cx; try exact Hk.
  repeat split; [now right | apply zeros_leb; auto | now apply leb_refl].
Qed.

Lemma Math_max_picks a x :
  number a -> number x ->
  (Math_max a x = a \/ Math_max a x = x)
  /\ (a <=? Math_max a x)%float = true
  /\ (x <=? Math_max a x)%float = true.
Proof.
  intros Ha Hx. unfold Math_max.
  unfold number in Ha, Hx. rewrite Ha, Hx. simpl.
  fold (number a) in Ha. fold (number x) in Hx.
  pose proof (keep_max_picks a x Ha Hx) as Hk. unfold keep_max in Hk.
  destruct (classify a) eqn:Ca; try exact Hk;
    destruct (classify x) eqn:Cx; try exact Hk.
  repeat split; [now right | apply zeros_leb; auto | now apply leb_refl].
Qed.

Lemma geb_trans x y z :
  number x -> number y -> number z ->
  (y <=? x)%float = true -> (z <=? y)%float = true ->
  (z <=? x)%float = true.
Proof. intros. now apply (leb_trans z y x). Qed.

(** The least of a non-empty run of numbers, by either step. *)
Lemma least_by (step : float -> float -> float) (x0 : float) xs :
  (forall a x, number a -> number x ->
     (step a x = a \/ step a x = x)
     /\ (step a x <=? a)%float = true /\ (step a x <=? x)%float = true) ->
  Forall number (x0 :: xs) ->
  is_least (fold_left step (x0 :: xs) x0) (x0 :: xs).
Proof.
  intros Hstep Hall. inversion Hall as [|? ? H0 _]; subst.
  destruct (scan_extremum PrimFloat.leb step leb_trans Hstep
              (x0 :: xs) x0 H0 Hall) as (_ & Hin & _ & Hle).
  split; [|exact Hle].
  destruct Hin as [E|Hin]; [rewrite E; now left | exact Hin].
Qed.

Lemma greatest_by (step : float -> float -> float) (x0 : float) xs :
  (forall a x, number a -> number x ->
     (step a x = a \/ step a x = x)
     /\ (a <=? step a x)%float = true /\ (x <=? step a x)%float = true) ->
  Forall number (x0 :: xs) ->
  is_greatest (fold_left step (x0 :: xs) x0) (x0 :: xs).
Proof.
  intros Hstep Hall. inversion Hall as [|? ? H0 _]; subst.
  destruct (scan_extremum (fun a b => PrimFloat.leb b a) step geb_trans
              Hstep (x0 :: xs) x0 H0 Hall) as (_ & Hin & _ & Hle).
  split; [|exact Hle].
  destruct Hin as [E|Hin]; [rewrite E; now left | exact Hin].
Qed.

End RouteBounds.

Section RouteBoundsTheorems.

Lemma scan_minLon coords : forall b,
  minLon (fold_left scan coords b) =
  fold_left keep_min (map fst coords) (minLon b).
Proof. induction coords as [|c cs IH]; intros b; simpl; [|rewrite IH]; reflexivity. Qed.

Lemma scan_maxLon coords : forall b,
  maxLon (fold_left scan coords b) =
  fold_left keep_max (map fst coords) (maxLon b).
Proof. induction coords as [|c cs IH]; intros b; simpl; [|rewrite IH]; reflexivity. Qed.

Lemma scan_minLat coords : forall b,
  minLat (fold_left scan coords b) =
  fold_left keep_min (map snd coords) (minLat b).
Proof. induction coords as [|c cs IH]; intros b; simpl; [|rewrite IH]; reflexivity. Qed.

Lemma scan_maxLat coords : forall b,
  maxLat (fold_left scan coords b) =
  fold_left keep_max (map snd coords) (maxLat b).
Proof. induction coords as [|c cs IH]; intros b; simpl; [|rewrite IH]; reflexivity. Qed.

Lemma widen_sw_lon cs : forall acc,
  fst (sw (fold_left widen cs acc)) =
  fold_left Math_min (map fst cs) (fst (sw acc)).
Proof. induction cs as [|c cs IH]; intros acc; simpl; [|rewrite IH]; reflexivity. Qed.

Lemma widen_sw_lat cs : forall acc,
  snd (sw (fold_left widen cs acc)) =
  fold_left Math_min (map snd cs) (snd (sw acc)).
Proof. induction cs as [|c cs IH]; intros acc; simpl; [|rewrite IH]; reflexivity. Qed.

Lemma widen_ne_lon cs : forall acc,
  fst (ne (fold_left widen cs acc)) =
  fold_left Math_max (map fst cs) (fst (ne acc)).
Proof. induction cs as [|c cs IH]; intros acc; simpl; [|rewrite IH]; reflexivity. Qed.

Lemma widen_ne_lat cs : forall acc,
  snd (ne (fold_left widen cs acc)) =
  fold_left Math_max (map snd cs) (snd (ne acc)).
Proof. induction cs as [|c cs IH]; intros acc; simpl; [|rewrite IH]; reflexivity. Qed.

Lemma finite_numbers (coords : list Position) :
  Forall finite_position coords ->
  Forall number (map fst coords) /\ Forall number (map snd coords).
Proof.
  induction 1 as [|c cs [H1 H2] _ [IH1 IH2]]; simpl; split; constructor;
    auto using finite_number.
Qed.

Lemma least_below_greatest m g xs :
  is_least m xs -> is_greatest g xs -> (m <=? g)%float = true.
Proof.
  intros [_ Hle] [Hin _]. rewrite Forall_forall in Hle. now apply Hle.
Qed.

(** The extrema of a non-empty list of positions without [NaN], by the
    scan of home.tsx. *)
Lemma routeBounds_extrema c0 cs :
  Forall number (map fst (c0 :: cs)) ->
  Forall number (map snd (c0 :: cs)) ->
  exists b,
    routeBounds (c0 :: cs) = Normal b
    /\ is_least (minLon b) (map fst (c0 :: cs))
    /\ is_greatest (maxLon b) (map fst (c0 :: cs))
    /\ is_least (minLat b) (map snd (c0 :: cs))
    /\ is_greatest (maxLat b) (map snd (c0 :: cs)).
Proof.
  intros Hlon Hlat. eexists. split; [reflexivity|].
  rewrite scan_minLon, scan_maxLon, scan_minLat, scan_maxLat.
  cbn [minLon maxLon minLat maxLat map].
  split; [|split; [|split]].
  - apply (least_by keep_min); [apply keep_min_picks | exact Hlon].
  - apply (greatest_by keep_max); [apply keep_max_picks | exact Hlon].
  - apply (least_by keep_min); [apply keep_min_picks | exact Hlat].
  - apply (greatest_by keep_max); [apply keep_max_picks | exact Hlat].
Qed.

(** The same by the [reduce] of addStation.tsx. *)
Lemma routeCorners_extrema c0 cs :
  Forall number (map fst (c0 :: cs)) ->
  Forall number (map snd (c0 :: cs)) ->
  exists k,
    routeCorners (c0 :: cs) = Normal k
    /\ is_least (fst (sw k)) (map fst (c0 :: cs))
    /\ is_greatest (fst (ne k)) (map fst (c0 :: cs))
    /\ is_least (snd (sw k)) (map snd (c0 :: cs))
    /\ is_greatest (snd (ne k)) (map snd (c0 :: cs)).
Proof.
  intros Hlon Hlat. eexists. split; [reflexivity|].
  rewrite widen_sw_lon, widen_sw_lat, widen_ne_lon, widen_ne_lat.
  cbn [sw ne fst snd map].
  split; [|split; [|split]].
  - apply (least_by Math_min); [apply Math_min_picks | exact Hlon].
  - apply (greatest_by Math_max); [apply Math_max_picks | exact Hlon].
  - apply (least_by Math_min); [apply Math_min_picks | exact Hlat].
  - apply (greatest_by Math_max); [apply Math_max_picks | exact Hlat].
Qed.

(** C3. On two or more finite coordinates the bounds computation returns,
    on each axis, the least and the greatest of the coordinates (each is one
    of the route's values and bounds all of them), so the south-west corner
    is below the north-east corner on both axes; this holds for the scan of
    home.tsx and for the [reduce] of addStation.tsx. On
    [[0,0],[2,3],[-1,5]] both give south-west [-1,0] and north-east
    [2,5]. *)
Theorem route_bounds_are_extrema (coords : list Position) :
  (2 <= List.length coords)%nat ->
  Forall finite_position coords ->
  (exists b,
     routeBounds coords = Normal b
     /\ is_least (minLon b) (map fst coords)
     /\ is_greatest (maxLon b) (map fst coords)
     /\ is_least (minLat b) (map snd coords)
     /\ is_greatest (maxLat b) (map snd coords)
     /\ (minLon b <=? maxLon b)%float = true
     /\ (minLat b <=? maxLat b)%float = true)
  /\ (exists k,
       routeCorners coords = Normal k
       /\ is_least (fst (sw k)) (map fst coords)
       /\ is_greatest (fst (ne k)) (map fst coords)
       /\ is_least (snd (sw k)) (map snd coords)
       /\ is_greatest (snd (ne k)) (map snd coords)
       /\ (fst (sw k) <=? fst (ne k))%float = true
       /\ (snd (sw k) <=? snd (ne k))%float = true)
  /\ routeBounds example_route =
       Normal {| minLon := -1; maxLon := 2; minLat := 0; maxLat := 5 |}
  /\ routeCorners example_route =
       Normal {| ne := (2, 5)%float; sw := (-1, 0)%float |}.
Proof.
  intros Hlen Hfin. destruct coords as [|c0 cs]; [simpl in Hlen; lia|].
  destruct (finite_numbers _ Hfin) as [Hlon Hlat].
  split; [|split; [|split; reflexivity]].
  - destruct (routeBounds_extrema c0 cs Hlon Hlat)
      as (b & Hb & H1 & H2 & H3 & H4).
    exists b. repeat (split; [assumption|]).
    split; eapply least_below_greatest; eassumption.
  - destruct (routeCorners_extrema c0 cs Hlon Hlat)
      as (k & Hk & H1 & H2 & H3 & H4).
    exists k. repeat (split; [assumption|]).
    split; eapply least_below_greatest; eassumption.
Qed.

Lemma route_bounds_are_extrema_witness :
  (2 <= List.length example_route)%nat
  /\ Forall finite_position example_route
  /\ exists b,
       routeBounds example_route = Normal b
       /\ is_least (minLon b) (map fst example_route)
       /\ is_greatest (maxLat b) (map snd example_route).
Proof.
  assert (2 <= List.length example_route)%nat as Hlen by (simpl; lia).
  assert (Forall finite_position example_route) as Hfin
      by (repeat constructor).
  split; [exact Hlen|]. split; [exact Hfin|].
  destruct (route_bounds_are_extrema example_route Hlen Hfin)
    as ((b & Hb & H1 & _ & _ & H4 & _) & _).
  exists b. auto.
Defined.

(** C4 (as amended). The bounds computation throws exactly on the empty
    coordinate list, where reading the first coordinate fails;
    [handleFindTrip] catches that exception, shows it in an alert, and asks
    the camera for nothing. On every other list, of one element or with
    coordinates that are not finite, the computation returns bounds; a
    single coordinate gives the box reduced to that point. *)
Theorem route_bounds_throw_on_empty_only (coords : list Position) :
  match coords with
  | [] =>
      routeBounds [] = Throw undefined_0
      /\ routeCorners [] = Throw undefined_0
      /\ forall location dest placeId st,
           snd (handleFindTrip (Fulfilled location) (Fulfilled (Data dest))
                  (Fulfilled (osrm_ok {| coordinates := [] |})) placeId st)
           = [Keyboard_dismiss;
              Location_getCurrentPositionAsync;
              invoke_get_place_details placeId;
              fetch_osrm_route (coords_longitude location)
                               (coords_latitude location)
                               (lng dest) (lat dest);
              Alert_alert "Error Finding Route" (message undefined_0)]
  | [c] =>
      routeBounds [c] =
        Normal {| minLon := fst c; maxLon := fst c;
                  minLat := snd c; maxLat := snd c |}
      /\ exists k, routeCorners [c] = Normal k
  | _ :: _ :: _ =>
      exists b k, routeBounds coords = Normal b
                  /\ routeCorners coords = Normal k
  end.
Proof.
  destruct coords as [|c [|c' rest]].
  - repeat split.
  - split; [|eexists; reflexivity].
    unfold routeBounds, scan. simpl.
    now destruct (fst c <? fst c)%float, (snd c <? snd c)%float.
  - do 2 eexists; split; reflexivity.
Qed.

(** C4 as stated fails: a route of one coordinate, and a route with a
    coordinate that is not finite, both get bounds and no exception. *)
Lemma route_bounds_throw_counterexample :
  routeBounds [(3.5, 6.5)%float] =
    Normal {| minLon := 3.5; maxLon := 3.5; minLat := 6.5; maxLat := 6.5 |}
  /\ is_finite infinity = false
  /\ routeBounds [(0, 0)%float; (infinity, 1%float)] =
       Normal {| minLon := 0; maxLon := infinity; minLat := 0; maxLat := 1 |}.
Proof. repeat split. Qed.

End RouteBoundsTheorems.

(** ** Trip mode and the station fetch *)

Section HomeScreen.
Local Open Scope string_scope.

(** C7. When the backend call fails, by a rejected promise or by an
    [error] in its answer, resuming [fetchStationsForRegion] leaves the
    stations as they are in whatever state it resumes, logs the error with
    [console.error] and does nothing else: no alert, no second call. A whole
    run has made the one backend call and leaves the stations it started
    with. *)
Theorem fetch_failure_keeps_stations
    (rejects : bool) (err : JSError) (region : option Region)
    (st : HomeState) :
  fetchStationsForRegion_settle (failure rejects err) st =
    (Normal tt, setIsLoading false st,
     [console_error "Error fetching stations:" (message err)])
  /\ stations (setIsLoading false st) = stations st
  /\ exists st' effs,
       fetchStationsForRegion (failure rejects err) region st =
         (Normal tt, st', effs)
       /\ stations st' = stations st
       /\ effs =
          match region with
          | None => []
          | Some r =>
              [invoke_get_google_stations (latitude r) (longitude r);
               console_error "Error fetching stations:" (message err)]
          end.
Proof.
  split; [now destruct rejects|]. split; [reflexivity|].
  destruct region as [r|]; destruct rejects;
    do 2 eexists; (split; [reflexivity|]); split; reflexivity.
Qed.

(** The state in which a successful [handleFindTrip] leaves the screen. *)
Lemma handleFindTrip_success
    (coords : LocationCoords) (dest : PlaceLocation) (placeId : string)
    (g : Geometry) (leg : OsrmLeg) (legs' : list OsrmLeg) (d t : float)
    (others : list OsrmRoute) (st : HomeState) :
  exists r effs,
    handleFindTrip (Fulfilled coords) (Fulfilled (Data dest))
      (Fulfilled {| code := "Ok";
                    routes := {| route_geometry := g; legs := leg :: legs';
                                 distance := d; duration := t |} :: others |})
      placeId st
    = (r,
       {| isLoading := isLoading st; stations := [];
          currentRegion := currentRegion st; isTripModeActive := true;
          isTripLoading := false;
          route := Some {| geometry := g; bounds := None |} |},
       effs).
Proof.
  unfold handleFindTrip, finally, try_catch, bind. simpl.
  destruct g as [cs]. destruct cs as [|c0 cs]; simpl;
    do 2 eexists; reflexivity.
Qed.

Lemma cancelTripMode_result (st : HomeState) :
  cancelTripMode st =
    (Normal tt,
     {| isLoading := isLoading st; stations := stations st;
        currentRegion := currentRegion st; isTripModeActive := false;
        isTripLoading := isTripLoading st; route := None |},
     match currentRegion st with
     | Some r => [setCamera (longitude r, latitude r) 14 500;
                  debouncedFetch r]
     | None => []
     end).
Proof.
  destruct st as [l ss [r|] a tl rt]; reflexivity.
Qed.

(** C5 (as amended). When the route request succeeds, [handleFindTrip]
    leaves the station list empty, the route overlay installed and trip mode
    on. [cancelTripMode] turns trip mode off and removes the overlay; when a
    region is known it recentres the camera and hands that region to the
    debounced station fetch, the one the viewport changes use, and it does
    not call the station backend itself. *)
Theorem trip_mode_transitions
    (coords : LocationCoords) (dest : PlaceLocation) (placeId : string)
    (g : Geometry) (leg : OsrmLeg) (legs' : list OsrmLeg) (d t : float)
    (others : list OsrmRoute) (st : HomeState) :
  (exists r effs,
     handleFindTrip (Fulfilled coords) (Fulfilled (Data dest))
       (Fulfilled {| code := "Ok";
                     routes := {| route_geometry := g; legs := leg :: legs';
                                  distance := d; duration := t |} :: others |})
       placeId st
     = (r,
        {| isLoading := isLoading st; stations := [];
           currentRegion := currentRegion st; isTripModeActive := true;
           isTripLoading := false;
           route := Some {| geometry := g; bounds := None |} |},
        effs))
  /\ cancelTripMode st =
       (Normal tt,
        {| isLoading := isLoading st; stations := stations st;
           currentRegion := currentRegion st; isTripModeActive := false;
           isTripLoading := isTripLoading st; route := None |},
        match currentRegion st with
        | Some r => [setCamera (longitude r, latitude r) 14 500;
                     debouncedFetch r]
        | None => []
        end)
  /\ existsb is_station_fetch (snd (cancelTripMode st)) = false
  /\ (forall c, snd (onRegionDidChange c st) <> [] /\
                 In (debouncedFetch
                       {| latitude := snd c; longitude := fst c;
                          latitudeDelta := 0x1.999999999999ap-5;
                          longitudeDelta := 0x1.999999999999ap-5 |})
                    (snd (onRegionDidChange c st))).
Proof.
  split; [apply handleFindTrip_success|].
  split; [apply cancelTripMode_result|]. split.
  - rewrite cancelTripMode_result. simpl.
    now destruct (currentRegion st).
  - intros [lon lat]. unfold onRegionDidChange, bind, read. simpl.
    destruct (isTripModeActive st); simpl; split; try discriminate; auto.
Qed.

(** C5 as stated fails: leaving trip mode with a known region, the handler
    reaches no backend; it calls the debounced wrapper, whose wait is 400
    ms, while a direct call of the fetch would reach the backend at once. *)
Lemma trip_mode_cancel_counterexample :
  snd (cancelTripMode on_trip) =
    [setCamera (3.375, 6.5)%float 14 500; debouncedFetch lagos]
  /\ existsb is_station_fetch (snd (cancelTripMode on_trip)) = false
  /\ existsb is_station_fetch
       (snd (fetchStationsForRegion_request lagos on_trip)) = true
  /\ debouncedFetch_wait = 400.
Proof. repeat split. Qed.

End HomeScreen.

(** ** Distance and duration as text *)

Section Formatting.

Lemma round_half_up_nearest (num den : Z) :
  0 < den -> nearest_integer (round_half_up num den) num den.
Proof.
  intros Hden. unfold nearest_integer, round_half_up. split; [assumption|].
  pose proof (Z.mul_div_le (2 * num + den) (2 * den) ltac:(lia)).
  pose proof (Z.mul_succ_div_gt (2 * num + den) (2 * den) ltac:(lia)).
  lia.
Qed.

Lemma fraction_den_pos s m e : 0 < snd (fraction s m e).
Proof.
  unfold fraction. destruct (0 <=? e) eqn:E; cbn [fst snd]; [lia|].
  apply Z.pow_pos_nonneg; lia.
Qed.

Lemma fraction_num_nonneg m e : 0 <= fst (fraction false m e).
Proof.
  unfold fraction. destruct (0 <=? e) eqn:E; cbn [fst snd]; [|lia].
  apply Z.mul_nonneg_nonneg; [lia|]. apply Z.pow_nonneg. lia.
Qed.

Lemma round_half_up_nonneg num den :
  0 <= num -> 0 < den -> 0 <= round_half_up num den.
Proof.
  intros Hn Hd. unfold round_half_up. apply Z.div_pos; lia.
Qed.

(** A finite number is a zero or [m * 2^e]. *)
Lemma finite_cases (x : float) :
  is_finite x = true ->
  (exists s, Prim2SF x = S754_zero s)
  \/ (exists s m e, Prim2SF x = S754_finite s m e).
Proof.
  unfold is_finite, is_nan, is_infinity.
  rewrite !eqb_spec, abs_spec.
  destruct (Prim2SF x) as [s|s| |s m e]; eauto.
  - destruct s; vm_compute; discriminate.
  - vm_compute. discriminate.
Qed.

Lemma nonneg_sign (x : float) s m e :
  (0 <=? x)%float = true -> Prim2SF x = S754_finite s m e -> s = false.
Proof.
  rewrite leb_spec. intros H E. rewrite E in H.
  destruct s; [discriminate | reflexivity].
Qed.

Lemma binary_round_aux_sign sx mx ex lx :
  match binary_round_aux prec emax sx mx ex lx with
  | S754_zero s | S754_infinity s | S754_finite s _ _ => s = sx
  | S754_nan => True
  end.
Proof.
  unfold binary_round_aux.
  destruct (shr_fexp prec emax mx ex lx) as [mrs' e'].
  destruct (shr_fexp prec emax _ e' loc_Exact) as [mrs'' e''].
  destruct (shr_m mrs''); auto.
  destruct (e'' <=? emax - prec); reflexivity.
Qed.

(** Dividing a finite number that is not negative by a positive finite
    number gives no negative number. *)
Lemma div_sign (d c : float) mc ec :
  is_finite d = true -> (0 <=? d)%float = true ->
  Prim2SF c = S754_finite false mc ec ->
  match Prim2SF (d / c) with
  | S754_finite s _ _ | S754_infinity s => s = false
  | _ => True
  end.
Proof.
  intros Hfin Hpos Hc. rewrite div_spec, Hc.
  destruct (finite_cases d Hfin) as [[s E]|(s & m & e & E)]; rewrite E.
  - exact I.
  - rewrite (nonneg_sign d s m e Hpos E). unfold SF64div, SFdiv.
    destruct (SFdiv_core_binary prec emax (Z.pos m) e (Z.pos mc) ec)
      as [[mz ez] lz].
    pose proof (binary_round_aux_sign (xorb false false) mz ez lz) as H.
    destruct (binary_round_aux prec emax (xorb false false) mz ez lz);
      auto.
Qed.

Lemma below_1e21 (q : float) m e :
  (q <? 1e21)%float = true -> Prim2SF q = S754_finite false m e ->
  (1e21 <=? abs q)%float = false.
Proof.
  intros Hlt E.
  assert (abs q = q) as ->.
  { apply Prim2SF_inj. now rewrite abs_spec, E. }
  rewrite ltb_spec in Hlt. rewrite leb_spec. unfold SFltb in Hlt.
  unfold SFleb. rewrite E in *.
  assert (Prim2SF 1e21 <> S754_nan) as H21 by (cbv; discriminate).
  rewrite SFcompare_key in Hlt by (auto; discriminate).
  rewrite SFcompare_key by (auto; discriminate).
  rewrite lex_compare_antisym.
  destruct (lex_compare _ _); simpl; congruence.
Qed.

(** *** The quotient of a finite number by a number of magnitude two or
    more is finite *)

Lemma digits2_pos_lower (p : positive) :
  2 ^ (Zpos (digits2_pos p) - 1) <= Zpos p.
Proof.
  induction p as [p IH|p IH|]; simpl digits2_pos; [| |simpl; lia].
  - rewrite Pos2Z.inj_succ. replace (Z.succ (Zpos (digits2_pos p)) - 1)
      with (Z.succ (Zpos (digits2_pos p) - 1)) by lia.
    rewrite Z.pow_succ_r by lia. lia.
  - rewrite Pos2Z.inj_succ. replace (Z.succ (Zpos (digits2_pos p)) - 1)
      with (Z.succ (Zpos (digits2_pos p) - 1)) by lia.
    rewrite Z.pow_succ_r by lia. lia.
Qed.

Lemma digits2_pos_upper (p : positive) :
  Zpos p < 2 ^ Zpos (digits2_pos p).
Proof.
  induction p as [p IH|p IH|]; simpl digits2_pos; [| |simpl; lia].
  - rewrite Pos2Z.inj_succ, Z.pow_succ_r by lia. lia.
  - rewrite Pos2Z.inj_succ, Z.pow_succ_r by lia. lia.
Qed.

Lemma Zdigits2_le (z k : Z) :
  0 <= z -> 0 <= k -> z < 2 ^ k -> Zdigits2 z <= k.
Proof.
  intros Hz Hk Hlt. destruct z as [|p|p]; simpl; [lia| |lia].
  pose proof (digits2_pos_lower p) as Hlow.
  assert (2 ^ (Zpos (digits2_pos p) - 1) < 2 ^ k) as H by lia.
  apply Z.pow_lt_mono_r_iff in H; lia.
Qed.

Lemma shr_1_m (r : shr_record) :
  0 <= shr_m r -> shr_m (shr_1 r) = shr_m r / 2.
Proof.
  destruct r as [m b c]. simpl shr_m at 1 2. intros H. unfold shr_1.
  destruct m as [|[p|p|]|p]; try lia; cbn [shr_m].
  - reflexivity.
  - rewrite Pos2Z.inj_xI. apply Z.div_unique with 1; lia.
  - rewrite Pos2Z.inj_xO. apply Z.div_unique with 0; lia.
  - reflexivity.
Qed.

Lemma iter_shr_1_m (p : positive) : forall r,
  0 <= shr_m r ->
  shr_m (iter_pos shr_1 p r) = shr_m r / 2 ^ Zpos p.
Proof.
  assert (forall z k, 0 <= z -> 0 < k -> 0 <= z / k) as Hdiv
      by (intros; apply Z.div_pos; lia).
  induction p as [p IH|p IH|]; intros r Hr; simpl iter_pos.
  - assert (0 <= shr_m (shr_1 r))
        by (rewrite shr_1_m by assumption; apply Hdiv; lia).
    assert (0 < 2 ^ Zpos p) by (apply Z.pow_pos_nonneg; lia).
    rewrite IH, IH, shr_1_m; try assumption.
    + rewrite !Z.div_div by lia. f_equal.
      replace (Zpos p~1) with (Zpos p + Zpos p + 1) by lia.
      rewrite !Z.pow_add_r, Z.pow_1_r by lia. lia.
    + rewrite IH by assumption. apply Hdiv; lia.
  - assert (0 < 2 ^ Zpos p) by (apply Z.pow_pos_nonneg; lia).
    rewrite IH, IH; try assumption.
    + rewrite !Z.div_div by lia. f_equal.
      replace (Zpos p~0) with (Zpos p + Zpos p) by lia.
      rewrite !Z.pow_add_r by lia. lia.
    + rewrite IH by assumption. apply Hdiv; lia.
  - rewrite shr_1_m by assumption. reflexivity.
Qed.

(** What [shr_fexp] leaves: the mantissa shifted and the exponent
    raised by the same count. *)
Lemma shr_fexp_spec (m e : Z) (l : location) :
  0 <= m ->
  exists k, 0 <= k
    /\ snd (shr_fexp prec emax m e l) = e + k
    /\ shr_m (fst (shr_fexp prec emax m e l)) = m / 2 ^ k
    /\ e + k = Z.max e (fexp prec emax (Zdigits2 m + e)).
Proof.
  intros Hm. unfold shr_fexp, shr.
  assert (shr_m (shr_record_of_loc m l) = m) as Hrec
      by (destruct l as [|[| |]]; reflexivity).
  destruct (fexp prec emax (Zdigits2 m + e) - e) as [|p|p] eqn:E.
  - exists 0. cbn [fst snd]. rewrite Hrec, Z.div_1_r. lia.
  - exists (Zpos p). cbn [fst snd].
    rewrite iter_shr_1_m by (rewrite Hrec; assumption).
    rewrite Hrec. lia.
  - exists 0. cbn [fst snd]. rewrite Hrec, Z.div_1_r. lia.
Qed.

Lemma round_nearest_even_range (m : Z) (l : location) :
  m <= round_nearest_even m l <= m + 1.
Proof.
  unfold round_nearest_even.
  destruct l as [|[| |]]; try destruct (Z.even m); lia.
Qed.

Lemma fexp_le (z : Z) : z <= 1024 -> fexp prec emax z <= 971.
Proof. unfold fexp, emin, prec, emax. lia. Qed.

(** Rounding a mantissa below [2^(1023-e)] at an exponent [e] up to 971
    does not overflow. *)
Lemma binary_round_aux_finite (sx : bool) (mx ex : Z) (lx : location) :
  0 <= mx -> ex <= 971 -> mx < 2 ^ (1023 - ex) ->
  match binary_round_aux prec emax sx mx ex lx with
  | S754_zero _ | S754_finite _ _ _ => True
  | _ => False
  end.
Proof.
  intros Hm He Hlt. unfold binary_round_aux.
  destruct (shr_fexp_spec mx ex lx Hm) as (k & Hk & He1 & Hm1 & Hmax).
  destruct (shr_fexp prec emax mx ex lx) as [mrs' e'].
  cbn [fst snd] in He1, Hm1. subst e'.
  pose proof (round_nearest_even_range (shr_m mrs') (loc_of_shr_record mrs'))
    as Hr.
  set (mr := round_nearest_even (shr_m mrs') (loc_of_shr_record mrs')) in *.
  assert (0 < 2 ^ k) as Hpk by (apply Z.pow_pos_nonneg; lia).
  assert (0 <= shr_m mrs') as Hm1pos
      by (rewrite Hm1; apply Z.div_pos; lia).
  assert (Zdigits2 mx + ex <= 1023) as Hd.
  { pose proof (Zdigits2_le mx (1023 - ex) Hm ltac:(lia) Hlt). lia. }
  assert (ex + k <= 971) as He1.
  { rewrite Hmax. pose proof (fexp_le (Zdigits2 mx + ex) ltac:(lia)). lia. }
  assert (shr_m mrs' < 2 ^ (1023 - (ex + k))) as Hm1lt.
  { rewrite Hm1. apply Z.div_lt_upper_bound; [lia|].
    rewrite <- Z.pow_add_r by lia.
    replace (k + (1023 - (ex + k))) with (1023 - ex) by lia. exact Hlt. }
  assert (mr < 2 ^ (1024 - (ex + k))) as Hmr.
  { replace (1024 - (ex + k)) with (Z.succ (1023 - (ex + k))) by lia.
    rewrite Z.pow_succ_r by lia. lia. }
  destruct (shr_fexp_spec mr (ex + k) loc_Exact ltac:(lia))
    as (k2 & Hk2 & He2 & Hm2 & Hmax2).
  destruct (shr_fexp prec emax mr (ex + k) loc_Exact) as [mrs'' e''].
  cbn [fst snd] in He2, Hm2. subst e''.
  assert (0 <= shr_m mrs'') as Hm2pos.
  { rewrite Hm2. apply Z.div_pos; [lia|]. apply Z.pow_pos_nonneg; lia. }
  destruct (shr_m mrs'') as [|p|p]; [exact I| |lia].
  assert (ex + k + k2 <= 971) as Hfin.
  { rewrite Hmax2.
    pose proof (Zdigits2_le mr (1024 - (ex + k)) ltac:(lia) ltac:(lia) Hmr).
    pose proof (fexp_le (Zdigits2 mr + (ex + k)) ltac:(lia)). lia. }
  unfold emax, prec. destruct (Z.leb_spec (ex + k + k2) (1024 - 53));
    [exact I | lia].
Qed.

Lemma valid_finite_bounds (x : float) s m e :
  Prim2SF x = S754_finite s m e ->
  Zpos (digits2_pos m) + e <= 1024.
Proof.
  intros E. pose proof (Prim2SF_valid x) as Hv. rewrite E in Hv.
  unfold valid_binary, bounded, canonical_mantissa, fexp, emin in Hv.
  apply andb_true_iff in Hv as [Hc He].
  apply Z.eqb_eq in Hc. apply Z.leb_le in He.
  unfold prec, emax in *. lia.
Qed.

Lemma SFdiv_finite s m e sc mc ec :
  Zpos (digits2_pos m) + e <= 1024 ->
  2 <= Zpos (digits2_pos mc) + ec ->
  match SF64div (S754_finite s m e) (S754_finite sc mc ec) with
  | S754_zero _ | S754_finite _ _ _ => True
  | _ => False
  end.
Proof.
  intros Hd Hc. unfold SF64div, SFdiv, SFdiv_core_binary.
  cbn [Zdigits2].
  set (d1 := Zpos (digits2_pos m)) in *.
  set (d2 := Zpos (digits2_pos mc)) in *.
  set (e' := Z.min (fexp prec emax (d1 + e - (d2 + ec))) (e - ec)).
  set (m' := match e - ec - e' with
             | 0 => Zpos m
             | Zpos _ => Z.shiftl (Zpos m) (e - ec - e')
             | Zneg _ => 0
             end).
  assert (e' <= 969) as He'.
  { unfold e', fexp, emin, prec, emax. lia. }
  assert (0 <= e - ec - e') as Hs by (unfold e'; lia).
  assert (m' = Zpos m * 2 ^ (e - ec - e')) as Hm'.
  { unfold m'. destruct (e - ec - e') as [|p|p] eqn:Es.
    - rewrite Z.pow_0_r. lia.
    - now rewrite Z.shiftl_mul_pow2 by lia.
    - lia. }
  assert (0 < 2 ^ (e - ec - e')) as Hps by (apply Z.pow_pos_nonneg; lia).
  assert (0 <= m') as Hm'pos by (rewrite Hm'; lia).
  assert (m' < 2 ^ (d1 + (e - ec - e'))) as Hm'lt.
  { rewrite Hm', Z.pow_add_r by (unfold d1; lia).
    apply Z.mul_lt_mono_pos_r; [assumption|]. apply digits2_pos_upper. }
  pose proof (digits2_pos_lower mc) as Hmc. fold d2 in Hmc.
  destruct (Z.div_eucl m' (Zpos mc)) as [q r] eqn:Hdiv.
  assert (q = m' / Zpos mc) as Hq
      by (unfold Z.div; now rewrite Hdiv).
  apply binary_round_aux_finite.
  - rewrite Hq. apply Z.div_pos; lia.
  - lia.
  - destruct (Z.lt_ge_cases q (2 ^ (1023 - e'))) as [Hlt|Hge]; [exact Hlt|].
    exfalso.
    pose proof (Z.mul_div_le m' (Zpos mc) ltac:(lia)) as Hle.
    rewrite <- Hq in Hle.
    assert (2 ^ (d1 + (e - ec - e')) <= 2 ^ (1023 - e') * 2 ^ (d2 - 1))
      as Hpow.
    { rewrite <- Z.pow_add_r by (unfold d2; lia).
      apply Z.pow_le_mono_r; unfold d1, d2 in *; lia. }
    assert (0 < 2 ^ (d2 - 1)) by (apply Z.pow_pos_nonneg; unfold d2; lia).
    assert (0 < 2 ^ (1023 - e')) by (apply Z.pow_pos_nonneg; lia).
    assert (2 ^ (1023 - e') * 2 ^ (d2 - 1) <= q * Zpos mc)
        by (apply Z.mul_le_mono_nonneg; lia).
    lia.
Qed.

Lemma class_finite (x : float) :
  match Prim2SF x with
  | S754_zero _ | S754_finite _ _ _ => True
  | _ => False
  end -> is_finite x = true.
Proof.
  unfold is_finite, is_nan, is_infinity. rewrite !eqb_spec, abs_spec.
  destruct (Prim2SF x) as [s|s| |s m e]; try contradiction; intros _.
  - reflexivity.
  - unfold SFeqb at 1. rewrite SFcompare_key by discriminate.
    rewrite lex_compare_refl. reflexivity.
Qed.

(** Dividing a finite number by a finite number of magnitude two or more
    gives a finite number. *)
Lemma div_finite (d c : float) sc mc ec :
  is_finite d = true ->
  Prim2SF c = S754_finite sc mc ec ->
  2 <= Zpos (digits2_pos mc) + ec ->
  is_finite (d / c) = true.
Proof.
  intros Hfin Hc Hmag. apply class_finite. rewrite div_spec, Hc.
  destruct (finite_cases d Hfin) as [[s E]|(s & m & e & E)]; rewrite E.
  - exact I.
  - apply SFdiv_finite; [|assumption].
    now apply (valid_finite_bounds d s m e).
Qed.

Lemma ltb_number_l (x y : float) :
  (x <? y)%float = true -> Prim2SF x <> S754_nan.
Proof.
  rewrite ltb_spec. unfold SFltb. intros H E. rewrite E in H. discriminate.
Qed.

Lemma string_app_assoc (a b c : string) :
  ((a ++ b) ++ c = a ++ (b ++ c))%string.
Proof. induction a as [|x a IH]; simpl; [reflexivity | now rewrite IH]. Qed.

Lemma occurs_point (a b t : string) :
  t = (a ++ String "." b)%string -> includes t "." = true.
Proof. intros ->. apply includes_occurs. now exists a, b. Qed.

(** *** The string of a natural number below 2^53 *)

Lemma digits2_pos_iter_xO (p : positive) (d : positive) :
  Zpos (digits2_pos (Pos.iter xO p d)) = Zpos (digits2_pos p) + Zpos d.
Proof.
  induction d using Pos.peano_ind.
  - simpl. lia.
  - rewrite Pos.iter_succ. simpl digits2_pos. lia.
Qed.

Lemma Zpos_iter_xO (p d : positive) :
  Zpos (Pos.iter xO p d) = Zpos p * 2 ^ Zpos d.
Proof.
  induction d using Pos.peano_ind.
  - simpl. lia.
  - rewrite Pos.iter_succ, Pos2Z.inj_xO, IHd, Pos2Z.inj_succ, Z.pow_succ_r by lia.
    lia.
Qed.

Lemma aligned_spec (p : positive) :
  Zpos p < 2 ^ 53 ->
  let '(mz, ez) := aligned p in
  Zpos (digits2_pos mz) = 53 /\ ez = Zpos (digits2_pos p) - 53
  /\ Zpos mz = Zpos p * 2 ^ (- ez) /\ -52 <= ez <= 0.
Proof.
  intros Hlt.
  assert (Zpos (digits2_pos p) <= 53) as Hd.
  { apply (Zdigits2_le (Zpos p) 53); lia. }
  unfold aligned, shl_align, fexp, emin, prec, emax.
  destruct (Z.max (Z.pos (digits2_pos p) + 0 - 53) (3 - 1024 - 53) - 0) as [|d|d] eqn:E.
  - assert (Zpos (digits2_pos p) = 53) by lia.
    repeat split; try lia. 
  - lia.
  - assert (Zpos d = 53 - Zpos (digits2_pos p)) by lia.
    rewrite digits2_pos_iter_xO, Zpos_iter_xO.
    repeat split; try lia.
    f_equal. f_equal. lia.
Qed.

Lemma Number_of_Z_spec (p : positive) :
  Zpos p < 2 ^ 53 ->
  Prim2SF (Number_of_Z (Zpos p)) =
  S754_finite false (fst (aligned p)) (snd (aligned p)).
Proof.
  intros Hlt. pose proof (aligned_spec p Hlt) as H.
  unfold Number_of_Z, binary_normalize, binary_round.
  fold (aligned p). destruct (aligned p) as [mz ez]. cbn [fst snd].
  destruct H as (Hd & He & Hm & Hr).
  assert (forall l, shr_fexp prec emax (Zpos mz) ez l
                    = (shr_record_of_loc (Zpos mz) l, ez)) as Hshr.
  { intros l. unfold shr_fexp. cbn [Zdigits2]. rewrite Hd.
    replace (fexp prec emax (53 + ez)) with ez
      by (unfold fexp, emin, prec, emax; lia).
    now rewrite Z.sub_diag. }
  assert (binary_round_aux prec emax false (Zpos mz) ez loc_Exact =
          S754_finite false mz ez) as Hround.
  { unfold binary_round_aux. rewrite Hshr. cbn [shr_record_of_loc shr_m loc_of_shr_record round_nearest_even].
    rewrite Hshr. cbn [shr_record_of_loc shr_m]. unfold emax, prec.
    destruct (Z.leb_spec ez (1024 - 53)); [reflexivity | lia]. }
  rewrite Hround. apply Prim2SF_SF2Prim.
  unfold valid_binary, bounded, canonical_mantissa. rewrite Hd.
  apply andb_true_iff. split.
  - apply Z.eqb_eq. unfold fexp, emin, prec, emax. lia.
  - apply Z.leb_le. unfold emax, prec. lia.
Qed.

Lemma below_pow10_integer (mz : positive) (ez n t j : Z) :
  Zpos mz = n * 2 ^ t -> ez = - t -> 0 <= t ->
  below_pow10 mz ez j = (n * 10 ^ Z.max (- j) 0 <? 10 ^ Z.max j 0).
Proof.
  intros Hm -> Ht. unfold below_pow10.
  replace (Z.max (- t) 0) with 0 by lia.
  replace (Z.max (- - t) 0) with t by lia.
  rewrite Hm, Z.pow_0_r, Z.mul_1_r.
  assert (0 < 2 ^ t) by (apply Z.pow_pos_nonneg; lia).
  apply eq_true_iff_eq. rewrite !Z.ltb_lt.
  replace (n * 2 ^ t * 10 ^ Z.max (- j) 0)
    with (n * 10 ^ Z.max (- j) 0 * 2 ^ t) by ring.
  symmetry. apply Z.mul_lt_mono_pos_r. assumption.
Qed.

Lemma first_n_spec (m : positive) (e : Z) (fuel : nat) : forall g,
  (exists j, g <= j < g + Z.of_nat fuel /\ below_pow10 m e j = true) ->
  let r := first_n fuel m e g in
  g <= r /\ below_pow10 m e r = true
  /\ forall j, g <= j < r -> below_pow10 m e j = false.
Proof.
  induction fuel as [|fuel IH]; intros g (j & Hj & Hb); [lia|].
  simpl first_n. destruct (below_pow10 m e g) eqn:Hg.
  - split; [lia|]. split; [assumption|]. intros; lia.
  - assert (j <> g) by congruence.
    destruct (IH (g + 1)) as (H1 & H2 & H3).
    { exists j. split; [lia | assumption]. }
    split; [lia|]. split; [assumption|].
    intros i Hi. destruct (Z.eq_dec i g) as [->|]; [assumption|].
    apply H3. lia.
Qed.

Lemma guess_ok_all (dp : Z) : 1 <= dp <= 53 -> guess_ok dp = true.
Proof.
  intros H.
  assert (forallb guess_ok (map Z.of_nat (seq 1 53)) = true) as Hall
      by (vm_compute; reflexivity).
  rewrite forallb_forall in Hall. apply Hall.
  replace dp with (Z.of_nat (Z.to_nat dp)) by lia.
  apply in_map, in_seq. lia.
Qed.

Lemma first_n_integer (p : positive) :
  Zpos p < 2 ^ 53 ->
  let '(mz, ez) := aligned p in
  let n0 := first_n 8 mz ez (first_guess mz ez) in
  1 <= n0 <= 16 /\ 10 ^ (n0 - 1) <= Zpos p < 10 ^ n0.
Proof.
  intros Hlt. pose proof (aligned_spec p Hlt) as H.
  destruct (aligned p) as [mz ez]. destruct H as (Hd & He & Hm & Hr).
  set (dp := Zpos (digits2_pos p)) in *.
  assert (1 <= dp <= 53) as Hdp by (unfold dp; lia).
  assert (first_guess mz ez = guess_of_digits dp) as Hg.
  { unfold first_guess, guess_of_digits. rewrite Hd. do 3 f_equal. lia. }
  pose proof (guess_ok_all dp Hdp) as Hok. unfold guess_ok in Hok.
  apply andb_true_iff in Hok as [Hlo Hhi].
  apply Z.leb_le in Hlo, Hhi. rewrite Hg.
  set (g := guess_of_digits dp) in *.
  pose proof (digits2_pos_lower p) as Hpl. fold dp in Hpl.
  pose proof (digits2_pos_upper p) as Hpu. fold dp in Hpu.
  assert (forall j, below_pow10 mz ez j
                    = (Zpos p * 10 ^ Z.max (- j) 0 <? 10 ^ Z.max j 0)) as Hb
      by (intros j; apply (below_pow10_integer mz ez (Zpos p) (- ez)); lia).
  destruct (first_n_spec mz ez 8 g) as (H1 & H2 & H3).
  { exists (g + 7). split; [lia|]. rewrite Hb. apply Z.ltb_lt.
    assert (0 <= g + 7).
    { destruct (Z.lt_ge_cases (g + 7) 0) as [Hneg|]; [|assumption].
      rewrite (Z.pow_neg_r 10 (g + 7)) in Hhi by assumption.
      assert (0 < 2 ^ dp) by (apply Z.pow_pos_nonneg; lia). lia. }
    replace (Z.max (- (g + 7)) 0) with 0 by lia.
    replace (Z.max (g + 7) 0) with (g + 7) by lia.
    rewrite Z.pow_0_r. lia. }
  set (n0 := first_n 8 mz ez g) in *.
  rewrite Hb in H2. apply Z.ltb_lt in H2.
  assert (1 <= n0) as Hn0.
  { destruct (Z.lt_ge_cases n0 1) as [Hsmall|]; [|assumption].
    replace (Z.max n0 0) with 0 in H2 by lia. rewrite Z.pow_0_r in H2.
    assert (0 < 10 ^ Z.max (- n0) 0) by (apply Z.pow_pos_nonneg; lia).
    nia. }
  replace (Z.max (- n0) 0) with 0 in H2 by lia.
  replace (Z.max n0 0) with n0 in H2 by lia.
  rewrite Z.pow_0_r, Z.mul_1_r in H2.
  assert (10 ^ (n0 - 1) <= Zpos p) as Hlow.
  { destruct (Z.eq_dec n0 g) as [E|Hne].
    - rewrite E. lia.
    - specialize (H3 (n0 - 1) ltac:(lia)). rewrite Hb in H3.
      apply Z.ltb_ge in H3.
      replace (Z.max (- (n0 - 1)) 0) with 0 in H3 by lia.
      replace (Z.max (n0 - 1) 0) with (n0 - 1) in H3 by lia.
      rewrite Z.pow_0_r in H3. lia. }
  split; [|lia]. split; [assumption|].
  assert (10 ^ (n0 - 1) < 10 ^ 16) as Hpow.
  { assert (2 ^ 53 < 10 ^ 16) by (vm_compute; reflexivity). lia. }
  apply Z.pow_lt_mono_r_iff in Hpow; lia.
Qed.

Lemma floor_le (a b s : Z) : 0 < b -> (s <= a / b <-> s * b <= a).
Proof.
  intros Hb. pose proof (Z.div_mod a b ltac:(lia)).
  pose proof (Z.mod_pos_bound a b Hb). split; intros; nia.
Qed.

Lemma floor_lt (a b s : Z) : 0 < b -> (a / b < s <-> a < s * b).
Proof.
  intros Hb. pose proof (Z.div_mod a b ltac:(lia)).
  pose proof (Z.mod_pos_bound a b Hb). split; intros; nia.
Qed.

Lemma ceil_le (a b s : Z) : 0 < b -> (ceil_div a b <= s <-> a <= s * b).
Proof.
  intros Hb. unfold ceil_div.
  pose proof (floor_le (- a) b (- s) Hb). lia.
Qed.

Lemma ceil_lt (a b s : Z) : 0 < b -> (s < ceil_div a b <-> s * b < a).
Proof.
  intros Hb. unfold ceil_div.
  pose proof (floor_lt (- a) b (- s) Hb). lia.
Qed.

Section IntegerDigits.
Variables (mz : positive) (ez n : Z).
Hypothesis Hn : 1 <= n.
Hypothesis Hez : ez <= 0.
Hypothesis Hmz : Zpos mz = n * 2 ^ (- ez).

(** The candidates of [digits_for], before the bounds on the digit count:
    only the digits of the number itself round to it. *)
Lemma candidates_integer (j s : Z) (inclusive : bool) :
  0 <= j ->
  let A := 10 ^ j * 2 ^ (2 - ez) in
  let lo := interval_low mz ez in
  let hi := interval_high mz in
  ((if inclusive then ceil_div lo A else lo / A + 1) <= s
   /\ s <= (if inclusive then hi / A else ceil_div hi A - 1))
  <-> s * 10 ^ j = n.
Proof.
  intros Hj A lo hi.
  assert (0 < 10 ^ j) as H10 by (apply Z.pow_pos_nonneg; lia).
  assert (4 <= 2 ^ (2 - ez)) as HP.
  { change 4 with (2 ^ 2). apply Z.pow_le_mono_r; lia. }
  assert (0 < A) as HA by (unfold A; nia).
  assert (4 * Zpos mz = n * 2 ^ (2 - ez)) as H4.
  { rewrite Hmz. replace (2 - ez) with (2 + - ez) by lia.
    rewrite Z.pow_add_r by lia. change (2 ^ 2) with 4. ring. }
  assert (hi = n * 2 ^ (2 - ez) + 2) as Hhi
      by (unfold hi, interval_high; lia).
  assert (exists dl, (dl = 1 \/ dl = 2) /\ lo = n * 2 ^ (2 - ez) - dl)
    as (dl & Hdl & Hlo).
  { unfold lo, interval_low.
    destruct ((Zpos mz =? 2 ^ 52) && (-1074 <? ez));
      [exists 1 | exists 2]; split; auto; lia. }
  assert (forall x, x * A = x * 10 ^ j * 2 ^ (2 - ez)) as HxA
      by (intros; unfold A; ring).
  destruct inclusive.
  - rewrite ceil_le, floor_le by assumption. rewrite HxA, Hhi, Hlo.
    split; [intros [H1 H2]; nia | intros <-; nia].
  - assert (lo / A + 1 <= s <-> lo / A < s) as -> by lia.
    assert (s <= ceil_div hi A - 1 <-> s < ceil_div hi A) as -> by lia.
    rewrite floor_lt, ceil_lt by assumption. rewrite HxA, Hhi, Hlo.
    split; [intros [H1 H2]; nia | intros <-; nia].
Qed.

Lemma digits_for_integer (k n' : Z) :
  1 <= k <= n' ->
  (forall s, digits_for mz ez k n' = Some s ->
             s * 10 ^ (n' - k) = n /\ 10 ^ (k - 1) <= s < 10 ^ k)
  /\ (forall s, s * 10 ^ (n' - k) = n -> 10 ^ (k - 1) <= s < 10 ^ k ->
                digits_for mz ez k n' = Some s).
Proof.
  intros Hk. unfold digits_for.
  replace (Z.max (n' - k) 0) with (n' - k) by lia.
  replace (Z.max (2 - ez) 0) with (2 - ez) by lia.
  replace (Z.max (ez - 2) 0) with 0 by lia.
  replace (Z.max (- (n' - k)) 0) with 0 by lia.
  rewrite !Z.pow_0_r, !Z.mul_1_r.
  set (A := 10 ^ (n' - k) * 2 ^ (2 - ez)).
  set (inclusive := Z.even (Zpos mz)).
  set (slo := if inclusive then ceil_div (interval_low mz ez) A
              else interval_low mz ez / A + 1).
  set (shi := if inclusive then interval_high mz / A
              else ceil_div (interval_high mz) A - 1).
  pose proof (fun s => candidates_integer (n' - k) s inclusive ltac:(lia))
    as Hc. cbv zeta in Hc. fold A slo shi in Hc.
  split.
  - intros s Hs.
    destruct (Z.ltb_spec (Z.min (10 ^ k - 1) shi) (Z.max (10 ^ (k - 1)) slo))
      as [|Hne]; [discriminate|].
    injection Hs as Hs.
    assert (slo <= Z.max (10 ^ (k - 1)) slo <= shi) as Hin1 by lia.
    assert (slo <= Z.min (10 ^ k - 1) shi <= shi) as Hin2 by lia.
    apply Hc in Hin1, Hin2.
    assert (0 < 10 ^ (n' - k)) by (apply Z.pow_pos_nonneg; lia).
    assert (Z.max (10 ^ (k - 1)) slo = Z.min (10 ^ k - 1) shi) as E by nia.
    split; [|lia].
    replace s with (Z.max (10 ^ (k - 1)) slo) by lia. assumption.
  - intros s Hs Hd.
    assert (slo <= s <= shi) as Hin by (now apply Hc).
    assert (slo = s) as Hlo.
    { destruct (Z.eq_dec slo s); [assumption|].
      assert (slo <= slo <= shi) as Hx by lia. apply Hc in Hx.
      assert (0 < 10 ^ (n' - k)) by (apply Z.pow_pos_nonneg; lia). nia. }
    assert (shi = s) as Hhi.
    { destruct (Z.eq_dec shi s); [assumption|].
      assert (slo <= shi <= shi) as Hx by lia. apply Hc in Hx.
      assert (0 < 10 ^ (n' - k)) by (apply Z.pow_pos_nonneg; lia). nia. }
    destruct (Z.ltb_spec (Z.min (10 ^ k - 1) shi) (Z.max (10 ^ (k - 1)) slo))
      as [Hlt|Hne]; [lia|].
    f_equal. lia.
Qed.

End IntegerDigits.

Section IntegerSearch.
Variables (mz : positive) (ez n n0 : Z).
Hypothesis Hn : 1 <= n.
Hypothesis Hez : ez <= 0.
Hypothesis Hmz : Zpos mz = n * 2 ^ (- ez).
Hypothesis Hn0 : 1 <= n0.
Hypothesis Hdigits : 10 ^ (n0 - 1) <= n < 10 ^ n0.

Lemma search_integer (fuel : nat) : forall k,
  1 <= k <= n0 -> n0 - k < Z.of_nat fuel ->
  exists k0 s0,
    search fuel mz ez n0 k = (n0, k0, s0)
    /\ k <= k0 <= n0 /\ s0 * 10 ^ (n0 - k0) = n /\ 0 < s0.
Proof.
  induction fuel as [|fuel IH]; intros k Hk Hfuel; [lia|].
  simpl search.
  destruct (digits_for_integer mz ez n Hn Hez Hmz k n0 ltac:(lia))
    as [Hsome Hfind].
  destruct (digits_for mz ez k n0) as [s|] eqn:E1.
  - destruct (Hsome s eq_refl) as [Hs Hd].
    assert (0 < 10 ^ (k - 1)) by (apply Z.pow_pos_nonneg; lia).
    exists k, s. repeat split; lia.
  - destruct (digits_for_integer mz ez n Hn Hez Hmz k (n0 + 1) ltac:(lia))
      as [Hsome' _].
    destruct (digits_for mz ez k (n0 + 1)) as [s|] eqn:E2.
    + exfalso. destruct (Hsome' s eq_refl) as [Hs Hd].
      assert (10 ^ (k - 1) * 10 ^ (n0 + 1 - k) <= n).
      { rewrite <- Hs. apply Z.mul_le_mono_nonneg_r; [|lia].
        apply Z.pow_nonneg. lia. }
      rewrite <- Z.pow_add_r in H by lia.
      replace (k - 1 + (n0 + 1 - k)) with n0 in H by lia. lia.
    + destruct (Z.eq_dec k n0) as [->|Hne].
      * assert (None = Some n) as Hx; [|discriminate].
        apply Hfind; [|lia]. rewrite Z.sub_diag, Z.pow_0_r. lia.
      * destruct (IH (k + 1) ltac:(lia) ltac:(lia))
          as (k0 & s0 & H1 & H2 & H3 & H4).
        exists k0, s0. repeat split; try assumption; lia.
Qed.

End IntegerSearch.

Lemma string_of_revapp (d acc : Decimal.uint) :
  NilEmpty.string_of_uint (Decimal.revapp d acc) =
  (NilEmpty.string_of_uint (Decimal.rev d)
   ++ NilEmpty.string_of_uint acc)%string.
Proof.
  revert acc. unfold Decimal.rev.
  induction d as [|d IH|d IH|d IH|d IH|d IH|d IH|d IH|d IH|d IH|d IH];
    intros acc; simpl Decimal.revapp; [reflexivity|..];
    rewrite IH; symmetry; rewrite IH, string_app_assoc; reflexivity.
Qed.

Lemma revapp_iter_D0 (j : nat) : forall d acc,
  Decimal.revapp (Nat.iter j Decimal.D0 d) acc =
  Decimal.revapp d (Nat.iter j Decimal.D0 acc).
Proof.
  induction j as [|j IH]; intros d acc; [reflexivity|].
  simpl Nat.iter at 1. simpl Decimal.revapp. rewrite IH.
  f_equal. clear. induction j as [|j IH]; simpl; [reflexivity|].
  now rewrite <- IH.
Qed.

Lemma string_of_iter_D0 (j : nat) :
  NilEmpty.string_of_uint (Nat.iter j Decimal.D0 Decimal.Nil) = zeros j.
Proof. induction j as [|j IH]; simpl; [reflexivity | now rewrite IH]. Qed.

Lemma to_lu_pow10 (j : nat) (q : positive) :
  DecimalPos.Unsigned.to_lu (Npos q * 10 ^ N.of_nat j)%N =
  Nat.iter j Decimal.D0 (DecimalPos.Unsigned.to_lu (Npos q)).
Proof.
  induction j as [|j IH].
  - simpl. now rewrite Pos.mul_1_r.
  - rewrite Nat2N.inj_succ, N.pow_succ_r'.
    replace (N.pos q * (10 * 10 ^ N.of_nat j))%N
      with (10 * (N.pos q * 10 ^ N.of_nat j))%N by lia.
    destruct (N.pos q * 10 ^ N.of_nat j)%N as [|r] eqn:E.
    + exfalso. apply N.eq_mul_0 in E as [E|E]; [discriminate|].
      apply N.pow_nonzero in E; [assumption | discriminate].
    + rewrite DecimalPos.Unsigned.to_ldec_tenfold, IH. reflexivity.
Qed.

Lemma decimal_pos (q : positive) :
  decimal (Zpos q) =
  NilEmpty.string_of_uint
    (Decimal.rev (DecimalPos.Unsigned.to_lu (Npos q))).
Proof.
  unfold decimal. simpl Z.to_N. unfold N.to_uint.
  pose proof (DecimalPos.Unsigned.to_uint_nonnil q) as Hnil.
  unfold Pos.to_uint in *. simpl DecimalPos.Unsigned.to_lu.
  unfold NilZero.string_of_uint.
  destruct (Decimal.rev (Pos.to_little_uint q)); [contradiction|..];
    reflexivity.
Qed.

(** The digits of [s * 10^j] are the digits of [s] and [j] zeros. *)
Lemma decimal_pow10 (s : Z) (j : nat) :
  0 < s ->
  decimal (s * 10 ^ Z.of_nat j) = (decimal s ++ zeros j)%string.
Proof.
  intros Hs. destruct s as [|q|q]; try lia.
  assert (Zpos q * 10 ^ Z.of_nat j
          = Z.of_N (Npos q * 10 ^ N.of_nat j)) as E.
  { rewrite N2Z.inj_mul, N2Z.inj_pow, nat_N_Z. reflexivity. }
  destruct (N.pos q * 10 ^ N.of_nat j)%N as [|r] eqn:Er.
  - exfalso. apply N.eq_mul_0 in Er as [Er|Er]; [discriminate|].
    apply N.pow_nonzero in Er; [assumption | discriminate].
  - rewrite E. simpl Z.of_N. rewrite !decimal_pos, <- Er, to_lu_pow10.
    unfold Decimal.rev at 1. rewrite revapp_iter_D0, string_of_revapp.
    now rewrite string_of_iter_D0.
Qed.

(** The string of a natural number below 2^53 is its decimal digits. *)
Theorem NumberToString_integer (n : Z) :
  0 <= n < 2 ^ 53 -> NumberToString (Number_of_Z n) = decimal n.
Proof.
  intros [Hn Hlt]. destruct n as [|p|p]; [reflexivity| |lia].
  unfold NumberToString. rewrite (Number_of_Z_spec p Hlt).
  pose proof (aligned_spec p Hlt) as Ha.
  pose proof (first_n_integer p Hlt) as Hf.
  destruct (aligned p) as [mz ez]. cbn [fst snd].
  destruct Ha as (Hd & He & Hm & Hr). cbv zeta in Hf.
  destruct Hf as (Hn0 & Hdig).
  unfold shortest.
  set (n0 := first_n 8 mz ez (first_guess mz ez)) in *.
  destruct (search_integer mz ez (Zpos p) n0 ltac:(lia) ltac:(lia) Hm
              ltac:(lia) Hdig 17 1 ltac:(lia) ltac:(lia))
    as (k0 & s0 & Hs & Hk0 & Hprod & Hpos).
  rewrite Hs. unfold render.
  assert ((k0 <=? n0) && (n0 <=? 21) = true) as ->
      by (apply andb_true_iff; split; apply Z.leb_le; lia).
  rewrite <- decimal_pow10 by assumption.
  rewrite Z2Nat.id by lia. now rewrite Hprod.
Qed.

(** C9 (as amended). Take a finite distance or duration that is not
    negative; the kilometres and the minutes are the binary64 quotients by
    1000 and by 60. While the kilometres stay below 1e21, the distance text
    is the number of tenths nearest to the kilometres (the larger on a tie)
    written with one decimal, followed by " km"; from 1e21 on it is the
    number converted to a string as it is, in exponent notation with the
    digits it needs, followed by " km": "1.2e+23 km" for 1.2e26 metres. The
    duration text is the Number of the integer nearest to the minutes (the
    larger on a tie), as a string, followed by " min"; below 2^53 that
    string is the decimal digits of the integer. 12345 metres give
    "12.3 km" and 125 seconds give "2 min". *)
Theorem format_distance_duration (d : float) :
  is_finite d = true ->
  (0 <=? d)%float = true ->
  (if (d / 1000 <? 1e21)%float
   then exists num den n,
          value_of (d / 1000) = Some (num, den)
          /\ nearest_integer n (10 * num) den
          /\ 0 <= n
          /\ formatDistance d = (fixed1 n ++ " km")%string
   else formatDistance d = (NumberToString (d / 1000) ++ " km")%string)
  /\ (exists num den n,
        value_of (d / 60) = Some (num, den)
        /\ nearest_integer n num den
        /\ 0 <= n
        /\ formatDuration d =
           (NumberToString (Number_of_Z n) ++ " min")%string
        /\ (n < 2 ^ 53 ->
            formatDuration d = (decimal n ++ " min")%string))
  /\ formatDistance 12345 = "12.3 km"%string
  /\ formatDuration 125 = "2 min"%string
  /\ formatDistance 0x1.8d0bf423c03d9p+86 = "1.2e+23 km"%string.
Proof.
  intros Hfin Hpos.
  split; [|split; [|repeat split; vm_compute; reflexivity]].
  - assert (exists mc ec, Prim2SF 1000 = S754_finite false mc ec
                          /\ 2 <= Zpos (digits2_pos mc) + ec)
      as (mc & ec & Hc & Hmag)
        by (do 2 eexists; split; [vm_compute; reflexivity | vm_compute; discriminate]).
    pose proof (div_sign d 1000 mc ec Hfin Hpos Hc) as Hs.
    pose proof (div_finite d 1000 false mc ec Hfin Hc Hmag) as Hq.
    unfold formatDistance, toFixed1, value_of.
    destruct (finite_cases _ Hq) as [[s E]|(s & m & e & E)].
    + assert ((d / 1000 <? 1e21)%float = true) as ->
          by (rewrite ltb_spec, E; now destruct s).
      rewrite E. exists 0, 1, 0. repeat split; try lia.
    + rewrite E in Hs. subst s.
      destruct (d / 1000 <? 1e21)%float eqn:Hlt; rewrite E.
      * rewrite (below_1e21 _ m e Hlt E).
        pose proof (fraction_den_pos false m e) as Hden.
        pose proof (fraction_num_nonneg m e) as Hnum.
        destruct (fraction false m e) as [num den]. cbn [fst snd] in *.
        exists num, den, (round_half_up (10 * num) den).
        split; [reflexivity|]. split; [now apply round_half_up_nearest|].
        split; [apply round_half_up_nonneg; lia | reflexivity].
      * assert (abs (d / 1000) = (d / 1000)%float) as Habs
            by (apply Prim2SF_inj; now rewrite abs_spec, E).
        rewrite Habs.
        assert ((1e21 <=? d / 1000)%float = true) as ->; [|reflexivity].
        apply not_ltb_leb; [| |exact Hlt].
        -- apply number_not_nan. rewrite E. discriminate.
        -- reflexivity.
  - assert (exists mc ec, Prim2SF 60 = S754_finite false mc ec
                          /\ 2 <= Zpos (digits2_pos mc) + ec)
      as (mc & ec & Hc & Hmag)
        by (do 2 eexists; split; [vm_compute; reflexivity | vm_compute; discriminate]).
    pose proof (div_sign d 60 mc ec Hfin Hpos Hc) as Hs.
    pose proof (div_finite d 60 false mc ec Hfin Hc Hmag) as Hq.
    unfold formatDuration, Math_round, value_of.
    destruct (finite_cases _ Hq) as [[s E]|(s & m & e & E)].
    + rewrite E. exists 0, 1, 0.
      assert (NumberToString (d / 60) = "0"%string) as Hz
          by (unfold NumberToString; now rewrite E).
      rewrite Hz. repeat split; try lia.
    + rewrite E in *. subst s.
      pose proof (fraction_den_pos false m e) as Hden.
      pose proof (fraction_num_nonneg m e) as Hnum.
      destruct (fraction false m e) as [num den]. cbn [fst snd] in *.
      exists num, den, (round_half_up num den).
      split; [reflexivity|]. split; [now apply round_half_up_nearest|].
      pose proof (round_half_up_nonneg num den Hnum Hden) as Hn.
      split; [exact Hn|].
      assert ((if round_half_up num den =? 0 then zero
               else Number_of_Z (round_half_up num den))
              = Number_of_Z (round_half_up num den)) as ->
          by (destruct (Z.eqb_spec (round_half_up num den) 0) as [->|];
              reflexivity).
      split; [reflexivity|]. intros Hsafe.
      now rewrite NumberToString_integer by lia.
Qed.

Lemma format_distance_duration_witness :
  is_finite 12345 = true
  /\ (0 <=? 12345)%float = true
  /\ exists n, formatDistance 12345 = (fixed1 n ++ " km")%string.
Proof.
  assert (is_finite 12345 = true) as Hfin by reflexivity.
  assert ((0 <=? 12345)%float = true) as Hpos by reflexivity.
  assert ((12345 / 1000 <? 1e21)%float = true) as Hlt by reflexivity.
  split; [exact Hfin|]. split; [exact Hpos|].
  destruct (format_distance_duration 12345 Hfin Hpos) as (Hkm & _).
  rewrite Hlt in Hkm. destruct Hkm as (num & den & n & _ & _ & _ & H).
  exists n. exact H.
Defined.

(** C9 as stated fails for the distance from 1e21 kilometres on: 1e24
    metres, a finite number that is not negative, give "1e+21 km", which has
    no decimal. *)
Lemma format_distance_counterexample :
  is_finite yotta = true
  /\ (0 <=? yotta)%float = true
  /\ formatDistance yotta = "1e+21 km"%string
  /\ ~ (exists n : Z, formatDistance yotta = (fixed1 n ++ " km")%string).
Proof.
  assert (formatDistance yotta = "1e+21 km"%string) as E
      by (vm_compute; reflexivity).
  repeat split; try assumption. intros [n H]. rewrite E in H.
  unfold fixed1 in H. rewrite string_app_assoc in H.
  apply occurs_point in H. vm_compute in H. discriminate.
Qed.

End Formatting.

(** ** The debounced wrappers *)

Section Debouncing.

(** While the pushes come less than a window apart the timer never
    elapses: after the last push it is pending, a window from that push,
    with the value pushed last, and nothing has been passed on. *)
Lemma run_within_window {T} (pushes : list (Z * T)) (t : Z) (v : T)
    (d : Debouncer.t T) :
  gaps_below (Debouncer.delay d) (map fst (pushes ++ [(t, v)])) ->
  match Debouncer.pending d with
  | Some (deadline, _) => fst (hd (t, v) pushes) < deadline
  | None => True
  end ->
  Debouncer.run (pushes ++ [(t, v)]) d =
    ({| Debouncer.delay := Debouncer.delay d;
        Debouncer.pending := Some (t + Debouncer.delay d, v) |}, []).
Proof.
  revert d. induction pushes as [|[t1 v1] pushes IH]; intros d Hgaps Hd.
  - simpl in *. unfold Debouncer.push, Debouncer.elapse.
    destruct (Debouncer.pending d) as [[deadline value]|]; [|reflexivity].
    destruct (Z.leb_spec deadline t); [lia | reflexivity].
  - rewrite <- app_comm_cons in *.
    cbn [Debouncer.run].
    assert (Debouncer.push t1 v1 d =
            ({| Debouncer.delay := Debouncer.delay d;
                Debouncer.pending := Some (t1 + Debouncer.delay d, v1) |},
             [])) as Hpush.
    { unfold Debouncer.push, Debouncer.elapse. simpl in Hd.
      destruct (Debouncer.pending d) as [[deadline value]|]; [|reflexivity].
      destruct (Z.leb_spec deadline t1); [lia | reflexivity]. }
    rewrite Hpush.
    assert (exists t2 rest, map fst (pushes ++ [(t, v)]) = t2 :: rest
                            /\ t2 = fst (hd (t, v) pushes)) as (t2 & rest & E & E2).
    { destruct pushes as [|[t2 v2] pushes']; simpl; eauto. }
    cbn [map fst] in Hgaps. rewrite E in Hgaps. destruct Hgaps as [Hgap Hrest].
    rewrite <- E in Hrest.
    rewrite IH; [reflexivity | exact Hrest |].
    cbn [Debouncer.pending]. rewrite <- E2. lia.
Qed.

Lemma fires_once {T} (delay : Z) (pushes : list (Z * T)) (t : Z) (v : T)
    (until : Z) :
  gaps_below delay (map fst (pushes ++ [(t, v)])) ->
  Debouncer.fires delay (pushes ++ [(t, v)]) until =
    if t + delay <=? until then [(t + delay, v)] else [].
Proof.
  intros Hgaps. unfold Debouncer.fires.
  rewrite run_within_window; [|exact Hgaps|exact I].
  unfold Debouncer.elapse. cbn.
  destruct (t + delay <=? until); reflexivity.
Qed.

(** A viewport change leaves the trip mode as it is. *)
Lemma onRegionDidChange_runs (coordinates : Position) (st : HomeState) :
  onRegionDidChange coordinates st =
    (Normal tt, setCurrentRegion (Some (regionAt coordinates)) st,
     debouncedFetch (regionAt coordinates)
     :: if isTripModeActive st
        then []
        else [debouncedUpdateLocationName (regionAt coordinates)]).
Proof.
  destruct coordinates as [lon lat]. unfold onRegionDidChange, regionAt.
  unfold bind, read, modify, emit, ret. cbn.
  destruct (isTripModeActive st); reflexivity.
Qed.

Lemma pushed_app wrapper (a b : list (Z * Effect)) :
  pushed wrapper (a ++ b) = pushed wrapper a ++ pushed wrapper b.
Proof. apply flat_map_app. Qed.

(** Every viewport change is one push on the station wrapper. *)
Lemma station_pushes (changes : list (Z * Position)) (st : HomeState) :
  pushed toDebouncedFetch (regionChanges changes st) =
    map (fun change => (fst change, regionAt (snd change))) changes.
Proof.
  revert st. induction changes as [|[t c] changes IH]; intros st;
    [reflexivity|].
  cbn [regionChanges]. rewrite onRegionDidChange_runs, pushed_app, IH.
  destruct (isTripModeActive st); reflexivity.
Qed.

(** Out of trip mode it is one push on the location-name wrapper too; in
    trip mode it is none. *)
Lemma name_pushes (changes : list (Z * Position)) (st : HomeState) :
  pushed toDebouncedUpdateLocationName (regionChanges changes st) =
    if isTripModeActive st then []
    else map (fun change => (fst change, regionAt (snd change))) changes.
Proof.
  revert st. induction changes as [|[t c] changes IH]; intros st.
  - now destruct (isTripModeActive st).
  - cbn [regionChanges]. rewrite onRegionDidChange_runs, pushed_app, IH.
    cbn [isTripModeActive setCurrentRegion].
    destruct (isTripModeActive st); reflexivity.
Qed.

Lemma times_of_changes (changes : list (Z * Position)) :
  map fst (map (fun change => (fst change, regionAt (snd change))) changes)
  = map fst changes.
Proof. rewrite map_map. reflexivity. Qed.

Lemma pushes_of_last (earlier : list (Z * Position)) (t : Z)
    (coordinates : Position) :
  map (fun change => (fst change, regionAt (snd change)))
      (earlier ++ [(t, coordinates)])
  = map (fun change => (fst change, regionAt (snd change))) earlier
    ++ [(t, regionAt coordinates)].
Proof. now rewrite map_app. Qed.

(** C2. Viewport changes that follow each other by less than the window
    of a debounced wrapper (400 ms for the station fetch, 500 ms for the
    location name) make that wrapper pass a region on exactly once: a window
    after the last change, with the region of the last change. Every change
    pushed its own region on the station wrapper, and out of trip mode on
    the location-name wrapper as well; the regions of the earlier changes
    reach nothing. So up to any time [until] the backend is asked at most
    once: not before the window has elapsed after the last change, and from
    then on by the one call of [fetchStationsForRegion], or of
    [updateLocationName], for the last region. In trip mode nothing is
    pushed on the location-name wrapper and it asks nothing. The timer is
    the debouncer of the specification (4.1), the pushes are those of
    [onRegionDidChange]. *)
Theorem debounced_once (earlier : list (Z * Position)) (t : Z)
    (coordinates : Position) (st : HomeState) (until : Z) :
  let changes := earlier ++ [(t, coordinates)] in
  let calls := regionChanges changes st in
  let last := regionAt coordinates in
  (gaps_below debouncedFetch_wait (map fst changes) ->
   let fired :=
     Debouncer.fires debouncedFetch_wait (pushed toDebouncedFetch calls)
                     until in
   map snd (pushed toDebouncedFetch calls)
     = map (fun change => regionAt (snd change)) changes
   /\ fired = (if t + 400 <=? until then [(t + 400, last)] else [])
   /\ forall cells,
        fetchCalls cells fired =
          if t + 400 <=? until
          then [(t + 400,
                 invoke_get_google_stations (snd coordinates)
                                            (fst coordinates))]
          else [])
  /\ (gaps_below debouncedUpdateLocationName_wait (map fst changes) ->
      let fired :=
        Debouncer.fires debouncedUpdateLocationName_wait
                        (pushed toDebouncedUpdateLocationName calls) until in
      if isTripModeActive st
      then pushed toDebouncedUpdateLocationName calls = [] /\ fired = []
      else
        map snd (pushed toDebouncedUpdateLocationName calls)
          = map (fun change => regionAt (snd change)) changes
        /\ fired = (if t + 500 <=? until then [(t + 500, last)] else [])
        /\ forall screen,
             locationNameCalls screen fired =
               if t + 500 <=? until
               then [(t + 500,
                      Location_reverseGeocodeAsync (snd coordinates)
                                                   (fst coordinates))]
               else []).
Proof.
  intros changes calls last. subst calls. split.
  - intros Hgaps fired. subst fired. rewrite station_pushes.
    split; [now rewrite map_map|].
    subst changes. rewrite pushes_of_last, fires_once.
    + split; [reflexivity|]. intros cells.
      destruct (t + debouncedFetch_wait <=? until) eqn:E;
        change debouncedFetch_wait with 400 in E; rewrite E; reflexivity.
    + now rewrite <- pushes_of_last, times_of_changes.
  - intros Hgaps fired. subst fired. rewrite name_pushes.
    destruct (isTripModeActive st); [split; reflexivity|].
    split; [now rewrite map_map|].
    subst changes. rewrite pushes_of_last, fires_once.
    + split; [reflexivity|]. intros screen.
      destruct (t + debouncedUpdateLocationName_wait <=? until) eqn:E;
        change debouncedUpdateLocationName_wait with 500 in E; rewrite E;
        reflexivity.
    + now rewrite <- pushes_of_last, times_of_changes.
Qed.

Lemma debounced_once_witness :
  gaps_below debouncedFetch_wait (map fst pan)
  /\ gaps_below debouncedUpdateLocationName_wait (map fst pan)
  /\ List.length (pushed toDebouncedFetch (regionChanges pan two_stations))
     = 5%nat
  /\ Debouncer.fires debouncedFetch_wait
       (pushed toDebouncedFetch (regionChanges pan two_stations)) 2000
     = [(1400, regionAt (3.75, 6.75)%float)]
  /\ Debouncer.fires debouncedFetch_wait
       (pushed toDebouncedFetch (regionChanges pan two_stations)) 1399
     = []
  /\ Debouncer.fires debouncedUpdateLocationName_wait
       (pushed toDebouncedUpdateLocationName (regionChanges pan two_stations))
       2000
     = [(1500, regionAt (3.75, 6.75)%float)].
Proof.
  assert (gaps_below debouncedFetch_wait (map fst pan)) as H400.
  { unfold debouncedFetch_wait. simpl. lia. }
  assert (gaps_below debouncedUpdateLocationName_wait (map fst pan)) as H500.
  { unfold debouncedUpdateLocationName_wait. simpl. lia. }
  split; [exact H400|]. split; [exact H500|].
  split; [reflexivity|].
  pose proof (debounced_once
                [(0, (3.375, 6.5)%float); (120, (3.5, 6.5)%float);
                 (300, (3.5, 6.625)%float); (650, (3.625, 6.625)%float)]
                1000 (3.75, 6.75)%float two_stations) as H.
  split; [|split].
  - destruct (H 2000) as [Hs _]. destruct (Hs H400) as (_ & Hf & _).
    exact Hf.
  - destruct (H 1399) as [Hs _]. destruct (Hs H400) as (_ & Hf & _).
    exact Hf.
  - destruct (H 2000) as [_ Hn]. destruct (Hn H500) as (_ & Hf & _).
    exact Hf.
Defined.

End Debouncing.

(** ** More on the station merge *)

Section MergeComposition.
Import JSMap JSMapFacts.

(** The map rebuilt from the merged list is the map the merge ended on. *)
Lemma stationMap_of_merge (S B : list Station) :
  set_all (mergeStations S B) [] = set_all B (set_all S []).
Proof.
  rewrite (merge_unfold S B).
  set (M := set_all B (set_all S [])).
  pose proof (merged_map_NoDup S B) as Hnd. fold M in Hnd.
  pose proof (merged_map_keyed S B) as Hkd. fold M in Hkd.
  rewrite stationMap_unique.
  - symmetry. now apply keyed_entries.
  - unfold unique_ids. now rewrite <- keyed_keys.
Qed.

Lemma merge_twice (S B1 B2 : list Station) :
  mergeStations (mergeStations S B1) B2 = mergeStations S (B1 ++ B2).
Proof.
  rewrite (merge_unfold (mergeStations S B1) B2), stationMap_of_merge.
  rewrite (merge_unfold S (B1 ++ B2)).
  unfold set_all. rewrite fold_left_app. reflexivity.
Qed.

(** X1. Two station fetches that succeed and resume one after the other
    leave the cells, the station list among them, as one fetch with both
    batches, the earlier first, would leave them. So the station kept under
    an id is the last record for it in the batch that resumed last among
    those that have the id, whichever was asked for first, and the record
    the list had before when neither batch has it. *)
Theorem merge_of_two_batches (st : HomeState) (B1 B2 : list Station) :
  let st1 := afterFetch B1 st in
  let st2 := afterFetch B2 st1 in
  fetchStationsForRegion_settle (Fulfilled (Data B1)) st
    = (Normal tt, st1, [])
  /\ fetchStationsForRegion_settle (Fulfilled (Data B2)) st1
    = (Normal tt, st2, [])
  /\ stations st2 = mergeStations (mergeStations (stations st) B1) B2
  /\ st2 = afterFetch (B1 ++ B2) st
  /\ stations st2 = mergeStations (stations st) (B1 ++ B2)
  /\ forall k,
       find_by_id k (stations st2) =
       match latest B2 k, latest B1 k with
       | Some s, _ => Some s
       | None, Some s => Some s
       | None, None => latest (stations st) k
       end.
Proof.
  intros st1 st2.
  assert (stations st2 = mergeStations (mergeStations (stations st) B1) B2)
    as Hst by reflexivity.
  split; [reflexivity|]. split; [reflexivity|]. split; [exact Hst|].
  split; [|split].
  - subst st2 st1. unfold afterFetch. cbn.
    unfold setIsLoading, setStations. cbn. now rewrite merge_twice.
  - rewrite Hst. apply merge_twice.
  - intros k. rewrite Hst, find_by_id_merge.
    destruct (latest B2 k) as [s|]; [reflexivity|].
    rewrite (latest_unique _ k (merge_unique_ids (stations st) B1)).
    apply find_by_id_merge.
Qed.

Lemma fresh_keys_length (ks : list Z) : forall seen,
  (List.length (fresh_keys seen ks) <= List.length ks)%nat.
Proof.
  induction ks as [|k ks IH]; intros seen; simpl; [lia|].
  destruct (existsb (Z.eqb k) seen); simpl.
  - specialize (IH seen). lia.
  - specialize (IH (seen ++ [k])). lia.
Qed.

(** X2. However a station fetch settles, it removes no station: every
    id of the list is still there when it has resumed and the list is not
    shorter. A fetch that failed, by rejection or by a backend error, leaves
    the list as it was; one that succeeded leaves the merge, which has all
    the ids of the batch and at most as many more stations as the batch has,
    and is the old list itself when the batch is empty. *)
Theorem merge_never_shrinks (st : HomeState)
    (response : settled (InvokeResult (list Station))) :
  unique_ids (stations st) ->
  let st' := snd (fst (fetchStationsForRegion_settle response st)) in
  (forall k, In k (map id (stations st)) -> In k (map id (stations st')))
  /\ (List.length (stations st) <= List.length (stations st'))%nat
  /\ match response with
     | Fulfilled (Data data) =>
         stations st' = mergeStations (stations st) data
         /\ (List.length (stations st')
             <= List.length (stations st) + List.length data)%nat
         /\ (forall s, In s data -> In (id s) (map id (stations st')))
         /\ (data = [] -> stations st' = stations st)
     | _ => stations st' = stations st
     end.
Proof.
  intros HS st'.
  destruct response as [[data|err]|reason];
    [|subst st'; cbn; repeat split; auto..].
  assert (stations st' = mergeStations (stations st) data) as Hst
    by reflexivity.
  rewrite Hst. clear Hst st'.
  destruct (merge_shape (stations st) data HS) as (appended & E & Hids & _).
  assert (List.length appended <= List.length data)%nat as Hlen.
  { rewrite <- (length_map id appended), Hids, <- (length_map id data).
    apply fresh_keys_length. }
  split; [|split; [|split; [|split; [|split]]]].
  - intros k Hk. rewrite E, map_app, map_map. apply in_or_app. left.
    rewrite (List.map_ext _ id (overwrite_id data)). exact Hk.
  - rewrite E, length_app, length_map. lia.
  - reflexivity.
  - rewrite E, length_app, length_map. lia.
  - intros s Hs.
    pose proof (find_by_id_merge (stations st) data (id s)) as Hfind.
    destruct (latest data (id s)) as [s'|] eqn:El.
    + unfold find_by_id in Hfind. apply find_some in Hfind as [Hin Hid].
      apply Z.eqb_eq in Hid. rewrite <- Hid. now apply in_map.
    + apply latest_None in El. exfalso. apply El. now apply in_map.
  - intros ->. rewrite merge_unfold. simpl.
    change (fold_left _ [] ?m) with m.
    rewrite stationMap_unique by assumption.
    unfold values. rewrite map_map. simpl. apply map_id.
Qed.

Lemma merge_never_shrinks_witness :
  unique_ids (stations two_stations)
  /\ stations (snd (fst (fetchStationsForRegion_settle
                           (Fulfilled (Data [station_c; station_a']))
                           two_stations)))
     = [station_a'; station_b; station_c]
  /\ (List.length (stations two_stations) <= 3)%nat.
Proof.
  assert (unique_ids (stations two_stations)) as H.
  { repeat constructor; simpl; intuition discriminate. }
  split; [exact H|].
  destruct (merge_never_shrinks two_stations
              (Fulfilled (Data [station_c; station_a'])) H)
    as (_ & Hlen & Hst & _).
  split; [rewrite Hst; reflexivity | exact Hlen].
Defined.

End MergeComposition.

(** ** Route bounds when coordinates are not finite *)

Section BoundsOnNumbers.

Lemma nan_Prim2SF x : is_nan x = true -> Prim2SF x = S754_nan.
Proof.
  intros H. destruct (Prim2SF x) as [s|s| |s m e] eqn:E; [| |reflexivity|];
    assert (number x) as Hn by (apply number_not_nan; congruence);
    unfold number in Hn; congruence.
Qed.

Lemma ltb_nan_l x y : is_nan x = true -> (x <? y)%float = false.
Proof.
  intros H. rewrite ltb_spec, (nan_Prim2SF x H). reflexivity.
Qed.

Lemma ltb_nan_r x y : is_nan y = true -> (x <? y)%float = false.
Proof.
  intros H. rewrite ltb_spec, (nan_Prim2SF y H).
  unfold SFltb. now destruct (Prim2SF x) as [?|[|]| |? ? ?].
Qed.

(** A scan that has [NaN] as its extremum keeps it. *)
Lemma keep_min_stuck xs : forall m,
  is_nan m = true -> fold_left keep_min xs m = m.
Proof.
  induction xs as [|x xs IH]; intros m H; simpl; [reflexivity|].
  unfold keep_min at 2. rewrite (ltb_nan_r x m H). now apply IH.
Qed.

Lemma keep_max_stuck xs : forall m,
  is_nan m = true -> fold_left keep_max xs m = m.
Proof.
  induction xs as [|x xs IH]; intros m H; simpl; [reflexivity|].
  unfold keep_max at 2. rewrite (ltb_nan_l m x H). now apply IH.
Qed.

(** A scan passes over the values that are [NaN]. *)
Lemma keep_min_numbers xs : forall m,
  fold_left keep_min xs m = fold_left keep_min (numbers xs) m.
Proof.
  induction xs as [|x xs IH]; intros m; simpl; [reflexivity|].
  destruct (is_nan x) eqn:E; simpl; [|apply IH].
  unfold keep_min at 2. rewrite (ltb_nan_l x m E). apply IH.
Qed.

Lemma keep_max_numbers xs : forall m,
  fold_left keep_max xs m = fold_left keep_max (numbers xs) m.
Proof.
  induction xs as [|x xs IH]; intros m; simpl; [reflexivity|].
  destruct (is_nan x) eqn:E; simpl; [|apply IH].
  unfold keep_max at 2. rewrite (ltb_nan_r m x E). apply IH.
Qed.

Lemma numbers_are_numbers xs : Forall number (numbers xs).
Proof.
  apply Forall_forall. intros x Hx. apply filter_In in Hx.
  unfold number. destruct Hx as [_ Hx]. now destruct (is_nan x).
Qed.

Lemma numbers_cons x xs : number x -> numbers (x :: xs) = x :: numbers xs.
Proof. unfold number, numbers. simpl. now intros ->. Qed.

Lemma least_of_numbers x0 xs :
  number x0 ->
  is_least (fold_left keep_min (x0 :: xs) x0) (numbers (x0 :: xs)).
Proof.
  intros H0. rewrite keep_min_numbers, (numbers_cons x0 xs H0).
  apply (least_by keep_min); [apply keep_min_picks|].
  rewrite <- (numbers_cons x0 xs H0). apply numbers_are_numbers.
Qed.

Lemma greatest_of_numbers x0 xs :
  number x0 ->
  is_greatest (fold_left keep_max (x0 :: xs) x0) (numbers (x0 :: xs)).
Proof.
  intros H0. rewrite keep_max_numbers, (numbers_cons x0 xs H0).
  apply (greatest_by keep_max); [apply keep_max_picks|].
  rewrite <- (numbers_cons x0 xs H0). apply numbers_are_numbers.
Qed.

(** X3. The scan of [handleFindTrip] rejects no coordinate. On each axis,
    when the first coordinate is a number (infinite or not), the two bounds
    are the least and the greatest of the coordinates that are numbers, so a
    later [NaN] is passed over; when the first coordinate is [NaN], both
    bounds are that [NaN], whatever follows. *)
Theorem routeBounds_on_any_numbers (c0 : Position) (rest : list Position) :
  exists b,
    routeBounds (c0 :: rest) = Normal b
    /\ (number (fst c0) ->
        is_least (minLon b) (numbers (map fst (c0 :: rest)))
        /\ is_greatest (maxLon b) (numbers (map fst (c0 :: rest))))
    /\ (number (snd c0) ->
        is_least (minLat b) (numbers (map snd (c0 :: rest)))
        /\ is_greatest (maxLat b) (numbers (map snd (c0 :: rest))))
    /\ (is_nan (fst c0) = true -> minLon b = fst c0 /\ maxLon b = fst c0)
    /\ (is_nan (snd c0) = true -> minLat b = snd c0 /\ maxLat b = snd c0).
Proof.
  eexists. split; [reflexivity|].
  rewrite scan_minLon, scan_maxLon, scan_minLat, scan_maxLat.
  cbn [minLon maxLon minLat maxLat].
  split; [|split; [|split]].
  - intros H. split; [now apply least_of_numbers
                     | now apply greatest_of_numbers].
  - intros H. split; [now apply least_of_numbers
                     | now apply greatest_of_numbers].
  - intros H. split; [now apply keep_min_stuck | now apply keep_max_stuck].
  - intros H. split; [now apply keep_min_stuck | now apply keep_max_stuck].
Qed.

Lemma Math_max_nan a b :
  is_nan a = true \/ is_nan b = true -> is_nan (Math_max a b) = true.
Proof.
  unfold Math_max. intros [H|H]; rewrite H, ?orb_true_r; reflexivity.
Qed.

Lemma Math_min_nan a b :
  is_nan a = true \/ is_nan b = true -> is_nan (Math_min a b) = true.
Proof.
  unfold Math_min. intros [H|H]; rewrite H, ?orb_true_r; reflexivity.
Qed.

(** A [reduce] with a step that answers [NaN] to [NaN] ends on [NaN] as
    soon as it starts from one or meets one. *)
Lemma reduce_nan (step : float -> float -> float) :
  (forall a b, is_nan a = true \/ is_nan b = true ->
               is_nan (step a b) = true) ->
  forall xs a,
    is_nan a = true \/ Exists (fun x => is_nan x = true) xs ->
    is_nan (fold_left step xs a) = true.
Proof.
  intros Hstep. induction xs as [|x xs IH]; intros a H; simpl.
  - destruct H as [H|H]; [exact H | inversion H].
  - apply IH. destruct H as [H|H]; [left; apply Hstep; now left|].
    inversion H as [? ? Hx|? ? Hxs]; subst;
      [left; apply Hstep; now right | now right].
Qed.

(** X4. The [reduce] of [fetchRoute] rejects no coordinate either, but one
    [NaN] on an axis is enough to make both corners [NaN] on that axis,
    wherever it stands in the route. *)
Theorem routeCorners_NaN (coordinates : list Position) :
  coordinates <> [] ->
  exists k,
    routeCorners coordinates = Normal k
    /\ (Exists (fun c => is_nan (fst c) = true) coordinates ->
        is_nan (fst (ne k)) = true /\ is_nan (fst (sw k)) = true)
    /\ (Exists (fun c => is_nan (snd c) = true) coordinates ->
        is_nan (snd (ne k)) = true /\ is_nan (snd (sw k)) = true).
Proof.
  destruct coordinates as [|c0 cs]; [congruence | intros _].
  eexists. split; [reflexivity|].
  rewrite widen_sw_lon, widen_sw_lat, widen_ne_lon, widen_ne_lat.
  cbn [sw ne fst snd].
  split; intros H; split;
    (apply reduce_nan; [apply Math_max_nan || apply Math_min_nan|]);
    right; apply Exists_exists; apply Exists_exists in H;
    destruct H as (c & Hc & Hnan);
    ((exists (fst c); split; [now apply in_map | exact Hnan])
     || (exists (snd c); split; [now apply in_map | exact Hnan])).
Qed.

Lemma routeCorners_NaN_witness :
  broken_route <> []
  /\ exists k,
       routeCorners broken_route = Normal k
       /\ is_nan (fst (ne k)) = true /\ is_nan (fst (sw k)) = true.
Proof.
  assert (broken_route <> []) as H by discriminate.
  split; [exact H|].
  destruct (routeCorners_NaN broken_route H) as (k & Hk & Hlon & _).
  exists k. split; [exact Hk|]. apply Hlon.
  apply Exists_cons_tl, Exists_cons_hd. reflexivity.
Defined.

Lemma leb_antisym x y :
  number x -> number y ->
  (x <=? y)%float = true -> (y <=? x)%float = true -> (x =? y)%float = true.
Proof.
  intros Hx Hy Hxy Hyx.
  apply (leb_key x y Hx Hy) in Hxy. apply (leb_key y x Hy Hx) in Hyx.
  rewrite lex_compare_antisym in Hyx.
  rewrite eqb_spec. unfold SFeqb.
  rewrite SFcompare_key by now apply number_not_nan.
  destruct (lex_compare (order_key (Prim2SF x)) (order_key (Prim2SF y)));
    simpl in *; congruence.
Qed.

Lemma least_is_a_number m xs : Forall number xs -> is_least m xs -> number m.
Proof. intros Hall [Hin _]. rewrite Forall_forall in Hall. auto. Qed.

Lemma greatest_is_a_number m xs :
  Forall number xs -> is_greatest m xs -> number m.
Proof. intros Hall [Hin _]. rewrite Forall_forall in Hall. auto. Qed.

Lemma least_agree m1 m2 xs :
  Forall number xs -> is_least m1 xs -> is_least m2 xs ->
  (m1 =? m2)%float = true.
Proof.
  intros Hall H1 H2.
  pose proof (least_is_a_number _ _ Hall H1).
  pose proof (least_is_a_number _ _ Hall H2).
  destruct H1 as [Hin1 Hle1], H2 as [Hin2 Hle2].
  rewrite Forall_forall in Hle1, Hle2. apply leb_antisym; auto.
Qed.

Lemma greatest_agree m1 m2 xs :
  Forall number xs -> is_greatest m1 xs -> is_greatest m2 xs ->
  (m1 =? m2)%float = true.
Proof.
  intros Hall H1 H2.
  pose proof (greatest_is_a_number _ _ Hall H1).
  pose proof (greatest_is_a_number _ _ Hall H2).
  destruct H1 as [Hin1 Hle1], H2 as [Hin2 Hle2].
  rewrite Forall_forall in Hle1, Hle2. apply leb_antisym; auto.
Qed.

(** X5. On a route without [NaN] the two screens fit the camera to the
    same box: the south-west and north-east corners of [fetchRoute] are
    numerically equal to the minima and maxima of [handleFindTrip] (equal
    as numbers; of two zeros of different sign either may be kept). *)
Theorem route_boxes_agree (coords : list Position) :
  coords <> [] ->
  Forall (fun c => number (fst c) /\ number (snd c)) coords ->
  exists b k,
    routeBounds coords = Normal b
    /\ routeCorners coords = Normal k
    /\ (minLon b =? fst (sw k))%float = true
    /\ (minLat b =? snd (sw k))%float = true
    /\ (maxLon b =? fst (ne k))%float = true
    /\ (maxLat b =? snd (ne k))%float = true.
Proof.
  destruct coords as [|c0 cs]; [congruence | intros _ Hall].
  assert (Forall number (map fst (c0 :: cs))
          /\ Forall number (map snd (c0 :: cs))) as [Hlon Hlat].
  { rewrite !Forall_map. split; eapply Forall_impl; try exact Hall;
      simpl; tauto. }
  destruct (routeBounds_extrema c0 cs Hlon Hlat)
    as (b & Hb & B1 & B2 & B3 & B4).
  destruct (routeCorners_extrema c0 cs Hlon Hlat)
    as (k & Hk & K1 & K2 & K3 & K4).
  exists b, k. repeat split; try assumption.
  - exact (least_agree _ _ _ Hlon B1 K1).
  - exact (least_agree _ _ _ Hlat B3 K3).
  - exact (greatest_agree _ _ _ Hlon B2 K2).
  - exact (greatest_agree _ _ _ Hlat B4 K4).
Qed.

Lemma route_boxes_agree_witness :
  example_route <> []
  /\ Forall (fun c => number (fst c) /\ number (snd c)) example_route
  /\ exists b k,
       routeBounds example_route = Normal b
       /\ routeCorners example_route = Normal k
       /\ (minLon b =? fst (sw k))%float = true.
Proof.
  assert (example_route <> []) as H by discriminate.
  assert (Forall (fun c => number (fst c) /\ number (snd c)) example_route)
    as Hall by (repeat constructor).
  split; [exact H|]. split; [exact Hall|].
  destruct (route_boxes_agree example_route H Hall)
    as (b & k & Hb & Hk & E & _).
  exists b, k. auto.
Defined.

End BoundsOnNumbers.

(** ** [HomeScreen]: features, selection and the first region *)

Section HomeSelection.

Lemma filteredStations_subset (l : list Station) (term : string) (s : Station) :
  In s (filteredStations l term) -> In s l.
Proof.
  unfold filteredStations.
  destruct (negb (truthy (trim term))); [auto|].
  intros H. now apply filter_In in H.
Qed.

(** X6. On a station list without repeated ids, a press on any feature
    the map shows, under any filter, selects a station of the list that
    this very feature was made from, and moves the camera to the feature's
    point at zoom 15 in 500 ms; features after the first are not looked
    at. *)
Theorem pressed_feature_selects_its_station
    (st : HomeScreenState) (f : Feature) (others : list PressedFeature) :
  unique_ids (stations (cells st)) ->
  In f (stationsFeatureCollection
          (filteredStations (stations (cells st)) (filterTerm st))) ->
  exists s,
    In s (filteredStations (stations (cells st)) (filterTerm st))
    /\ toFeature s = f
    /\ handleStationPress (Some (Unclustered f :: others)) st =
         (Normal tt, setSelectedStation (Some s) st,
          [Core (setCamera (point_coordinates f) 15 500)]).
Proof.
  intros Hu Hf. unfold stationsFeatureCollection in Hf.
  apply in_map_iff in Hf. destruct Hf as (s & <- & Hs).
  exists s. split; [exact Hs|]. split; [reflexivity|].
  unfold handleStationPress, Act.bind, Act.read. simpl.
  rewrite (find_by_id_unique _ s Hu (filteredStations_subset _ _ _ Hs)).
  reflexivity.
Qed.

Lemma pressed_feature_selects_its_station_witness :
  unique_ids (stations (cells browsing))
  /\ stationsFeatureCollection
       (filteredStations (stations (cells browsing)) (filterTerm browsing))
     = [toFeature station_b]
  /\ exists s,
       toFeature s = toFeature station_b
       /\ handleStationPress (Some [Unclustered (toFeature station_b)])
                             browsing =
            (Normal tt, setSelectedStation (Some s) browsing,
             [Core (setCamera (3.75, 6.25)%float 15 500)]).
Proof.
  assert (unique_ids (stations (cells browsing))) as Hu.
  { repeat constructor; simpl; intuition discriminate. }
  assert (stationsFeatureCollection
            (filteredStations (stations (cells browsing))
                              (filterTerm browsing))
          = [toFeature station_b]) as Hshown by (vm_compute; reflexivity).
  split; [exact Hu|]. split; [exact Hshown|].
  destruct (pressed_feature_selects_its_station browsing
              (toFeature station_b) [] Hu)
    as (s & _ & Hs & Hrun).
  { rewrite Hshown. left. reflexivity. }
  exists s. split; [exact Hs | exact Hrun].
Defined.

Lemma find_by_id_None (k : Z) (l : list Station) :
  find_by_id k l = None <-> ~ In k (map id l).
Proof.
  unfold find_by_id. induction l as [|s l IH]; simpl; [tauto|].
  destruct (id s =? k) eqn:E.
  - apply Z.eqb_eq in E. split; [discriminate | tauto].
  - apply Z.eqb_neq in E. rewrite IH. tauto.
Qed.

Lemma find_by_id_first (k : Z) (l : list Station) (s : Station) :
  find_by_id k l = Some s ->
  exists before after,
    l = before ++ s :: after /\ id s = k /\ ~ In k (map id before).
Proof.
  unfold find_by_id. induction l as [|s0 l IH]; simpl; [discriminate|].
  destruct (id s0 =? k) eqn:E.
  - intros [= <-]. apply Z.eqb_eq in E. now exists [], l.
  - intros H. destruct (IH H) as (before & after & -> & Hid & Hnot).
    exists (s0 :: before), after. repeat split; [assumption|].
    apply Z.eqb_neq in E. simpl. tauto.
Qed.

(** X7. A press that names no station of the list does nothing: an event
    without features or with none, a cluster as the first feature, or a
    feature whose id no station has, leave the selection and the camera as
    they are. Otherwise the station selected is the first of the list with
    the feature's id. *)
Theorem press_without_station (st : HomeScreenState) :
  handleStationPress None st = (Normal tt, st, [])
  /\ handleStationPress (Some []) st = (Normal tt, st, [])
  /\ (forall n others,
        handleStationPress (Some (Cluster n :: others)) st
        = (Normal tt, st, []))
  /\ (forall f others,
        ~ In (prop_id (properties f)) (map id (stations (cells st))) ->
        handleStationPress (Some (Unclustered f :: others)) st
        = (Normal tt, st, []))
  /\ (forall f others st' calls,
        handleStationPress (Some (Unclustered f :: others)) st
        = (Normal tt, st', calls) ->
        calls <> [] ->
        exists s before after,
          stations (cells st) = before ++ s :: after
          /\ id s = prop_id (properties f)
          /\ ~ In (id s) (map id before)
          /\ st' = setSelectedStation (Some s) st).
Proof.
  repeat split.
  - intros f others Hout. apply find_by_id_None in Hout.
    unfold handleStationPress, Act.bind, Act.read. simpl. now rewrite Hout.
  - intros f others st' calls.
    unfold handleStationPress, Act.bind, Act.read. simpl.
    destruct (find_by_id _ _) as [s|] eqn:E; simpl.
    + intros [= <- <-] _.
      destruct (find_by_id_first _ _ _ E) as (before & after & H1 & H2 & H3).
      exists s, before, after. rewrite H2. auto.
    + intros [= <- <-]. congruence.
Qed.

(** X9. Whatever the three calls on [Location] answer, [setupInitialScreen]
    ends normally with a current region whose deltas are 0.1, so that the
    map replaces the loading screen: the region around the last known
    position when permission is granted and there is one, else around the
    current position when that call succeeds, and the default region (and
    an alert, if the permission was answered but not granted) in every other
    case. No other cell changes. *)
Theorem setupInitialScreen_sets_a_region
    (permission : settled PermissionStatus)
    (lastKnown : settled (option LocationCoords))
    (current : settled LocationCoords)
    (theme : Theme) (st : HomeScreenState) :
  exists r calls,
    setupInitialScreen permission lastKnown current st =
      (Normal tt, onCells (setCurrentRegion (Some r)) st, calls)
    /\ r = match permission, lastKnown, current with
           | Fulfilled granted, Fulfilled (Some l), _ => regionAround l
           | Fulfilled granted, Fulfilled None, Fulfilled l => regionAround l
           | _, _, _ => defaultRegion
           end
    /\ latitudeDelta r = 0x1.999999999999ap-4%float
    /\ longitudeDelta r = 0x1.999999999999ap-4%float
    /\ (In permission_denied calls <->
        exists status, permission = Fulfilled status /\ status <> granted)
    /\ exists v, homeView theme (onCells (setCurrentRegion (Some r)) st)
                 = MapView v.
Proof.
  assert (forall r, exists v,
            homeView theme (onCells (setCurrentRegion (Some r)) st) = MapView v)
    as Hview by (intros r; eexists; reflexivity).
  unfold permission_denied.
  destruct permission as [[| |]|e1];
    [destruct lastKnown as [[l|]|e2]; [| destruct current as [l|e3] |] | | |];
    do 2 eexists; (split; [reflexivity|]); (split; [reflexivity|]);
    (split; [reflexivity|]); (split; [reflexivity|]);
    (split; [|apply Hview]); simpl;
    (split; [intros H | intros (s & E & Hs)]);
    try (repeat (destruct H as [H|H]; try discriminate H)); try tauto;
    try discriminate E;
    try (injection E as <-; congruence);
    try (eexists; split; [reflexivity | discriminate]).
Qed.

End HomeSelection.

(** ** [handleFindTrip] in parts, and the screen under its events *)

Section FindTrip.

(** Running [handleFindTrip] part by part, from one [await] to the
    next, with nothing in between, is running it as a whole: the same
    completion, the same state and the same calls in the same order,
    however the three awaited calls settle. *)
Theorem handleFindTrip_parts_agree
    (location : settled LocationCoords)
    (place : settled (InvokeResult PlaceLocation))
    (osrm : settled OsrmResponse)
    (destinationPlaceId : string) (st : HomeState) :
  handleFindTrip_parts location place osrm destinationPlaceId st
  = handleFindTrip location place osrm destinationPlaceId st.
Proof.
  destruct location as [coords|e1]; [|reflexivity].
  destruct place as [[dest|e2]|e2]; [|reflexivity|reflexivity].
  destruct osrm as [[c rs]|e3]; [|reflexivity].
  unfold handleFindTrip_parts, handleFindTrip, handleFindTrip_begin,
    handleFindTrip_located, handleFindTrip_placed, handleFindTrip_routed,
    handleFindTrip_part, finally, try_catch, bind. simpl.
  destruct (String.eqb c "Ok"); [|reflexivity]. simpl.
  destruct rs as [|[[cs] ls d t] rs]; [reflexivity|]. simpl.
  destruct ls as [|leg ls]; [reflexivity|]. simpl.
  destruct cs as [|c0 cs]; reflexivity.
Qed.

(** The last part: what it leaves, by cases on the answer. *)
Lemma handleFindTrip_routed_cases (osrm : settled OsrmResponse)
    (st : HomeState) :
  exists st' effs,
    handleFindTrip_routed osrm st = (Normal tt, st', effs)
    /\ isTripLoading st' = false
    /\ isLoading st' = isLoading st
    /\ currentRegion st' = currentRegion st
    /\ (List.length (filter is_alert effs)
        + List.length (filter is_fitBounds effs) = 1)%nat
    /\ ((stations st' = stations st /\ route st' = route st
         /\ isTripModeActive st' = isTripModeActive st
         /\ existsb is_fitBounds effs = false)
        \/ (stations st' = [] /\ isTripModeActive st' = true
            /\ exists g, route st' = Some {| geometry := g; bounds := None |}
                         /\ (existsb is_fitBounds effs = true
                             <-> coordinates g <> []))).
Proof.
  unfold handleFindTrip_routed, finally, try_catch, bind.
  destruct osrm as [[c rs]|e3]; simpl.
  2:{ do 2 eexists. repeat split. left. repeat split. }
  destruct (String.eqb c "Ok"); simpl.
  2:{ do 2 eexists. repeat split. left. repeat split. }
  destruct rs as [|[[cs] ls d t] rs]; simpl.
  { do 2 eexists. repeat split. left. repeat split. }
  destruct ls as [|leg ls]; simpl.
  { do 2 eexists. repeat split. left. repeat split. }
  destruct cs as [|c0 cs]; simpl.
  - do 2 eexists. repeat split. right. repeat split.
    eexists. split; [reflexivity|]. simpl. split; [discriminate|congruence].
  - do 2 eexists. repeat split. right. repeat split.
    eexists. split; [reflexivity|]. simpl. split; [discriminate|reflexivity].
Qed.

(** X11. Every run of [handleFindTrip] ends normally, with the trip
    loading flag off, and shows its result in exactly one way: one alert, or
    one fit of the camera. The camera is fitted only when the trip has been
    installed (stations emptied, overlay set, trip mode on). When the run
    ends by an alert the stations, the overlay and the mode are as they
    were, unless the failure is the empty geometry of an answered route, in
    which case the trip is installed all the same. *)
Theorem handleFindTrip_ends
    (location : settled LocationCoords)
    (place : settled (InvokeResult PlaceLocation))
    (osrm : settled OsrmResponse)
    (destinationPlaceId : string) (st : HomeState) :
  exists st' effs,
    handleFindTrip location place osrm destinationPlaceId st
    = (Normal tt, st', effs)
    /\ isTripLoading st' = false
    /\ isLoading st' = isLoading st
    /\ currentRegion st' = currentRegion st
    /\ (List.length (filter is_alert effs)
        + List.length (filter is_fitBounds effs) = 1)%nat
    /\ ((stations st' = stations st /\ route st' = route st
         /\ isTripModeActive st' = isTripModeActive st
         /\ existsb is_fitBounds effs = false)
        \/ (stations st' = [] /\ isTripModeActive st' = true
            /\ exists g, route st' = Some {| geometry := g; bounds := None |}
                         /\ (existsb is_fitBounds effs = true
                             <-> coordinates g <> []))).
Proof.
  unfold handleFindTrip, finally, try_catch, bind.
  destruct location as [coords|e1]; simpl.
  2:{ do 2 eexists. repeat split. left. repeat split. }
  destruct place as [[dest|e2]|e2]; simpl.
  2,3: do 2 eexists; repeat split; left; repeat split.
  destruct osrm as [[c rs]|e3]; simpl.
  2:{ do 2 eexists. repeat split. left. repeat split. }
  destruct (String.eqb c "Ok"); simpl.
  2:{ do 2 eexists. repeat split. left. repeat split. }
  destruct rs as [|[[cs] ls d t] rs]; simpl.
  { do 2 eexists. repeat split. left. repeat split. }
  destruct ls as [|leg ls]; simpl.
  { do 2 eexists. repeat split. left. repeat split. }
  destruct cs as [|c0 cs]; simpl.
  - do 2 eexists. repeat split. right. repeat split.
    eexists. split; [reflexivity|]. simpl. split; [discriminate|congruence].
  - do 2 eexists. repeat split. right. repeat split.
    eexists. split; [reflexivity|]. simpl. split; [discriminate|reflexivity].
Qed.

(** X12. Leaving trip mode does not undo entering it. From a screen out
    of trip mode, a successful [handleFindTrip] followed by [cancelTripMode]
    gives back the mode, the overlay, the flags and the region there were,
    but not the stations: the list stays empty. With a known region the
    cancellation recentres the camera on it and hands it to the debounced
    station fetch, which is the only way the stations come back; without one
    it does neither. *)
Theorem trip_round_trip
    (coords : LocationCoords) (dest : PlaceLocation) (placeId : string)
    (g : Geometry) (leg : OsrmLeg) (legs' : list OsrmLeg) (d t : float)
    (others : list OsrmRoute) (st : HomeState) :
  isTripModeActive st = false -> route st = None ->
  isTripLoading st = false ->
  let answered :=
    handleFindTrip (Fulfilled coords) (Fulfilled (Data dest))
      (Fulfilled {| code := "Ok";
                    routes := {| route_geometry := g; legs := leg :: legs';
                                 distance := d; duration := t |} :: others |})
      placeId st in
  let cancelled := cancelTripMode (snd (fst answered)) in
  snd (fst cancelled) = setStations (fun _ => []) st
  /\ snd cancelled =
       match currentRegion st with
       | Some r => [setCamera (longitude r, latitude r) 14 500;
                    debouncedFetch r]
       | None => []
       end.
Proof.
  intros Hmode Hroute Hloading answered cancelled.
  destruct (handleFindTrip_success coords dest placeId g leg legs' d t
              others st) as (r & effs & Hrun).
  unfold cancelled, answered. rewrite Hrun, cancelTripMode_result. simpl.
  destruct st as [l ss cr a tl rt]. simpl in *. subst. split; reflexivity.
Qed.

Lemma trip_round_trip_witness :
  let st := {| isLoading := false; stations := [station_a; station_b];
               currentRegion := Some lagos; isTripModeActive := false;
               isTripLoading := false; route := None |} in
  let answered :=
    handleFindTrip
      (Fulfilled {| coords_latitude := 6.5; coords_longitude := 3.375 |})
      (Fulfilled (Data {| lat := 6.25; lng := 3.75 |}))
      (Fulfilled (osrm_ok {| coordinates := example_route |}))
      "place" st in
  stations (snd (fst (cancelTripMode (snd (fst answered))))) = []
  /\ snd (cancelTripMode (snd (fst answered))) =
       [setCamera (3.375, 6.5)%float 14 500; debouncedFetch lagos].
Proof.
  destruct (trip_round_trip
              {| coords_latitude := 6.5; coords_longitude := 3.375 |}
              {| lat := 6.25; lng := 3.75 |} "place"
              {| coordinates := example_route |} {| summary := None |} []
              12345 125 []
              {| isLoading := false; stations := [station_a; station_b];
                 currentRegion := Some lagos; isTripModeActive := false;
                 isTripLoading := false; route := None |}
              eq_refl eq_refl eq_refl) as [Hst Hcalls].
  split; [exact (f_equal stations Hst) | exact Hcalls].
Defined.

End FindTrip.

Section HomeEventsFacts.

Lemma well_formed_initially : well_formed (cells initialHomeScreen).
Proof.
  split; [constructor|]. unfold trip_consistent. simpl.
  split; [discriminate | congruence].
Qed.

(** A handler that touches neither the stations nor the trip. *)
Lemma well_formed_same (c c' : HomeState) :
  stations c' = stations c -> route c' = route c ->
  isTripModeActive c' = isTripModeActive c ->
  well_formed c -> well_formed c'.
Proof.
  unfold well_formed, trip_consistent. intros -> -> ->. tauto.
Qed.

Lemma fetch_settle_well_formed response (c : HomeState) :
  well_formed c ->
  well_formed (snd (fst (fetchStationsForRegion_settle response c)))
  /\ currentRegion (snd (fst (fetchStationsForRegion_settle response c)))
     = currentRegion c.
Proof.
  intros [Hu Ht].
  destruct response as [[data|e]|e]; simpl; (split; [|reflexivity]);
    split; simpl; try assumption.
  apply merge_unique_ids.
Qed.

Lemma findTrip_routed_well_formed osrm (c : HomeState) :
  well_formed c ->
  well_formed (snd (fst (handleFindTrip_routed osrm c)))
  /\ currentRegion (snd (fst (handleFindTrip_routed osrm c)))
     = currentRegion c.
Proof.
  intros Hc.
  destruct (handleFindTrip_routed_cases osrm c)
    as (c' & effs & -> & _ & _ & Hr & _ & H). simpl.
  split; [|exact Hr].
  destruct H as [(H1 & H2 & H3 & _)|(H1 & H2 & g & H3 & _)].
  - now apply (well_formed_same c).
  - split; [rewrite H1; constructor|].
    unfold trip_consistent. rewrite H2, H3. split; congruence.
Qed.

(** What one event does to the cells of [HomeState]: they stay well formed,
    and a region once known stays known. *)
Lemma handle_keeps (event : HomeEvent) (st : HomeScreenState) :
  well_formed (cells st) ->
  well_formed (cells (Act.state_after (handle event st)))
  /\ (currentRegion (cells st) <> None ->
      currentRegion (cells (Act.state_after (handle event st))) <> None).
Proof.
  intros Hc.
  destruct event as [permission lastKnown current|coords|region|response
                    |region|answer|feats| |newRegion|term| |
                    |location placeId|place coords|osrm| ];
    unfold Act.state_after, handle.
  - destruct permission as [[| |]|e1];
      [destruct lastKnown as [[l|]|e2]; [| destruct current as [l|e3] |]
      | | |];
      simpl; (split; [now apply (well_formed_same (cells st)) | discriminate]).
  - destruct coords as [lon lat].
    unfold lift, onRegionDidChange, bind, read. simpl.
    destruct (isTripModeActive (cells st)) eqn:E; simpl;
      (split; [apply (well_formed_same (cells st)); auto | discriminate]).
  - destruct region as [r|]; simpl; [|tauto].
    split; [now apply (well_formed_same (cells st)) | auto].
  - unfold lift.
    destruct (fetch_settle_well_formed response (cells st) Hc) as [H1 H2].
    destruct (fetchStationsForRegion_settle response (cells st))
      as [[r c'] effs]. simpl in *. rewrite H2. tauto.
  - simpl. tauto.
  - destruct answer as [[|first others]|error]; simpl; tauto.
  - destruct feats as [[|[f|n] others]|]; simpl; try tauto.
    unfold Act.bind, Act.read. simpl.
    destruct (find_by_id (prop_id (properties f)) (stations (cells st)));
      simpl; tauto.
  - unfold handleMapPress, Act.bind, Act.read. simpl.
    destruct (selectedStation st); simpl; tauto.
  - simpl. tauto.
  - simpl. tauto.
  - simpl. tauto.
  - simpl. split; [now apply (well_formed_same (cells st)) | auto].
  - destruct location as [coords|e1]; simpl;
      (split; [now apply (well_formed_same (cells st)) | auto]).
  - destruct place as [[dest|e2]|e2]; simpl;
      (split; [now apply (well_formed_same (cells st)) | auto]).
  - unfold lift.
    destruct (findTrip_routed_well_formed osrm (cells st) Hc) as [H1 H2].
    destruct (handleFindTrip_routed osrm (cells st)) as [[r c'] effs].
    simpl in *. rewrite H2. tauto.
  - unfold lift. rewrite cancelTripMode_result. simpl.
    split; [|auto]. destruct Hc as [Hu _]. split; [exact Hu|].
    unfold trip_consistent. simpl. split; [discriminate | congruence].
Qed.

(** X13. No handler of the home screen ever throws, whatever its awaited
    calls answer, on events and answers of the shapes the code reads. And
    each cell has few writers: the stations change only
    when a station fetch or the last part of [handleFindTrip] resumes, the
    selection only by a press on a station, on the map or on the popup's
    close button, the location name only when a reverse geocoding answers
    with at least one address (a rejected or empty answer leaves it), and
    the filter term only when a filter is applied. *)
Theorem home_handlers_never_throw (event : HomeEvent) (st : HomeScreenState) :
  let st' := Act.state_after (handle event st) in
  Act.outcome (handle event st) = Normal tt
  /\ (stations (cells st') <> stations (cells st) ->
      (exists response, event = FetchSettled response)
      \/ (exists osrm, event = FindTripRouted osrm))
  /\ (selectedStation st' <> selectedStation st ->
      (exists features, event = StationPressed features)
      \/ event = MapPressed \/ event = PopupClosed)
  /\ (locationInfo st' <> locationInfo st ->
      exists first others,
        event = LocationNameSettled (Fulfilled (first :: others)))
  /\ (filterTerm st' <> filterTerm st ->
      exists term, event = FilterApplied term).
Proof.
  destruct event as [permission lastKnown current|coords|region|response
                    |region|answer|feats| |newRegion|term| |
                    |location placeId|place coords|osrm| ];
    unfold Act.state_after, Act.outcome, handle.
  - destruct permission as [[| |]|e1];
      [destruct lastKnown as [[l|]|e2]; [| destruct current as [l|e3] |]
      | | |];
      simpl; repeat split; intros H; now elim H.
  - destruct coords as [lon lat].
    unfold lift, onRegionDidChange, bind, read. simpl.
    destruct (isTripModeActive (cells st)); simpl;
      repeat split; intros H; now elim H.
  - destruct region as [r|]; simpl; repeat split; intros H; now elim H.
  - destruct response as [[data|e]|e]; simpl; repeat split;
      try (intros H; now elim H); intros _; left; eauto.
  - simpl. repeat split; intros H; now elim H.
  - destruct answer as [[|first others]|error]; simpl; repeat split;
      try (intros H; now elim H); intros _; eauto.
  - destruct feats as [[|[f|n] others]|]; simpl;
      try (repeat split; intros H; now elim H).
    unfold Act.bind, Act.read. simpl.
    destruct (find_by_id (prop_id (properties f)) (stations (cells st)));
      simpl; repeat split; try (intros H; now elim H); intros _; left; eauto.
  - unfold handleMapPress, Act.bind, Act.read. simpl.
    destruct (selectedStation st); simpl; repeat split;
      try (intros H; now elim H); intros _; auto.
  - simpl. repeat split; intros H; now elim H.
  - simpl. repeat split; try (intros H; now elim H); intros _; eauto.
  - simpl. repeat split; try (intros H; now elim H); intros _; auto.
  - simpl. repeat split; intros H; now elim H.
  - destruct location as [coords|e1]; simpl;
      repeat split; intros H; now elim H.
  - destruct place as [[dest|e2]|e2]; simpl;
      repeat split; intros H; now elim H.
  - unfold lift.
    destruct (handleFindTrip_routed_cases osrm (cells st))
      as (c' & effs & -> & _). simpl.
    repeat split; try (intros H; now elim H); intros _; right; eauto.
  - unfold lift. rewrite cancelTripMode_result. simpl.
    repeat split; intros H; now elim H.
Qed.

Lemma after_keeps (events : list HomeEvent) : forall st,
  well_formed (cells st) ->
  well_formed (cells (after events st))
  /\ (currentRegion (cells st) <> None ->
      currentRegion (cells (after events st)) <> None).
Proof.
  induction events as [|event events IH]; intros st Hc; simpl; [tauto|].
  destruct (handle_keeps event st Hc) as [H1 H2].
  destruct (IH _ H1) as [H3 H4]. auto.
Qed.

Lemma after_app (e1 e2 : list HomeEvent) (st : HomeScreenState) :
  after (e1 ++ e2) st = after e2 (after e1 st).
Proof. unfold after. apply fold_left_app. Qed.

(** X14. Whatever events reach the screen, in whatever order and with
    whatever answers, from its initial state on: no two stations of the
    list have the same id, and the route overlay is set exactly when trip
    mode is on. So, on the map, of the search controls and the route line
    exactly one is shown. *)
Theorem home_screen_invariants (events : list HomeEvent) (theme : Theme) :
  let st := after events initialHomeScreen in
  unique_ids (stations (cells st))
  /\ (isTripModeActive (cells st) = true <-> route (cells st) <> None)
  /\ forall v, homeView theme st = MapView v ->
       (searchControls v = true <-> routeSource v = None).
Proof.
  intros st.
  destruct (after_keeps events initialHomeScreen well_formed_initially)
    as [[Hu Ht] _]. fold st in Hu, Ht.
  split; [exact Hu|]. split; [exact Ht|].
  intros v. unfold homeView.
  destruct (currentRegion (cells st)) as [r|]; [|discriminate].
  intros [= <-]. cbn [searchControls routeSource].
  unfold trip_consistent in Ht.
  destruct (isTripModeActive (cells st)); simpl.
  - split; [discriminate|].
    destruct (route (cells st)); simpl; [discriminate|].
    intros _. exfalso. now apply (proj1 Ht).
  - tauto.
Qed.

(** X15. Once [setupInitialScreen] has run, the map is on the screen and
    stays there: no later event, whatever it is, brings the loading screen
    back. *)
Theorem map_stays_after_mount
    (before later : list HomeEvent)
    (permission : settled PermissionStatus)
    (lastKnown : settled (option LocationCoords))
    (current : settled LocationCoords) (theme : Theme) :
  exists v,
    homeView theme
      (after (before ++ Mounted permission lastKnown current :: later)
             initialHomeScreen)
    = MapView v.
Proof.
  rewrite after_app. simpl.
  set (st0 := after before initialHomeScreen).
  destruct (after_keeps before initialHomeScreen well_formed_initially)
    as [H0 _]. fold st0 in H0.
  set (st1 := Act.state_after
                (setupInitialScreen permission lastKnown current st0)).
  assert (currentRegion (cells st1) <> None) as Hr.
  { unfold st1, Act.state_after.
    destruct permission as [[| |]|e1];
      [destruct lastKnown as [[l|]|e2]; [| destruct current as [l|e3] |]
      | | |]; simpl; discriminate. }
  destruct (handle_keeps (Mounted permission lastKnown current) st0 H0)
    as [H1 _]. simpl in H1. fold st1 in H1.
  destruct (after_keeps later st1 H1) as [_ H2]. specialize (H2 Hr).
  unfold homeView. destruct (currentRegion (cells (after later st1)));
    [eexists; reflexivity | contradiction].
Qed.

End HomeEventsFacts.

(** ** Text: joined addresses and encoded queries *)

Section Text.
Local Open Scope string_scope.

Lemma string_length_app (a b : string) :
  String.length (a ++ b) = (String.length a + String.length b)%nat.
Proof. induction a as [|x a IH]; simpl; [reflexivity | now rewrite IH]. Qed.

Lemma string_app_empty_r (a : string) : a ++ "" = a.
Proof. induction a as [|x a IH]; simpl; [reflexivity | now rewrite IH]. Qed.

Lemma string_app_inv_head (p a b : string) : p ++ a = p ++ b -> a = b.
Proof.
  induction p as [|x p IH]; simpl; [auto|]. intros [= H]. now apply IH.
Qed.

Lemma string_app_inv_tail (a : string) : forall b s,
  a ++ s = b ++ s -> a = b.
Proof.
  induction a as [|x a IH]; intros [|y b] s H; simpl in H.
  - reflexivity.
  - apply (f_equal String.length) in H. simpl in H.
    rewrite string_length_app in H. lia.
  - apply (f_equal String.length) in H. simpl in H.
    rewrite string_length_app in H. lia.
  - injection H as -> H. f_equal. now apply (IH b s).
Qed.

Lemma list_of_string_app (a b : string) :
  list_ascii_of_string (a ++ b)
  = (list_ascii_of_string a ++ list_ascii_of_string b)%list.
Proof. induction a as [|x a IH]; simpl; [reflexivity | now rewrite IH]. Qed.

Lemma filter_Boolean_In (parts : list (option string)) (s : string) :
  In s (filter_Boolean parts) <-> In (Some s) parts /\ s <> "".
Proof.
  unfold filter_Boolean. rewrite in_flat_map. split.
  - intros ([p|] & Hin & Hs); [|contradiction].
    destruct p as [|c p]; simpl in Hs; [contradiction|].
    destruct Hs as [<-|[]]. split; [exact Hin | discriminate].
  - intros [Hin Hne]. exists (Some s). split; [exact Hin|].
    destruct s; [congruence | now left].
Qed.

Lemma join_occurs (separator : string) (parts : list string) (p : string) :
  In p parts ->
  exists before after, join separator parts = before ++ p ++ after.
Proof.
  induction parts as [|q parts IH]; [contradiction|].
  intros [->|Hin].
  - destruct parts as [|q' parts].
    + exists "", "". simpl. now rewrite string_app_empty_r.
    + exists "", (separator ++ join separator (q' :: parts)). reflexivity.
  - destruct (IH Hin) as (before & after & E).
    destruct parts as [|q' parts]; [contradiction|].
    exists (q ++ separator ++ before), after.
    change (join separator (q :: q' :: parts))
      with (q ++ separator ++ join separator (q' :: parts)).
    rewrite E, !string_app_assoc. reflexivity.
Qed.

Lemma join_empty (separator : string) (parts : list string) :
  Forall (fun p => p <> "") parts ->
  (join separator parts = "" <-> parts = []).
Proof.
  intros Hall. split; [|now intros ->].
  destruct parts as [|p parts]; [reflexivity|].
  inversion Hall as [|? ? Hp _]; subst.
  destruct p as [|c p]; [congruence|].
  destruct parts; simpl; discriminate.
Qed.

Lemma join_length (separator : string) (parts : list string) :
  parts <> [] ->
  (String.length (join separator parts) + String.length separator
   = list_sum (map (fun p => String.length p + String.length separator)
                   parts))%nat.
Proof.
  induction parts as [|p parts IH]; [congruence | intros _].
  destruct parts as [|q parts].
  - simpl. lia.
  - change (join separator (p :: q :: parts))
      with (p ++ separator ++ join separator (q :: parts)).
    rewrite !string_length_app. simpl map. simpl list_sum.
    specialize (IH ltac:(discriminate)). simpl map in IH.
    simpl list_sum in IH. lia.
Qed.

Lemma formattedAddress_empty (a : GeocodedAddress.t) :
  AddStation.formattedAddress a = "" <->
  Forall (fun part => part = None \/ part = Some "")
         (AddStation.addressParts a).
Proof.
  unfold AddStation.formattedAddress.
  set (parts := AddStation.addressParts a).
  assert (Forall (fun p => p <> "") (filter_Boolean parts)) as Hne.
  { apply Forall_forall. intros p Hp. now apply filter_Boolean_In in Hp. }
  rewrite (join_empty ", " _ Hne). split.
  - intros E. apply Forall_forall. intros [s|] Hin; [|now left].
    right. destruct s as [|c s]; [reflexivity|]. exfalso.
    assert (In (String c s) (filter_Boolean parts)) as H
      by (apply filter_Boolean_In; split; [exact Hin | discriminate]).
    rewrite E in H. contradiction.
  - intros Hall. rewrite Forall_forall in Hall.
    destruct (filter_Boolean parts) as [|p ps] eqn:E; [reflexivity|].
    exfalso. assert (In p (filter_Boolean parts)) as H
      by (rewrite E; now left).
    apply filter_Boolean_In in H. destruct H as [Hin Hp].
    destruct (Hall _ Hin) as [H|H]; congruence.
Qed.

(** X16. The address line of [reverseGeocode] is made of the parts the
    geocoder knows, among name, street, city, region and country: every
    part that is there and not empty occurs in it, it is empty exactly when
    none is, and between its parts there is the separator [", "] and
    nothing before the first or after the last (its length is the sum of
    the parts' lengths and of two per gap). *)
Theorem formattedAddress_of_known_parts (a : GeocodedAddress.t) :
  (forall s, s <> "" -> In (Some s) (AddStation.addressParts a) ->
             includes (AddStation.formattedAddress a) s = true)
  /\ (AddStation.formattedAddress a = "" <->
      Forall (fun part => part = None \/ part = Some "")
             (AddStation.addressParts a))
  /\ (AddStation.formattedAddress a <> "" ->
      (String.length (AddStation.formattedAddress a) + 2
       = list_sum (map (fun p => String.length p + 2)
                       (filter_Boolean (AddStation.addressParts a))))%nat).
Proof.
  split; [|split].
  - intros s Hs Hin. apply includes_occurs. apply join_occurs.
    now apply filter_Boolean_In.
  - apply formattedAddress_empty.
  - intros Hjoin.
    apply (join_length ", " (filter_Boolean (AddStation.addressParts a))).
    intros E. apply Hjoin. unfold AddStation.formattedAddress.
    now rewrite E.
Qed.

Lemma hexDigit_code (n : N) :
  (n < 16)%N ->
  N_of_ascii (hexDigit n) = (if (n <? 10)%N then 48 + n else 55 + n)%N.
Proof.
  intros H. unfold hexDigit.
  destruct (n <? 10)%N; apply N_ascii_embedding; lia.
Qed.

Lemma hexDigit_inj (a b : N) :
  (a < 16)%N -> (b < 16)%N -> hexDigit a = hexDigit b -> a = b.
Proof.
  intros Ha Hb E. apply (f_equal N_of_ascii) in E.
  rewrite !hexDigit_code in E by assumption.
  destruct (N.ltb_spec a 10), (N.ltb_spec b 10); lia.
Qed.

Lemma hexDigit_unreserved (n : N) :
  (n < 16)%N -> uriUnreserved (hexDigit n) = true.
Proof.
  intros H. unfold uriUnreserved. rewrite (hexDigit_code n H).
  destruct (N.ltb_spec n 10).
  - replace ((48 <=? 48 + n) && (48 + n <=? 57))%N with true; [reflexivity|].
    symmetry. apply andb_true_iff. split; apply N.leb_le; lia.
  - replace ((65 <=? 55 + n) && (55 + n <=? 90))%N with true;
      [now rewrite orb_true_r|].
    symmetry. apply andb_true_iff. split; apply N.leb_le; lia.
Qed.

Lemma nibbles (c : ascii) :
  (N_of_ascii c / 16 < 16)%N /\ (N_of_ascii c mod 16 < 16)%N.
Proof.
  pose proof (N_ascii_bounded c). split.
  - apply N.Div0.div_lt_upper_bound; lia.
  - apply N.mod_lt. lia.
Qed.

Lemma percentEncoded_inj (c1 c2 : ascii) :
  percentEncoded c1 = percentEncoded c2 -> c1 = c2.
Proof.
  unfold percentEncoded. intros [= Hhi Hlo].
  destruct (nibbles c1), (nibbles c2).
  apply hexDigit_inj in Hhi; [|assumption..].
  apply hexDigit_inj in Hlo; [|assumption..].
  rewrite <- (ascii_N_embedding c1), <- (ascii_N_embedding c2). f_equal.
  rewrite (N.div_mod (N_of_ascii c1) 16), (N.div_mod (N_of_ascii c2) 16)
    by lia.
  now rewrite Hhi, Hlo.
Qed.

Lemma encodeURIComponent_safe (s : string) :
  Forall (fun c => uriSafe c = true)
         (list_ascii_of_string (encodeURIComponent s)).
Proof.
  induction s as [|c s IH]; simpl; [constructor|].
  rewrite list_of_string_app. apply Forall_app. split; [|exact IH].
  destruct (uriUnreserved c) eqn:E; simpl.
  - constructor; [|constructor]. unfold uriSafe. now rewrite E.
  - destruct (nibbles c) as [Hhi Hlo].
    repeat constructor; unfold uriSafe;
      rewrite ?hexDigit_unreserved by assumption; reflexivity.
Qed.

Lemma encodeURIComponent_inj (s1 : string) : forall s2,
  encodeURIComponent s1 = encodeURIComponent s2 -> s1 = s2.
Proof.
  induction s1 as [|c1 s1 IH]; intros [|c2 s2]; simpl.
  - reflexivity.
  - destruct (uriUnreserved c2); discriminate.
  - destruct (uriUnreserved c1); discriminate.
  - destruct (uriUnreserved c1) eqn:E1, (uriUnreserved c2) eqn:E2; simpl.
    + intros [= -> H]. f_equal. now apply IH.
    + intros [= -> _]. discriminate E1.
    + intros [= <- _]. discriminate E2.
    + intros [= Hhi Hlo H]. f_equal; [|now apply IH].
      apply percentEncoded_inj. unfold percentEncoded. now rewrite Hhi, Hlo.
Qed.

(** X17. The text typed into either search box reaches the service as one
    query parameter and whole: its encoding holds none of the characters
    that end or split a parameter, only letters, digits,
    [- _ . ! ~ * ' ( )] and [%], and two different texts never give the
    same address. The key sent along is never empty: without a configured
    key, or with an empty one, it is the fallback text. *)
Theorem search_text_is_one_parameter (key text : string) :
  (exists encoded,
     AddStation.autocompleteUrl key text =
       "https://maps.googleapis.com/maps/api/place/autocomplete/json?input="
       ++ encoded ++ "&key=" ++ key ++ "&types=establishment"
     /\ MapScreen.searchUrl text =
          "https://nominatim.openstreetmap.org/search?format=json&q="
          ++ encoded
     /\ Forall (fun c => uriSafe c = true) (list_ascii_of_string encoded)
     /\ forall c, In c uriDelimiters ->
                  ~ In c (list_ascii_of_string encoded))
  /\ (forall text', AddStation.autocompleteUrl key text
                    = AddStation.autocompleteUrl key text' -> text = text')
  /\ (forall text', MapScreen.searchUrl text = MapScreen.searchUrl text' ->
                    text = text')
  /\ (forall configured, AddStation.GOOGLE_MAPS_API_KEY configured <> "").
Proof.
  split; [|split; [|split]].
  - exists (encodeURIComponent text).
    split; [reflexivity|]. split; [reflexivity|].
    pose proof (encodeURIComponent_safe text) as Hsafe.
    split; [exact Hsafe|].
    intros c Hc Hin. rewrite Forall_forall in Hsafe.
    specialize (Hsafe c Hin).
    unfold uriDelimiters in Hc. simpl in Hc.
    repeat (destruct Hc as [<-|Hc]; [discriminate Hsafe|]). exact Hc.
  - intros text' H. unfold AddStation.autocompleteUrl in H.
    apply string_app_inv_head in H.
    rewrite <- !string_app_assoc in H.
    apply string_app_inv_tail in H. apply string_app_inv_tail in H.
    apply string_app_inv_tail in H.
    now apply encodeURIComponent_inj.
  - intros text' H. unfold MapScreen.searchUrl in H.
    apply string_app_inv_head in H. now apply encodeURIComponent_inj.
  - intros [[|c k]|]; discriminate.
Qed.

End Text.

(** ** [AddStationScreen] *)

Section AddStationFacts.
Import AddStation.
Local Open Scope string_scope.

(** X18. Resuming [reverseGeocode] never throws and touches only the
    address: the first address of the answer is formatted into it; an
    answer without addresses, or a rejected call (which is logged), leaves
    the address there was. The label under "Address" shows the address, or
    "Move map to select location" when it is empty, which is also what it
    shows after an answer whose first address has no known part. *)
Theorem reverseGeocode_settles
    (answer : settled (list GeocodedAddress.t)) (st : State) :
  exists st' calls,
    reverseGeocode_settle answer st = (Normal tt, st', calls)
    /\ st' = match answer with
             | Fulfilled (first :: _) => setAddress (formattedAddress first) st
             | _ => st
             end
    /\ calls = match answer with
               | Rejected error => [Console_log "Reverse geocode error" error]
               | _ => []
               end
    /\ addressText st' = (if truthy (address st') then address st'
                          else "Move map to select location")
    /\ forall first others,
         answer = Fulfilled (first :: others) ->
         Forall (fun part => part = None \/ part = Some "")
                (addressParts first) ->
         addressText st' = "Move map to select location".
Proof.
  destruct answer as [[|first others]|error];
    do 2 eexists; (split; [reflexivity|]); (split; [reflexivity|]);
    (split; [reflexivity|]); (split; [reflexivity|]);
    intros f o [=]; subst.
  intros Hall.
  apply formattedAddress_empty in Hall.
  unfold addressText. simpl. now rewrite Hall.
Qed.

(** X19. [handleSearch] never throws and always takes the text as the
    query. A text of fewer than three UTF-16 code units (the [length] of the
    string) empties the results and asks nothing of the service, so no
    result list is shown: two letters e with an acute accent ask nothing,
    though they take four bytes. A
    longer text asks the service once, for that text, and ends with the
    searching flag off; the results are replaced by the predictions, in
    their order, only when the answer has status "OK", and stay as they were
    on any other status and on a failed call, which is logged. *)
Theorem handleSearch_runs
    (key : string) (answer : settled AutocompleteResponse) (text : string)
    (st : State) :
  (exists st' calls,
    handleSearch key answer text st = (Normal tt, st', calls)
    /\ searchQuery st' = text
    /\ region st' = region st /\ address st' = address st
    /\ stationName st' = stationName st
    /\ isSubmitting st' = isSubmitting st /\ showSearch st' = showSearch st
    /\ if (utf16Length text <? 3)%nat
       then calls = [] /\ searchResults st' = []
            /\ isSearching st' = isSearching st
            /\ resultsShown st' = false
       else isSearching st' = false
            /\ calls = Fetch (autocompleteUrl key text)
                       :: match answer with
                          | Rejected error =>
                              [Console_error "Search error:" error]
                          | _ => []
                          end
            /\ searchResults st' =
                 match answer with
                 | Fulfilled data =>
                     if autocomplete_status data =? "OK"
                     then map toPlace (predictions data)
                     else searchResults st
                 | Rejected _ => searchResults st
                 end)
  /\ String.length (fromCodePoints [0xE9; 0xE9]%N) = 4%nat
  /\ Act.calls_of (handleSearch key answer (fromCodePoints [0xE9; 0xE9]%N) st)
     = [].
Proof.
  split; [|split; reflexivity].
  unfold handleSearch, handleSearch_request, handleSearch_settle,
    Act.bind, Act.finally, Act.try_catch. simpl.
  destruct (utf16Length text <? 3)%nat; simpl.
  - do 2 eexists. repeat split. apply andb_false_r.
  - destruct answer as [data|error]; simpl;
      [destruct (autocomplete_status data =? "OK"); simpl|];
      do 2 eexists; repeat split.
Qed.

(** X20. An answer is applied to whatever the query has become. When a
    second text is typed before the answer to the first has come, and the
    answer to the second comes first, the late answer to the first text
    replaces the results of the second: the screen ends with the second
    text as its query and the predictions for the first as its results. The
    searching flag is already off when the first of the two answers has
    come. *)
Theorem late_answer_replaces_results
    (key first second : string) (answer1 : AutocompleteResponse)
    (answer2 : settled AutocompleteResponse) (st : State) :
  (3 <= utf16Length first)%nat -> (3 <= utf16Length second)%nat ->
  autocomplete_status answer1 = "OK" ->
  let st1 := Act.state_after (handleSearch_request key first st) in
  let st2 := Act.state_after (handleSearch_request key second st1) in
  let st3 := Act.state_after (handleSearch_settle answer2 st2) in
  let st4 := Act.state_after (handleSearch_settle (Fulfilled answer1) st3) in
  Act.calls_of (handleSearch_request key first st)
    = [Fetch (autocompleteUrl key first)]
  /\ Act.calls_of (handleSearch_request key second st1)
     = [Fetch (autocompleteUrl key second)]
  /\ isSearching st2 = true /\ isSearching st3 = false
  /\ searchQuery st4 = second
  /\ searchResults st4 = map toPlace (predictions answer1).
Proof.
  intros H1 H2 Hok.
  unfold handleSearch_request, handleSearch_settle, Act.state_after,
    Act.calls_of, Act.bind, Act.finally, Act.try_catch. simpl.
  apply Nat.ltb_ge in H1, H2. rewrite H1, H2. simpl.
  destruct answer2 as [data|error]; simpl;
    [destruct (autocomplete_status data =? "OK"); simpl|];
    rewrite Hok; simpl; repeat split.
Qed.

Lemma late_answer_replaces_results_witness :
  let st1 := Act.state_after (handleSearch_request "k" Energie initial) in
  let st2 := Act.state_after (handleSearch_request "k" "Total" st1) in
  let st3 := Act.state_after
               (handleSearch_settle (Fulfilled (answer_for "Total")) st2) in
  let st4 := Act.state_after
               (handleSearch_settle (Fulfilled (answer_for Energie)) st3) in
  (3 <= utf16Length Energie)%nat /\ (3 <= utf16Length "Total")%nat
  /\ searchQuery st4 = "Total"
  /\ map name (searchResults st4) = [Energie].
Proof.
  assert (3 <= utf16Length Energie)%nat as H1 by (vm_compute; lia).
  assert (3 <= utf16Length "Total")%nat as H2 by (vm_compute; lia).
  destruct (late_answer_replaces_results "k" Energie "Total"
              (answer_for Energie) (Fulfilled (answer_for "Total")) initial
              H1 H2 eq_refl)
    as (_ & _ & _ & _ & Hq & Hr).
  split; [exact H1|]. split; [exact H2|].
  split; [exact Hq|]. now rewrite Hr.
Defined.


(** X22. [handleSubmit] never throws and shows exactly one alert on every
    run. It checks, in this order, that the station name is not blank, that
    a region is set and that a user is logged in, and alerts on the first
    check that fails without writing anything. When all three hold it
    writes one row, with the name as typed, the region's position, the
    address, the user's id and the status "pending", and then alerts the
    success, or the error of a failed write with its message, or "Failed to
    add station" when the message is empty. The submitting flag is off at
    the end of a run that wrote; no other cell changes. *)
Theorem handleSubmit_checks
    (user : option User) (insert : settled (InvokeResult unit)) (st : State) :
  exists st' calls,
    handleSubmit user insert st = (Normal tt, st', calls)
    /\ List.length (filter is_alert_call calls) = 1%nat
    /\ calls =
         (if blank (stationName st) then [nameMissing]
          else match region st, user with
               | None, _ => [locationMissing]
               | Some _, None => [loginRequired]
               | Some r, Some u =>
                   [stations_insert (rowOf u r st);
                    match insert with
                    | Fulfilled (Data _) => stationAdded
                    | Fulfilled (Failed error) | Rejected error =>
                        submitFailed error
                    end]
               end)%list
    /\ st' = (if existsb is_insert calls
              then setIsSubmitting false (setIsSubmitting true st)
              else st)
    /\ (existsb is_insert calls = true <->
        blank (stationName st) = false /\ region st <> None /\ user <> None).
Proof.
  unfold handleSubmit, Act.bind, Act.read. simpl.
  rewrite trim_falsy.
  destruct (blank (stationName st)); simpl.
  { do 2 eexists. repeat split; simpl; intuition discriminate. }
  destruct (region st) as [r|]; simpl.
  2:{ do 2 eexists. repeat split; simpl;
      intuition (discriminate || congruence). }
  destruct user as [u|]; simpl.
  2:{ do 2 eexists. repeat split; simpl;
      intuition (discriminate || congruence). }
  destruct insert as [[[]|error]|error]; simpl;
    do 2 eexists; repeat split; simpl; intuition discriminate.
Qed.

(** X23. What is submitted is where the map was last moved to: after
    [onRegionDidChange] with the centre [[longitude, latitude]], the row of
    a valid submission has that latitude and that longitude, each in its
    own field. Its address is the one the screen had before the move: the
    address of the new centre is only asked for, and is not in the row
    until its answer has come. *)
Theorem submitted_position
    (coordinates : Position) (u : User)
    (insert : settled (InvokeResult unit)) (st : State) :
  blank (stationName st) = false ->
  let moved := onRegionDidChange coordinates st in
  Act.calls_of moved
    = [Location_reverseGeocodeAsync (snd coordinates) (fst coordinates)]
  /\ exists row result,
       Act.calls_of (handleSubmit (Some u) insert (Act.state_after moved))
         = [stations_insert row; result]
       /\ row_latitude row = snd coordinates
       /\ row_longitude row = fst coordinates
       /\ row_name row = stationName st
       /\ row_address row = address st.
Proof.
  intros Hname. destruct coordinates as [lon lat].
  unfold onRegionDidChange, handleSubmit, Act.calls_of, Act.state_after,
    Act.bind, Act.read. simpl.
  split; [reflexivity|].
  rewrite trim_falsy, Hname. simpl.
  destruct insert as [[[]|error]|error]; simpl;
    do 2 eexists; repeat split.
Qed.

Lemma submitted_position_witness :
  exists row result,
    Act.calls_of
      (handleSubmit (Some {| user_id := "u1" |}) (Fulfilled (Data tt))
         (Act.state_after (onRegionDidChange (3.375, 6.5)%float typed)))
    = [stations_insert row; result]
    /\ row_latitude row = 6.5%float /\ row_longitude row = 3.375%float.
Proof.
  destruct (submitted_position (3.375, 6.5)%float {| user_id := "u1" |}
              (Fulfilled (Data tt)) typed eq_refl)
    as (_ & row & result & H & Hlat & Hlon & _).
  exists row, result. auto.
Defined.

(** X24. When the permission is not granted the effect that runs on
    mount alerts once and sets no region, and when one of its two calls is
    rejected it ends by that rejection, again without a region: this screen
    has no default region. Until a place is selected the map is then not
    shown, and a submission with a name is refused with "Location not
    selected". *)
Theorem mounted_without_position
    (status : PermissionStatus) (current : settled LocationCoords)
    (error : JSError) (user : option User)
    (insert : settled (InvokeResult unit)) (st : State) :
  (status <> granted ->
   mounted (Fulfilled status) current st =
     (Normal tt, st,
      [Location_requestForegroundPermissionsAsync;
       Alert_title "Permission to access location was denied"]))
  /\ mounted (Rejected error) current st =
       (Throw error, st, [Location_requestForegroundPermissionsAsync])
  /\ mounted (Fulfilled granted) (Rejected error) st =
       (Throw error, st,
        [Location_requestForegroundPermissionsAsync;
         Core Location_getCurrentPositionAsync])
  /\ (region st = None -> blank (stationName st) = false ->
      handleSubmit user insert st = (Normal tt, st, [locationMissing]))
  /\ (forall l,
        region (Act.state_after
                  (mounted (Fulfilled granted) (Fulfilled l) st))
        = Some (regionOf (coords_latitude l) (coords_longitude l)
                         0x1.47ae147ae147bp-7)).
Proof.
  repeat split.
  - intros Hs. destruct status; [congruence | reflexivity | reflexivity].
  - intros Hr Hname. unfold handleSubmit, Act.bind, Act.read. simpl.
    now rewrite trim_falsy, Hname, Hr.
Qed.

End AddStationFacts.

(** ** [MapScreen] *)

Section MapScreenFacts.
Import MapScreen.
Local Open Scope string_scope.

Variable parseFloat : string -> float.

(** [fetchRoute] up to its [await], by cases on the user location. *)
Lemma fetchRoute_request_cases (destLat destLng : float) (st : State) :
  fetchRoute_request destLat destLng st =
    match userLocation st with
    | None => (Normal false, st, [])
    | Some l =>
        (Normal true, setIsRouting true st,
         [Core (fetch_osrm_route (coords_longitude l) (coords_latitude l)
                                 destLng destLat)])
    end.
Proof.
  unfold fetchRoute_request, Act.bind, Act.read. simpl.
  now destruct (userLocation st).
Qed.

(** X25. [fetchRoute] never throws. Without a user location it does
    nothing at all. With one it asks the routing service once, from the
    user's position to the destination, and ends with the routing flag off.
    When the call is rejected it logs the error and alerts "Failed to
    calculate route"; when the service answers with a code other than "Ok",
    or with no route, it says nothing: in all these cases the route, the
    distance, the duration and the stations stay as they were. *)
Theorem fetchRoute_without_route
    (answer : settled OsrmResponse) (destLat destLng : float) (st : State) :
  (userLocation st = None ->
   fetchRoute answer destLat destLng st = (Normal tt, st, []))
  /\ forall l, userLocation st = Some l ->
       exists st' more,
         fetchRoute answer destLat destLng st
         = (Normal tt, st',
            Core (fetch_osrm_route (coords_longitude l) (coords_latitude l)
                                   destLng destLat) :: more)
         /\ isRouting st' = false
         /\ stations st' = stations st
         /\ userLocation st' = userLocation st
         /\ destinationQuery st' = destinationQuery st
         /\ isNavigating st' = isNavigating st
         /\ match answer with
            | Rejected error =>
                st' = setIsRouting false (setIsRouting true st)
                /\ more = [Console_error "Routing error:" error;
                           Core (Alert_alert "Error"
                                             "Failed to calculate route")]
            | Fulfilled data =>
                (code data =? "Ok") = false \/ routes data = [] ->
                st' = setIsRouting false (setIsRouting true st)
                /\ more = []
            end.
Proof.
  unfold fetchRoute. split.
  - intros H. unfold Act.bind. rewrite fetchRoute_request_cases, H.
    reflexivity.
  - intros l H. unfold Act.bind. rewrite fetchRoute_request_cases, H.
    unfold fetchRoute_settle, Act.finally, Act.try_catch, Act.bind. simpl.
    destruct answer as [[c rs]|error]; simpl.
    2:{ do 2 eexists. repeat split; exact H. }
    destruct (c =? "Ok"); simpl.
    2:{ do 2 eexists. repeat split; exact H. }
    destruct rs as [|[[cs] ls d t] rs]; simpl.
    { do 2 eexists. repeat split; exact H. }
    destruct cs as [|c0 cs]; simpl;
      do 2 eexists; repeat split;
      try exact H;
      match goal with H0 : _ \/ _ |- _ => destruct H0; discriminate end.
Qed.

Lemma fetchRoute_without_route_witness :
  let here := {| coords_latitude := 6.25; coords_longitude := 3.75 |} in
  let st := setUserLocation (Some here) initial in
  userLocation st = Some here
  /\ exists st',
       fetchRoute (Rejected (Error "offline")) 6.5 3.375 st
       = (Normal tt, st',
          [Core (fetch_osrm_route 3.75 6.25 3.375 6.5);
           Console_error "Routing error:" (Error "offline");
           Core (Alert_alert "Error" "Failed to calculate route")])
       /\ isRouting st' = false /\ routeCoordinates st' = None.
Proof.
  intros here st. split; [reflexivity|].
  destruct (proj2 (fetchRoute_without_route (Rejected (Error "offline"))
                     6.5 3.375 st) here eq_refl)
    as (st' & more & Hrun & Hr & _ & _ & _ & _ & Hst & Hmore).
  exists st'. rewrite Hrun, Hmore.
  split; [reflexivity|]. split; [exact Hr|]. now rewrite Hst.
Defined.

(** X26. When the routing service answers "Ok" with a route, [fetchRoute]
    sets the line to the route's coordinates, the distance to its distance
    formatted in kilometres and the duration to its duration formatted in
    minutes, so that the route panel shows both. It then fits the camera to
    the corners of the route, north-east first, with a padding of 50 in
    1000 ms, and asks for the stations within 5000 m of the destination.
    When the route has no coordinate, the corners cannot be read: the error
    is logged and alerted, and the line, the distance and the duration are
    set all the same. *)
Theorem fetchRoute_shows_route
    (l : LocationCoords) (route : OsrmRoute) (others : list OsrmRoute)
    (destLat destLng : float) (st : State) :
  userLocation st = Some l ->
  exists st' more,
    fetchRoute (Fulfilled {| code := "Ok"; routes := route :: others |})
               destLat destLng st
    = (Normal tt, st',
       Core (fetch_osrm_route (coords_longitude l) (coords_latitude l)
                              destLng destLat) :: more)
    /\ routeCoordinates st'
       = Some {| coordinates := coordinates (route_geometry route) |}
    /\ routeDistance st' = formatDistance (distance route)
    /\ routeDuration st' = formatDuration (duration route)
    /\ isRouting st' = false /\ stations st' = stations st
    /\ routePanel (render st')
       = Some (formatDistance (distance route),
               formatDuration (duration route))
    /\ followUserLocation (render st') = false
    /\ more = match routeCorners (coordinates (route_geometry route)) with
              | Normal corners =>
                  [Camera_fitBounds (ne corners) (sw corners) 50 1000;
                   rpc_get_nearby_stations destLat destLng 5000]
              | Throw error =>
                  [Console_error "Routing error:" error;
                   Core (Alert_alert "Error" "Failed to calculate route")]
              end
    /\ (coordinates (route_geometry route) = [] <->
        routeCorners (coordinates (route_geometry route))
        = Throw undefined_0).
Proof.
  intros H. unfold fetchRoute, Act.bind.
  rewrite fetchRoute_request_cases, H.
  unfold fetchRoute_settle, Act.finally, Act.try_catch, Act.bind. simpl.
  destruct route as [[cs] ls d t]. simpl.
  destruct cs as [|c0 cs]; simpl;
    do 2 eexists; repeat split; congruence.
Qed.

Lemma fetchRoute_shows_route_witness :
  exists st' more,
    fetchRoute (Fulfilled (osrm_ok {| coordinates := example_route |}))
               6.5 3.375
               (setUserLocation
                  (Some {| coords_latitude := 6.25;
                           coords_longitude := 3.75 |}) initial)
    = (Normal tt, st',
       Core (fetch_osrm_route 3.75 6.25 3.375 6.5) :: more)
    /\ routeDistance st' = "12.3 km" /\ routeDuration st' = "2 min".
Proof.
  destruct (fetchRoute_shows_route
              {| coords_latitude := 6.25; coords_longitude := 3.75 |}
              {| route_geometry := {| coordinates := example_route |};
                 legs := [ {| summary := None |} ];
                 distance := 12345; duration := 125 |} []
              6.5 3.375
              (setUserLocation
                 (Some {| coords_latitude := 6.25;
                          coords_longitude := 3.75 |}) initial) eq_refl)
    as (st' & more & Hrun & _ & Hd & Ht & _).
  exists st', more. split; [exact Hrun|].
  rewrite Hd, Ht. split; vm_compute; reflexivity.
Defined.

(** X27. The stations near the destination replace the markers, they are
    not merged into them: the answer's list becomes the list, an empty
    answer removes every marker, and repeated ids are kept as they come. An
    answer without data, an error in the answer and a rejected call leave
    the markers; the last two are logged. Nothing is thrown and no other
    cell changes. *)
Theorem fetchStationsNearby_replaces
    (answer : settled (InvokeResult (option (list Station)))) (st : State) :
  exists calls,
    fetchStationsNearby_settle answer st
    = (Normal tt,
       match answer with
       | Fulfilled (Data (Some data)) => setStations data st
       | _ => st
       end,
       calls)
    /\ calls = match answer with
               | Fulfilled (Failed error) | Rejected error =>
                   [Console_error "Error fetching stations:" error]
               | _ => []
               end
    /\ markers (render (Act.state_after
                          (fetchStationsNearby_settle answer st)))
       = match answer with
         | Fulfilled (Data (Some data)) => data
         | _ => stations st
         end.
Proof.
  destruct answer as [[[data|]|error]|error]; eexists; repeat split.
Qed.

(** X28. [handleSearch] never throws. A blank destination asks nothing.
    Otherwise the geocoder is asked once for the destination as typed. A
    rejected call is logged; an answer that is no list or an empty one
    alerts "Not Found"; on a list, the first hit's [lat] and [lon] are
    parsed and [fetchRoute] starts for them: with a user location the
    routing flag goes on and the routing service is asked, from the user's
    position, longitude first; without one nothing more happens and
    nothing is said. *)
Theorem map_search_runs
    (answer : settled (option (list Place))) (st : State) :
  exists st' calls,
    handleSearch parseFloat answer st = (Normal tt, st', calls)
    /\ if blank (destinationQuery st) then st' = st /\ calls = []
       else exists more,
         calls = Fetch (searchUrl (destinationQuery st)) :: more
         /\ match answer with
            | Rejected error =>
                st' = st /\ more = [Console_error "Geocoding error:" error]
            | Fulfilled (Some (hit :: _)) =>
                match userLocation st with
                | Some l =>
                    st' = setIsRouting true st
                    /\ more =
                         [Core (fetch_osrm_route
                                  (coords_longitude l) (coords_latitude l)
                                  (parseFloat (place_lon hit))
                                  (parseFloat (place_lat hit)))]
                | None => st' = st /\ more = []
                end
            | Fulfilled _ =>
                st' = st
                /\ more = [Core (Alert_alert "Not Found"
                                             "Could not find location")]
            end.
Proof.
  unfold handleSearch, handleSearch_request, Act.bind, Act.read. simpl.
  rewrite trim_falsy.
  destruct (blank (destinationQuery st)); simpl.
  { do 2 eexists. repeat split. }
  unfold handleSearch_settle, Act.try_catch, Act.bind.
  destruct answer as [[[|hit hits]|]|error]; simpl;
    try (do 2 eexists; split; [reflexivity|]; eexists; repeat split).
  rewrite fetchRoute_request_cases.
  destruct (userLocation st) as [l|]; simpl;
    do 2 eexists; (split; [reflexivity|]); eexists; repeat split.
Qed.

Lemma panel_ready_same (st st' : State) :
  routeCoordinates st' = routeCoordinates st \/ routeCoordinates st' = None ->
  routeDistance st' = routeDistance st ->
  routeDuration st' = routeDuration st ->
  panel_ready st -> panel_ready st'.
Proof.
  unfold panel_ready. intros [-> | ->] -> ->; [auto | congruence].
Qed.

Lemma handle_keeps_panel (event : Event) (st : State) :
  (panel_ready st /\ (isNavigating st = true -> routeCoordinates st <> None))
  ->
  let st' := Act.state_after (handle parseFloat event st) in
  panel_ready st' /\ (isNavigating st' = true -> routeCoordinates st' <> None).
Proof.
  intros [Hp Hn].
  destruct event as [permission current|text| |answer|answer destLat destLng
                    |answer| | ]; unfold handle, Act.state_after.
  - destruct permission as [[| |]|e1]; [destruct current as [l|e2]| | |];
      simpl; (split; [now apply (panel_ready_same st); auto | exact Hn]).
  - simpl. split; [now apply (panel_ready_same st); auto | exact Hn].
  - unfold handleSearch_request, Act.bind, Act.read. simpl.
    destruct (negb (truthy (trim (destinationQuery st)))); simpl;
      (split; [exact Hp | exact Hn]).
  - unfold handleSearch_settle, Act.try_catch, Act.bind.
    destruct answer as [[[|hit hits]|]|error]; simpl;
      try (split; [exact Hp | exact Hn]).
    rewrite fetchRoute_request_cases.
    destruct (userLocation st); simpl;
      (split; [now apply (panel_ready_same st); auto | exact Hn]).
  - unfold fetchRoute_settle, Act.finally, Act.try_catch, Act.bind.
    destruct answer as [[c rs]|error]; simpl.
    2:{ split; [now apply (panel_ready_same st); auto | exact Hn]. }
    destruct (c =? "Ok"); simpl.
    2:{ split; [now apply (panel_ready_same st); auto | exact Hn]. }
    destruct rs as [|[[cs] ls d t] rs]; simpl.
    { split; [now apply (panel_ready_same st); auto | exact Hn]. }
    assert (forall st', routeDistance st' = formatDistance d ->
                        routeDuration st' = formatDuration t ->
                        panel_ready st') as Hset.
    { intros st' H1 H2 _. unfold formatDistance, formatDuration in *.
      eauto. }
    destruct cs as [|c0 cs]; simpl;
      (split; [now apply Hset | discriminate]).
  - destruct answer as [[[data|]|error]|error]; simpl;
      (split; [now apply (panel_ready_same st); auto | exact Hn]).
  - unfold onPanel, startNavigation, Act.bind, Act.read. simpl.
    destruct (routeCoordinates st) eqn:E; simpl.
    + split; [apply (panel_ready_same st); auto|].
      simpl. rewrite E. discriminate.
    + split; [exact Hp | rewrite E; exact Hn].
  - unfold onPanel, endNavigation, Act.bind, Act.read. simpl.
    destruct (routeCoordinates st) eqn:E; simpl.
    + split; [apply (panel_ready_same st); auto | discriminate].
    + split; [exact Hp | rewrite E; exact Hn].
Qed.

Lemma after_keeps_panel (events : list Event) : forall st,
  (panel_ready st /\ (isNavigating st = true -> routeCoordinates st <> None))
  ->
  panel_ready (after parseFloat events st)
  /\ (isNavigating (after parseFloat events st) = true ->
      routeCoordinates (after parseFloat events st) <> None).
Proof.
  induction events as [|event events IH]; intros st H; simpl; [exact H|].
  apply IH. now apply handle_keeps_panel.
Qed.

(** X29. Whatever events reach the screen, in whatever order and with
    whatever answers, from its initial state on: while the route panel is
    shown its distance ends in " km" and its duration in " min", the map
    follows the user exactly while there is no route line, and navigation
    is on only while there is one. *)
Theorem map_screen_invariants (events : list Event) :
  let st := after parseFloat events initial in
  let view := render st in
  (forall distance duration,
     routePanel view = Some (distance, duration) ->
     exists kilometres minutes,
       distance = kilometres ++ " km" /\ duration = minutes ++ " min")
  /\ (followUserLocation view = true <-> routeLine view = None)
  /\ (routePanel view = None <-> routeLine view = None)
  /\ (navigating view = true -> routeLine view <> None).
Proof.
  intros st view.
  assert (panel_ready st
          /\ (isNavigating st = true -> routeCoordinates st <> None))
    as [Hp Hn].
  { apply after_keeps_panel.
    split; [intros H; now elim H | discriminate]. }
  unfold view, render. cbn [routePanel followUserLocation routeLine navigating].
  split; [|split; [|split]].
  - intros distance duration.
    destruct (routeCoordinates st) eqn:E; [|discriminate].
    intros [= <- <-]. apply Hp. rewrite E. discriminate.
  - destruct (routeCoordinates st); split; congruence.
  - destruct (routeCoordinates st); split; congruence.
  - exact Hn.
Qed.

End MapScreenFacts.
